(** * Spectrum analyser (Source/MainComponent.h): model and properties

    A shallow embedding of the [MainComponent] class: the sample FIFO and
    its hand-off to the analysis buffer ([pushNextSampleIntoFifo],
    [timerCallback]), the construction of the tempered scale and of the bar
    table ([buildTemperedScale], [freqToBin]) and the per-bar height
    computed while painting ([getLevel], [drawFrame]).

    Numeric conventions.
    - [int] values are integers of [Z].  The conversions from [float] to
      [int] in [buildTemperedScale] are undefined outside the range of a
      32-bit [int] and are modelled so ([toInt]); the other operations
      on bins stay inside that range whenever the conversions do (lemma
      [int_operations_in_range]), and the loop counters are far from it.
    - [float] and [double] values are exact rationals of [Q]: rounding of
      the binary formats is not modelled.  The one place where the program
      can leave the finite numbers, the division by [_sampleRate] in
      [freqToBin], is written out following IEEE 754.
    - [pow] and [log10] come from the C library and the windowed transform
      from juce::dsp; they are parameters of the model.
    - Of [drawFrame], the height of each bar is modelled; the horizontal
      placement of the rectangles is not. *)

From Stdlib Require Import ZArith QArith Qround Qminmax Lia Lqa.
From stdpp Require Import base tactics option list.

Local Open Scope Z_scope.

(** ** Outcomes of code that can go wrong *)

(** [Undefined] stands for behaviour the C++ standard leaves undefined
    (an integer remainder by zero, the conversion to [int] of a [float]
    that is infinite or outside the range of [int], an array access out of
    bounds); [OutOfFuel] is the model's own answer when a loop was given too
    few iterations. *)
Inductive result (A : Type) : Type :=
  | Ok (a : A)
  | Undefined
  | OutOfFuel.
Arguments Ok {A} a.
Arguments Undefined {A}.
Arguments OutOfFuel {A}.

#[global] Instance result_ret : MRet result := @Ok.
#[global] Instance result_bind : MBind result := fun A B f m =>
  match m with
  | Ok a => f a
  | Undefined => Undefined
  | OutOfFuel => OutOfFuel
  end.

(** ** Rational helpers *)

Definition Qltb (x y : Q) : bool := negb (Qle_bool y x).

(** C's [round]: nearest integer, halves away from zero. *)
Definition round (q : Q) : Z :=
  if Qle_bool 0 q then Qfloor (q + (1 # 2)) else Qceiling (q - (1 # 2)).

(** ** Constants and data *)

Definition fftOrder : Z := 11.
Definition fftSize : Z := Z.shiftl 1 fftOrder.

Record Bar : Type := mkBar {
  posX : Z;
  dataIdx : Z;
  endIdx : Z;
  factor : Q
}.

Record MainComponent : Type := mkMainComponent {
  fifo : list Q;
  fftData : list Q;
  fifoIndex : Z;
  nextFFTBlockReady : bool;
  temperedScale : list Q;
  allBars : list Bar;
  _sampleRate : Q;
  minFreq : Q;
  maxFreq : Q
}.

(** The arrays have a fixed size and the write index stays inside them. *)
Record wellFormed (st : MainComponent) : Prop := {
  wf_fifo : Z.of_nat (length (fifo st)) = fftSize;
  wf_fftData : Z.of_nat (length (fftData st)) = 2 * fftSize;
  wf_index : 0 <= fifoIndex st <= fftSize
}.

(** The object as its member initialisers leave it.  [fifo], [fftData] and
    [_sampleRate] have no initialiser: their contents are whatever the
    caller of the model supplies. *)
Definition initialComponent (fifo0 fftData0 : list Q) (sampleRate0 : Q)
  : MainComponent :=
  {| fifo := fifo0; fftData := fftData0; fifoIndex := 0;
     nextFFTBlockReady := false; temperedScale := []; allBars := [];
     _sampleRate := sampleRate0; minFreq := 20; maxFreq := 22000 |}.

(** [prepareToPlay] *)
Definition prepareToPlay (sampleRate : Q) (st : MainComponent) : MainComponent :=
  {| fifo := fifo st; fftData := fftData st; fifoIndex := fifoIndex st;
     nextFFTBlockReady := nextFFTBlockReady st;
     temperedScale := temperedScale st; allBars := allBars st;
     _sampleRate := sampleRate; minFreq := minFreq st; maxFreq := maxFreq st |}.

(** ** The sample FIFO *)

(** [zeromem (fftData, sizeof (fftData))] followed by
    [memcpy (fftData, fifo, sizeof (fifo))]. *)
Definition snapshot (src dst : list Q) : list Q :=
  src ++ drop (length src) (replicate (length dst) 0%Q).

Definition pushNextSampleIntoFifo (sample : Q) (st : MainComponent)
  : MainComponent :=
  let full := fifoIndex st =? fftSize in
  let handoff := full && negb (nextFFTBlockReady st) in
  let fftData1 := if handoff then snapshot (fifo st) (fftData st) else fftData st in
  let ready1 := if handoff then true else nextFFTBlockReady st in
  let index1 := if full then 0 else fifoIndex st in
  {| fifo := <[Z.to_nat index1 := sample]> (fifo st);
     fftData := fftData1;
     fifoIndex := index1 + 1;
     nextFFTBlockReady := ready1;
     temperedScale := temperedScale st; allBars := allBars st;
     _sampleRate := _sampleRate st; minFreq := minFreq st;
     maxFreq := maxFreq st |}.

(** The loop of [getNextAudioBlock] over one channel's samples. *)
Definition pushSamples (samples : list Q) (st : MainComponent) : MainComponent :=
  foldl (fun s x => pushNextSampleIntoFifo x s) st samples.

(** ** From a frequency to an FFT bin *)

(** The [float] that [freqToBin] returns: an integer, or minus infinity.
    Plus infinity and NaN never come out, see below. *)
Inductive binValue : Type :=
  | Bin (z : Z)
  | NegInfinity.

(** [freqToBin].  With a zero [_sampleRate] the quotient is an infinity or,
    for [0 / 0], a NaN; [round] leaves those as they are.  The test
    [bin < fftSize / 2] is false for plus infinity and for NaN, and true for
    minus infinity, which is then returned as it is. *)
Definition freqToBin (sampleRate freq : Q) : binValue :=
  let num := (freq * inject_Z fftSize)%Q in
  if Qeq_bool sampleRate 0 then
    if Qltb num 0 then NegInfinity else Bin (fftSize - 1)
  else
    let bin := round (num / sampleRate) in
    if bin <? fftSize / 2 then Bin bin else Bin (fftSize - 1).

(** The range of [int]. *)
Definition intMin : Z := -2147483648.
Definition intMax : Z := 2147483647.

(** Conversion of that [float] to [int] ([idx = bin], [nextBin = bin],
    [nextBin = freqToBin (...)]): undefined for an infinity and for a value
    that an [int] cannot hold. *)
Definition toInt (b : binValue) : result Z :=
  match b with
  | Bin z => if (intMin <=? z) && (z <=? intMax) then Ok z else Undefined
  | NegInfinity => Undefined
  end.

(** ** The bar table *)

(** The locals of the second loop of [buildTemperedScale], together with
    the vector it appends to. *)
Record walk : Type := mkWalk {
  prevBin : Z;
  prevIdx : Z;
  nBars : Z;
  bars : list Bar
}.

Definition setFactor (f : Q) (b : Bar) : Bar :=
  {| posX := posX b; dataIdx := dataIdx b; endIdx := endIdx b; factor := f |}.

(** [for (iFactor = ...; iFactor < nBars; iFactor++)], with [count]
    iterations left:
    [allBars[allBars.size() - nBars + iFactor].factor = (iFactor + 1) / nBars]. *)
Fixpoint factorLoop (count : nat) (iFactor n : Z) (bs : list Bar) : list Bar :=
  match count with
  | O => bs
  | S count' =>
      let f := (inject_Z (iFactor + 1) / inject_Z n)%Q in
      let k := Z.to_nat (Z.of_nat (length bs) - n + iFactor) in
      factorLoop count' (iFactor + 1) n (alter (setFactor f) k bs)
  end.

Definition setFactors (n : Z) (bs : list Bar) : list Bar :=
  factorLoop (Z.to_nat n) 0 n bs.

(** The starting bin of a bar: "start from the last used FFT bin". *)
Definition startIdx (prevBin bin : Z) : Z :=
  if (0 <? prevBin) && (prevBin + 1 <=? bin) then prevBin + 1 else bin.

(** The value of [prevBin] after a bar whose own bin is [bin] when the
    following frequency has bin [nextBin]: "use half the bins in between". *)
Definition extend (bin nextBin : Z) : Z :=
  if 1 <? nextBin - bin then bin + round (inject_Z (nextBin - bin) / 2) else bin.

(** One iteration of the loop over [temperedScale]: [freq] is
    [temperedScale[index]] and [next] is [temperedScale[index + 1]] when
    there is one. *)
Definition barStep (sampleRate : Q) (index : Z) (freq : Q) (next : option Q)
    (w : walk) : result walk :=
  bin ← toInt (freqToBin sampleRate freq);
  let idx := startIdx (prevBin w) bin in
  let w1 :=
    if idx =? prevIdx w then
      {| prevBin := prevBin w; prevIdx := prevIdx w;
         nBars := nBars w + 1; bars := bars w |}
    else
      {| prevBin := prevBin w; prevIdx := idx; nBars := 1;
         bars := if 1 <? nBars w then setFactors (nBars w) (bars w)
                 else bars w |} in
  prevBin' ← match next with
             | Some freq' =>
                 nextBin ← toInt (freqToBin sampleRate freq');
                 mret (extend bin nextBin)
             | None => mret bin
             end;
  let endIdx := if 0 <? prevBin' - idx then prevBin' else 0 in
  mret {| prevBin := prevBin'; prevIdx := prevIdx w1; nBars := nBars w1;
          bars := bars w1 ++ [mkBar index idx endIdx 0] |}.

(** The loop itself, over the entries from [index] on. *)
Fixpoint barLoop (sampleRate : Q) (index : Z) (ts : list Q) (w : walk)
  : result walk :=
  match ts with
  | [] => mret w
  | freq :: rest =>
      w' ← barStep sampleRate index freq (head rest) w;
      barLoop sampleRate (index + 1) rest w'
  end.

Section Libm.

(** [pow] and [log10] of the C library. *)
Variable pow : Q -> Q -> Q.
Variable log10 : Q -> Q.

Definition root24 : Q := pow 2 (1 / 24).
Definition c0 : Q := 440 * pow root24 (-114).

(** [c0 * pow(root24, i)] *)
Definition noteFreq (i : Z) : Q := c0 * pow root24 (inject_Z i).

(** The [while] loop that fills [temperedScale], with [fuel] iterations
    allowed.  [i % groupNotes] is evaluated only when [freq >= minFreq]
    holds, and is undefined for [groupNotes = 0]. *)
Fixpoint scaleLoop (fuel : nat) (lo hi : Q) (groupNotes : Z) (i : Z)
    (ts : list Q) : result (list Q) :=
  match fuel with
  | O => OutOfFuel
  | S fuel' =>
      let freq := noteFreq i in
      if Qle_bool freq hi then
        if Qle_bool lo freq then
          if groupNotes =? 0 then Undefined
          else scaleLoop fuel' lo hi groupNotes (i + 1)
                 (if Z.rem i groupNotes =? 0 then ts ++ [freq] else ts)
        else scaleLoop fuel' lo hi groupNotes (i + 1) ts
      else mret ts
  end.

Definition buildTemperedScale (fuel : nat) (groupNotes : Z)
    (st : MainComponent) : result MainComponent :=
  ts ← scaleLoop fuel (minFreq st) (maxFreq st) groupNotes 0 (temperedScale st);
  w ← barLoop (_sampleRate st) 0 ts
        {| prevBin := 0; prevIdx := 0; nBars := 0; bars := allBars st |};
  mret {| fifo := fifo st; fftData := fftData st; fifoIndex := fifoIndex st;
          nextFFTBlockReady := nextFFTBlockReady st;
          temperedScale := ts; allBars := bars w;
          _sampleRate := _sampleRate st; minFreq := minFreq st;
          maxFreq := maxFreq st |}.

(** The constructor: member initialisers, then [buildTemperedScale(2)]. *)
Definition construct (fuel : nat) (fifo0 fftData0 : list Q) (sampleRate0 : Q)
  : result MainComponent :=
  buildTemperedScale fuel 2 (initialComponent fifo0 fftData0 sampleRate0).

(** ** Levels and bar heights *)

Definition mindB : Q := -100.
Definition maxdB : Q := 0.

(** juce::jlimit, juce::jmap and juce::Decibels::gainToDecibels (with its
    default floor of -100 dB). *)
Definition jlimit (lo hi v : Q) : Q :=
  if Qltb v lo then lo else if Qltb hi v then hi else v.

Definition jmap (v srcMin srcMax tgtMin tgtMax : Q) : Q :=
  tgtMin + ((tgtMax - tgtMin) * (v - srcMin)) / (srcMax - srcMin).

Definition gainToDecibels (gain : Q) : Q :=
  if Qltb 0 gain then Qmax (-100) (log10 gain * 20) else -100.

(** [fftData[i]]; there is nothing to read outside the array. *)
Definition readFft (data : list Q) (i : Z) : result Q :=
  if 0 <=? i then
    match data !! Z.to_nat i with
    | Some x => Ok x
    | None => Undefined
    end
  else Undefined.

Definition levelOf (newGain height : Q) : Q :=
  let db := jlimit mindB maxdB
              (gainToDecibels newGain - gainToDecibels (inject_Z fftSize)) in
  jmap db mindB maxdB height 0.

Definition getLevel (data : list Q) (i : Z) (height : Q) : result Q :=
  newGain ← readFft data i;
  mret (levelOf newGain height).

(** The inner loop of [drawFrame] over the bins [j], [j + 1], ... of a
    bar with an end bin, with [count] iterations left. *)
Fixpoint peakLoop (count : nat) (data : list Q) (windowHeight : Q) (j : Z)
    (barHeight : Q) : result Q :=
  match count with
  | O => mret barHeight
  | S count' =>
      x ← readFft data j;
      barHeight' ← (if Qltb barHeight x then getLevel data j windowHeight
                    else mret barHeight);
      peakLoop count' data windowHeight (j + 1) barHeight'
  end.

(** The value of [barHeight] that [drawFrame] passes to [fillRect] for
    one bar. *)
Definition barHeightOf (data : list Q) (windowHeight : Q) (bar : Bar)
  : result Q :=
  if endIdx bar =? 0 then
    barHeight ← getLevel data (dataIdx bar) windowHeight;
    if Qltb 0 (factor bar) then
      prevBar ← (if 0 <? dataIdx bar
                 then getLevel data (dataIdx bar - 1) windowHeight
                 else mret barHeight);
      mret (prevBar + (barHeight - prevBar) * factor bar)%Q
    else mret barHeight
  else
    peakLoop (Z.to_nat (endIdx bar - dataIdx bar + 1)) data windowHeight
      (dataIdx bar) 0.

(** The loop of [drawFrame] over the bars: the heights in table order. *)
Fixpoint frameHeights (data : list Q) (windowHeight : Q) (bs : list Bar)
  : result (list Q) :=
  match bs with
  | [] => mret []
  | bar :: rest =>
      h ← barHeightOf data windowHeight bar;
      hs ← frameHeights data windowHeight rest;
      mret (h :: hs)
  end.

Definition drawFrame (st : MainComponent) (windowHeight : Q)
  : result (list Q) :=
  frameHeights (fftData st) windowHeight (allBars st).

End Libm.

Section Render.

(** [window.multiplyWithWindowingTable] followed by
    [forwardFFT.performFrequencyOnlyForwardTransform], both applied to
    [fftData] in place. *)
Variable transform : list Q -> list Q.

Definition drawNextFrameOfSpectrum (st : MainComponent) : MainComponent :=
  {| fifo := fifo st; fftData := transform (fftData st);
     fifoIndex := fifoIndex st; nextFFTBlockReady := nextFFTBlockReady st;
     temperedScale := temperedScale st; allBars := allBars st;
     _sampleRate := _sampleRate st; minFreq := minFreq st;
     maxFreq := maxFreq st |}.

Definition timerCallback (st : MainComponent) : MainComponent :=
  if nextFFTBlockReady st then
    let st1 := drawNextFrameOfSpectrum st in
    {| fifo := fifo st1; fftData := fftData st1; fifoIndex := fifoIndex st1;
       nextFFTBlockReady := false;
       temperedScale := temperedScale st1; allBars := allBars st1;
       _sampleRate := _sampleRate st1; minFreq := minFreq st1;
       maxFreq := maxFreq st1 |}
  else st.

End Render.

(** ** The rules as the specification words them *)

(** "bin = round(freq * windowSize / sampleRate), clamped to at most
    windowSize/2 - 1". *)
Definition specBin (sampleRate freq : Q) : Z :=
  Z.min (round (freq * inject_Z fftSize / sampleRate)) (fftSize / 2 - 1).

(** "If the current bar's own computed bin is <= prevBin + 1, it is forced
    to reuse prevBin + 1 as its starting bin; otherwise it starts at its own
    computed bin". *)
Definition specStartIdx (prevBin bin : Z) : Z :=
  if bin <=? prevBin + 1 then prevBin + 1 else bin.

(** ** A runnable instance of the C library functions

    Used only to run the model on concrete configurations.  Powers are
    computed in fixed point with 40 fractional bits, the way a binary
    format of limited precision would; the one power with a fractional
    exponent that the program asks for is the twenty-fourth root of two. *)
Module Approx.

Definition one : Z := Z.shiftl 1 40.

Definition ofQ (q : Q) : Z := (Qnum q * one) / Zpos (Qden q).
Definition toQ (m : Z) : Q := Qmake m (Z.to_pos one).

Definition fixpow (b : Z) (n : nat) : Z :=
  Nat.iter n (fun m => Z.shiftr (m * b) 40) one.

Definition pow (b e : Q) : Q :=
  if Zpos (Qden e) =? 1 then
    if 0 <=? Qnum e then toQ (fixpow (ofQ b) (Z.to_nat (Qnum e)))
    else (/ toQ (fixpow (ofQ b) (Z.to_nat (- Qnum e))))%Q
  else toQ 1131729777685.

(** The integer part of the binary logarithm, scaled by [log10 2]. *)
Definition log10 (x : Q) : Q :=
  (inject_Z (Z.log2 (Qfloor x)) * (30103 # 100000))%Q.

Definition silence : list Q := replicate (Z.to_nat (2 * fftSize)) 0%Q.

(** A spectrum with a weak bin 20 next to a strong bin 21. *)
Definition twoTone : list Q :=
  <[20%nat := 4%Q]> (<[21%nat := 100%Q]> silence).

(** A window of [fftSize] equal samples, and an object whose buffers are
    zeroed, before its constructor body runs. *)
Definition window (x : Q) : list Q := replicate (Z.to_nat fftSize) x.

Definition fresh : MainComponent :=
  initialComponent (window 0) silence 44100.

(** The FIFO after one window and one more sample: the hand-off has
    taken place. *)
Definition handedOff : MainComponent :=
  pushSamples (window 1 ++ [5%Q]) fresh.

(** A component constructed at the given sample rate, with zeroed
    buffers. *)
Definition component (fuel : nat) (sampleRate : Q) : result MainComponent :=
  construct pow fuel (window 0) silence sampleRate.

(** The component that the constructor leaves at the given sample rate. *)
Definition valueOr (r : result MainComponent) (d : MainComponent)
  : MainComponent :=
  match r with
  | Ok st => st
  | Undefined => d
  | OutOfFuel => d
  end.

Definition built (sampleRate : Q) : MainComponent :=
  valueOr (component 300 sampleRate) fresh.

Definition barAt (st : MainComponent) (k : nat) : Bar :=
  default (mkBar 0 0 0 0) (allBars st !! k).

Definition freqAt (st : MainComponent) (k : nat) : Q :=
  default 0%Q (temperedScale st !! k).

(** The components used in the examples, computed once. *)
Definition at44100 : MainComponent := Eval vm_compute in built 44100.
Definition at22050 : MainComponent := Eval vm_compute in built 22050.
Definition atNegative : MainComponent := Eval vm_compute in built (-44100).

End Approx.


(** ** Vocabulary of the statements *)

(** The integer that [freqToBin] returns, where it returns one. *)
Definition binOf (sampleRate freq : Q) : Z :=
  match freqToBin sampleRate freq with
  | Bin z => z
  | NegInfinity => 0
  end.

(** What a bar reads from: everything but its interpolation factor. *)
Definition shape (b : Bar) : Z * Z * Z := (posX b, dataIdx b, endIdx b).

(** One iteration of the loop on integers: [bin] is the bar's own bin and
    [pb'] the value that [prevBin] takes at the end of the iteration. *)
Definition stepWalk (index bin pb' : Z) (w : walk) : walk :=
  let idx := startIdx (prevBin w) bin in
  {| prevBin := pb';
     prevIdx := if idx =? prevIdx w then prevIdx w else idx;
     nBars := if idx =? prevIdx w then nBars w + 1 else 1;
     bars := (if idx =? prevIdx w then bars w
              else if 1 <? nBars w then setFactors (nBars w) (bars w)
                   else bars w)
             ++ [mkBar index idx (if 0 <? pb' - idx then pb' else 0) 0] |}.

Definition nextPrevBin (bin : Z) (rest : list Z) : Z :=
  match rest with
  | nextBin :: _ => extend bin nextBin
  | [] => bin
  end.

(** The whole loop on the list of own bins. *)
Fixpoint walkBins (index : Z) (bins : list Z) (w : walk) : walk :=
  match bins with
  | [] => w
  | bin :: rest =>
      walkBins (index + 1) rest (stepWalk index bin (nextPrevBin bin rest) w)
  end.

(** The bin of a frequency is a number that an [int] can hold: the
    conversions of the loop are defined for it. *)
Definition binFitsInt (sampleRate freq : Q) : Prop :=
  exists z, freqToBin sampleRate freq = Bin z /\ intMin <= z <= intMax.

(** The shapes of the bars that the loop appends for the own bins [bins],
    from position [index] on, when [prevBin] holds [pb] on entry. *)
Fixpoint shapes (index pb : Z) (bins : list Z) : list (Z * Z * Z) :=
  match bins with
  | [] => []
  | bin :: rest =>
      let idx := startIdx pb bin in
      let pb' := nextPrevBin bin rest in
      (index, idx, if 0 <? pb' - idx then pb' else 0)
        :: shapes (index + 1) pb' rest
  end.

(** Indices in increasing order, none below [i]. *)
Fixpoint increasingFrom (i : Z) (js : list Z) : Prop :=
  match js with
  | [] => True
  | j :: rest => i <= j /\ increasingFrom (j + 1) rest
  end.

(** The walk as [buildTemperedScale] starts it. *)
Definition walk0 (bs : list Bar) : walk :=
  {| prevBin := 0; prevIdx := 0; nBars := 0; bars := bs |}.

(** ** Runs of bars on one bin *)

(** Among the bars from position [L] on, the [k] bars from position [s] on
    form a maximal run on the primary bin [d]: they all start at [d], the
    bar before them (if it is one of those bars) does not, and neither does
    the bar after them (if there is one). *)
Definition runAt (T : list Bar) (L s k : nat) (d : Z) : Prop :=
  (L <= s)%nat /\ (1 <= k)%nat /\ (s + k <= length T)%nat /\
  (forall (i : nat) (b : Bar),
     (s <= i < s + k)%nat -> T !! i = Some b -> dataIdx b = d) /\
  (forall b : Bar, (L < s)%nat -> T !! (s - 1)%nat = Some b -> dataIdx b <> d) /\
  (forall b : Bar, T !! (s + k)%nat = Some b -> dataIdx b <> d).

(** The factors of a finished run: none for a single bar, and the ramp
    [1/k], [2/k], ..., [k/k] otherwise. *)
Definition rampAt (T : list Bar) (s k : nat) : Prop :=
  forall (i : nat) (b : Bar),
    (i < k)%nat -> T !! (s + i)%nat = Some b ->
    (factor b ==
       if (k =? 1)%nat then 0
       else inject_Z (Z.of_nat i + 1) / inject_Z (Z.of_nat k))%Q.

Definition flatAt (T : list Bar) (s k : nat) : Prop :=
  forall (i : nat) (b : Bar),
    (i < k)%nat -> T !! (s + i)%nat = Some b -> factor b = 0%Q.

(** What the loop maintains: the bars from position [o] on are the run in
    progress, counted by [nBars], on the bin [prevIdx], with no factor yet;
    the runs before it are finished. *)
Definition walkInv (L : nat) (w : walk) (o : nat) : Prop :=
  (L <= o <= length (bars w))%nat /\
  nBars w = Z.of_nat (length (bars w) - o) /\
  ((L < length (bars w))%nat -> (o < length (bars w))%nat) /\
  (forall (i : nat) (b : Bar),
     (o <= i)%nat -> bars w !! i = Some b ->
     dataIdx b = prevIdx w /\ factor b = 0%Q) /\
  (forall b : Bar,
     (L < o)%nat -> bars w !! (o - 1)%nat = Some b -> dataIdx b <> prevIdx w) /\
  (forall (s k : nat) (d : Z),
     runAt (bars w) L s k d -> (s + k <= o)%nat -> rampAt (bars w) s k).

(** ** Audio blocks *)

(** juce::AudioSourceChannelInfo, the buffer being the list of its
    channels. *)
Record AudioSourceChannelInfo : Type := mkAudioSourceChannelInfo {
  buffer : list (list Q);
  startSample : Z;
  numSamples : Z
}.

(** [channelData[k]]; reading outside the channel is undefined. *)
Definition readSample (channelData : list Q) (k : Z) : result Q :=
  if 0 <=? k then
    match channelData !! Z.to_nat k with
    | Some x => Ok x
    | None => Undefined
    end
  else Undefined.

(** The [for] loop of [getNextAudioBlock], with [count] iterations left;
    [channelData] is the first channel and the read pointer is at
    [start]. *)
Fixpoint blockLoop (count : nat) (channelData : list Q) (start i : Z)
    (st : MainComponent) : result MainComponent :=
  match count with
  | O => mret st
  | S count' =>
      x ← readSample channelData (start + i);
      blockLoop count' channelData start (i + 1) (pushNextSampleIntoFifo x st)
  end.

Definition getNextAudioBlock (bufferToFill : AudioSourceChannelInfo)
    (st : MainComponent) : result MainComponent :=
  match buffer bufferToFill with
  | [] => mret st
  | channel0 :: _ =>
      blockLoop (Z.to_nat (numSamples bufferToFill)) channel0
        (startSample bufferToFill) 0 st
  end.

(** The last bin that [drawFrame] reads for a bar: its end bin, or its
    primary bin when it has no end bin. *)
Definition lastBin (b : Bar) : Z :=
  if endIdx b =? 0 then dataIdx b else endIdx b.

(** A component whose band is empty: its lower limit is above its upper
    limit. *)
Definition emptyBand : MainComponent :=
  {| fifo := Approx.window 0; fftData := Approx.silence; fifoIndex := 0;
     nextFFTBlockReady := false; temperedScale := []; allBars := [];
     _sampleRate := 44100; minFreq := 22000; maxFreq := 20 |}.

(** An interpolation factor that is a fraction of the way from one level to
    the next. *)
Definition unitFactor (b : Bar) : Prop :=
  (0 <= factor b)%Q /\ (factor b <= 1)%Q.

(** A spectrum with a weak bin 2 next to a strong bin 3, the two bins that
    the bars of the run on the primary bin 3 interpolate between. *)
Definition lowTone : list Q :=
  <[2%nat := 4%Q]> (<[3%nat := 100%Q]> Approx.silence).
(** * Properties *)

(** ** Basic facts *)

Lemma fftSize_value : fftSize = 2048.
Proof. reflexivity. Qed.

(** The general proofs use the size through [fftSize_value] only. *)
#[global] Opaque fftSize.

Lemma bind_Ok {A B} (m : result A) (f : A -> result B) (b : B) :
  m ≫= f = Ok b -> exists a, m = Ok a /\ f a = Ok b.
Proof. destruct m as [a| |]; simpl; intros H; try discriminate; eauto. Qed.

Ltac inv_bind H :=
  let a := fresh "a" in
  let Ha := fresh "Hres" in
  apply bind_Ok in H; destruct H as (a & Ha & H).

(** ** Rationals and rounding *)

Lemma Qltb_lt (x y : Q) : Qltb x y = true <-> (x < y)%Q.
Proof.
  unfold Qltb. rewrite negb_true_iff. split.
  - intros H. apply Qnot_le_lt. intros Hle.
    apply Qle_bool_iff in Hle. congruence.
  - intros H. destruct (Qle_bool y x) eqn:E; [|reflexivity].
    apply Qle_bool_iff in E. exfalso. exact (Qlt_not_le _ _ H E).
Qed.

Lemma Qltb_ge (x y : Q) : Qltb x y = false <-> (y <= x)%Q.
Proof.
  unfold Qltb. rewrite negb_false_iff. apply Qle_bool_iff.
Qed.

Lemma round_nonneg (q : Q) : (0 <= q)%Q -> 0 <= round q.
Proof.
  intros H. unfold round.
  apply Qle_bool_iff in H as Hb. rewrite Hb.
  change 0 with (Qfloor 0). apply Qfloor_resp_le.
  apply Qle_trans with q; [exact H|].
  rewrite <- (Qplus_0_r q) at 1. apply Qplus_le_r. discriminate.
Qed.

Lemma round_nonpos (q : Q) : (q <= 0)%Q -> round q <= 0.
Proof.
  intros H. unfold round.
  destruct (Qle_bool 0 q) eqn:Hb.
  - apply Qle_bool_iff in Hb.
    assert (E : (q == 0)%Q) by (apply Qle_antisym; assumption).
    rewrite (Qfloor_comp _ (1 # 2)); [reflexivity|].
    rewrite E. reflexivity.
  - change 0 with (Qceiling 0). apply Qceiling_resp_le.
    apply Qle_trans with q; [|exact H].
    rewrite <- (Qplus_0_r q) at 2. unfold Qminus. apply Qplus_le_r. discriminate.
Qed.

Lemma round_mono (p q : Q) : (p <= q)%Q -> round p <= round q.
Proof.
  intros H. unfold round.
  destruct (Qle_bool 0 p) eqn:Hp, (Qle_bool 0 q) eqn:Hq.
  - apply Qfloor_resp_le, Qplus_le_l, H.
  - apply Qle_bool_iff in Hp.
    assert (Hq' : Qle_bool 0 q = true)
      by (apply Qle_bool_iff; apply Qle_trans with p; assumption).
    congruence.
  - assert (Hp' : (p <= 0)%Q).
    { apply Qlt_le_weak, Qnot_le_lt. intros Hle.
      apply Qle_bool_iff in Hle. congruence. }
    apply Qle_bool_iff in Hq.
    pose proof (round_nonpos p Hp') as H1.
    pose proof (round_nonneg q Hq) as H2.
    unfold round in H1, H2.
    rewrite Hp in H1. apply Qle_bool_iff in Hq. rewrite Hq in H2. lia.
  - apply Qceiling_resp_le. unfold Qminus. apply Qplus_le_l, H.
Qed.

Lemma round_half (d : Z) : 1 < d -> 1 <= round (inject_Z d / 2) <= d.
Proof.
  intros Hd.
  assert (Hq : (0 <= inject_Z d / 2)%Q).
  { apply Qle_shift_div_l; [reflexivity|]. rewrite Qmult_0_l.
    change 0%Q with (inject_Z 0). rewrite <- Zle_Qle. lia. }
  unfold round. rewrite (proj2 (Qle_bool_iff _ _) Hq).
  rewrite (Qfloor_comp _ ((d + 1) # 2)).
  - unfold Qfloor. Z.to_euclidean_division_equations; lia.
  - unfold Qeq, Qdiv, Qmult, Qinv, Qplus, inject_Z; simpl. lia.
Qed.

Lemma round_half_sharp (d : Z) : 1 < d -> 2 * round (inject_Z d / 2) <= d + 1.
Proof.
  intros Hd.
  assert (Hq : (0 <= inject_Z d / 2)%Q).
  { apply Qle_shift_div_l; [reflexivity|]. rewrite Qmult_0_l.
    change 0%Q with (inject_Z 0). rewrite <- Zle_Qle. lia. }
  unfold round. rewrite (proj2 (Qle_bool_iff _ _) Hq).
  rewrite (Qfloor_comp _ ((d + 1) # 2)).
  - unfold Qfloor. Z.to_euclidean_division_equations; lia.
  - unfold Qeq, Qdiv, Qmult, Qinv, Qplus, inject_Z; simpl. lia.
Qed.

(** ** The sample FIFO *)

Lemma push_ready_frame (x : Q) (st : MainComponent) :
  nextFFTBlockReady st = true ->
  fftData (pushNextSampleIntoFifo x st) = fftData st /\
  nextFFTBlockReady (pushNextSampleIntoFifo x st) = true.
Proof.
  intros Hready. unfold pushNextSampleIntoFifo; simpl.
  rewrite Hready, andb_false_r. auto.
Qed.

Lemma push_wellFormed (x : Q) (st : MainComponent) :
  wellFormed st -> wellFormed (pushNextSampleIntoFifo x st).
Proof.
  intros [Hfifo Hdata Hidx].
  pose proof fftSize_value as HN.
  split; unfold pushNextSampleIntoFifo; simpl.
  - rewrite length_insert. exact Hfifo.
  - destruct (fifoIndex st =? fftSize) eqn:Hfull,
      (nextFFTBlockReady st); simpl; try exact Hdata.
    unfold snapshot.
    rewrite length_app, length_drop, length_replicate. lia.
  - destruct (fifoIndex st =? fftSize) eqn:Hfull; [lia|].
    apply Z.eqb_neq in Hfull. lia.
Qed.

(** Samples that fit in the remaining room of the FIFO are stored in
    order, and nothing else changes. *)
Lemma pushSamples_fill (w : list Q) : forall st : MainComponent,
  0 <= fifoIndex st ->
  fifoIndex st + Z.of_nat (length w) <= fftSize ->
  Z.of_nat (length (fifo st)) = fftSize ->
  let st' := pushSamples w st in
  fifo st' = take (Z.to_nat (fifoIndex st)) (fifo st) ++ w ++
             drop (Z.to_nat (fifoIndex st) + length w) (fifo st) /\
  fifoIndex st' = fifoIndex st + Z.of_nat (length w) /\
  fftData st' = fftData st /\
  nextFFTBlockReady st' = nextFFTBlockReady st.
Proof.
  induction w as [|x w IH]; intros st Hlo Hhi Hlen; simpl.
  - rewrite Nat.add_0_r, take_drop. repeat split; lia.
  - simpl in Hhi.
    assert (Hfull : (fifoIndex st =? fftSize) = false)
      by (apply Z.eqb_neq; lia).
    set (st1 := pushNextSampleIntoFifo x st).
    assert (H1 : fifo st1 = <[Z.to_nat (fifoIndex st) := x]> (fifo st) /\
                 fifoIndex st1 = fifoIndex st + 1 /\
                 fftData st1 = fftData st /\
                 nextFFTBlockReady st1 = nextFFTBlockReady st).
    { unfold st1, pushNextSampleIntoFifo; simpl. rewrite Hfull; simpl. auto. }
    destruct H1 as (Hf1 & Hi1 & Hd1 & Hr1).
    destruct (IH st1) as (Hf & Hi & Hd & Hr).
    + lia.
    + lia.
    + rewrite Hf1, length_insert. exact Hlen.
    + fold (pushSamples w st1).
      rewrite Hf, Hi, Hd, Hr, Hi1, Hd1, Hr1, Hf1.
      repeat split; try lia.
      set (i := Z.to_nat (fifoIndex st)).
      assert (Hi' : (i < length (fifo st))%nat) by lia.
      replace (Z.to_nat (fifoIndex st + 1)) with (S i) by lia.
      rewrite take_insert_lt by lia.
      rewrite drop_insert_lt by lia.
      destruct (lookup_lt_is_Some_2 (fifo st) i Hi') as [y Hy].
      rewrite (take_S_r _ _ _ Hy).
      rewrite insert_app_r_alt by (rewrite length_take; lia).
      rewrite length_take, Nat.min_l, Nat.sub_diag by lia. simpl.
      rewrite <- app_assoc. simpl.
      replace (i + S (length w))%nat with (S i + length w)%nat by lia.
      reflexivity.
Qed.

(** The state after two full windows, pushed from a fresh FIFO. *)
Lemma pushSamples_two_windows (w1 w2 : list Q) (st : MainComponent) :
  wellFormed st ->
  fifoIndex st = 0 ->
  nextFFTBlockReady st = false ->
  Z.of_nat (length w1) = fftSize ->
  Z.of_nat (length w2) = fftSize ->
  let st' := pushSamples (w1 ++ w2) st in
  nextFFTBlockReady st' = true /\
  fftData st' = w1 ++ replicate (Z.to_nat fftSize) 0%Q /\
  fifo st' = w2 /\
  fifoIndex st' = fftSize.
Proof.
  intros [Hfifo Hdata _] Hidx Hready Hw1 Hw2.
  pose proof fftSize_value as HN.
  unfold pushSamples. rewrite foldl_app. fold (pushSamples w1 st).
  destruct (pushSamples_fill w1 st) as (Hf1 & Hi1 & Hd1 & Hr1); try lia.
  set (st1 := pushSamples w1 st) in *.
  rewrite Hidx in Hf1, Hi1. simpl in Hf1, Hi1.
  rewrite drop_ge, app_nil_r in Hf1 by lia.
  destruct w2 as [|x w2]; [simpl in Hw2; lia|].
  simpl. set (st2 := pushNextSampleIntoFifo x st1).
  assert (H2 : fifo st2 = <[0%nat := x]> w1 /\ fifoIndex st2 = 1 /\
               fftData st2 = w1 ++ replicate (Z.to_nat fftSize) 0%Q /\
               nextFFTBlockReady st2 = true).
  { unfold st2, pushNextSampleIntoFifo; simpl.
    rewrite Hi1, Hw1, Z.eqb_refl, Hr1, Hready, Hf1, Hd1; simpl.
    repeat split. unfold snapshot.
    rewrite drop_replicate. do 2 f_equal. lia. }
  destruct H2 as (Hf2 & Hi2 & Hd2 & Hr2).
  fold (pushSamples w2 st2).
  simpl in Hw2.
  destruct (pushSamples_fill w2 st2) as (Hf & Hi & Hd & Hr).
  - lia.
  - lia.
  - rewrite Hf2, length_insert. lia.
  - rewrite Hf, Hi, Hd, Hr, Hf2, Hi2, Hd2, Hr2.
    repeat split; try lia.
    destruct w1 as [|y w1]; [simpl in Hw1; lia|].
    simpl. f_equal.
    rewrite drop_ge, app_nil_r by (simpl in *; lia). reflexivity.
Qed.

Lemma pushSamples_ready_frame (samples : list Q) : forall st : MainComponent,
  nextFFTBlockReady st = true ->
  fftData (pushSamples samples st) = fftData st /\
  nextFFTBlockReady (pushSamples samples st) = true.
Proof.
  induction samples as [|x samples IH]; intros st Hready; simpl; [auto|].
  destruct (push_ready_frame x st Hready) as [Hd Hr].
  destruct (IH _ Hr) as [Hd' Hr']. fold (pushSamples samples).
  split; [congruence | exact Hr'].
Qed.

(** C9.  While [nextFFTBlockReady] is set, pushing samples leaves the
    snapshot in [fftData] as it is, however many samples are pushed, and the
    flag stays set: only the render side clears it. *)
Theorem push_preserves_ready_snapshot (samples : list Q) (st : MainComponent) :
  nextFFTBlockReady st = true ->
  fftData (pushSamples samples st) = fftData st /\
  nextFFTBlockReady (pushSamples samples st) = true /\
  forall x : Q, fftData (pushNextSampleIntoFifo x st) = fftData st.
Proof.
  intros Hready.
  destruct (pushSamples_ready_frame samples st Hready) as [Hd Hr].
  repeat split; try assumption.
  intros x. apply (push_ready_frame x st Hready).
Qed.

Lemma push_preserves_ready_snapshot_witness :
  nextFFTBlockReady Approx.handedOff = true /\
  (fftData (pushSamples (Approx.window 3 ++ Approx.window 4) Approx.handedOff)
     = fftData Approx.handedOff /\
   nextFFTBlockReady
     (pushSamples (Approx.window 3 ++ Approx.window 4) Approx.handedOff)
     = true /\
   forall x : Q,
     fftData (pushNextSampleIntoFifo x Approx.handedOff)
       = fftData Approx.handedOff).
Proof.
  assert (H : nextFFTBlockReady Approx.handedOff = true)
    by (vm_compute; reflexivity).
  exact (conj H (push_preserves_ready_snapshot
                   (Approx.window 3 ++ Approx.window 4) Approx.handedOff H)).
Defined.

(** C2, as the code has it.  After exactly two windows pushed into a fresh
    FIFO with no drain in between, one frame is ready and it is the FIRST
    window followed by [fftSize] zeros; the second window is still in the
    capture buffer only, and no later push changes the frame or clears the
    flag: the second window is the one that is dropped. *)
Theorem two_windows_keep_first (w1 w2 : list Q) (st : MainComponent) :
  wellFormed st ->
  fifoIndex st = 0 ->
  nextFFTBlockReady st = false ->
  Z.of_nat (length w1) = fftSize ->
  Z.of_nat (length w2) = fftSize ->
  let st' := pushSamples (w1 ++ w2) st in
  nextFFTBlockReady st' = true /\
  fftData st' = w1 ++ replicate (Z.to_nat fftSize) 0%Q /\
  fifo st' = w2 /\
  forall more : list Q,
    nextFFTBlockReady (pushSamples more st') = true /\
    fftData (pushSamples more st') = w1 ++ replicate (Z.to_nat fftSize) 0%Q.
Proof.
  intros Hwf Hidx Hready Hw1 Hw2.
  destruct (pushSamples_two_windows w1 w2 st Hwf Hidx Hready Hw1 Hw2)
    as (Hr & Hd & Hf & _).
  simpl. split; [exact Hr|]. split; [exact Hd|]. split; [exact Hf|].
  intros more.
  destruct (pushSamples_ready_frame more _ Hr) as [Hd' Hr'].
  split; [exact Hr'|]. rewrite Hd'. exact Hd.
Qed.

Lemma window_length (x : Q) : Z.of_nat (length (Approx.window x)) = fftSize.
Proof.
  unfold Approx.window. rewrite length_replicate, fftSize_value. lia.
Qed.

Lemma fresh_wellFormed : wellFormed Approx.fresh.
Proof.
  split; simpl.
  - apply window_length.
  - unfold Approx.silence. rewrite length_replicate, fftSize_value. lia.
  - rewrite fftSize_value. lia.
Qed.

Lemma two_windows_keep_first_witness :
  let st' := pushSamples (Approx.window 1 ++ Approx.window 2) Approx.fresh in
  nextFFTBlockReady st' = true /\
  fftData st' = Approx.window 1 ++ replicate (Z.to_nat fftSize) 0%Q /\
  fifo st' = Approx.window 2 /\
  forall more : list Q,
    nextFFTBlockReady (pushSamples more st') = true /\
    fftData (pushSamples more st')
      = Approx.window 1 ++ replicate (Z.to_nat fftSize) 0%Q.
Proof.
  exact (two_windows_keep_first (Approx.window 1) (Approx.window 2)
           Approx.fresh fresh_wellFormed eq_refl eq_refl
           (window_length 1) (window_length 2)).
Defined.

(** C2, as the specification words it, fails: after two windows the ready
    frame does not hold the second one. *)
Lemma two_windows_second_not_kept :
  let st' := pushSamples (Approx.window 1 ++ Approx.window 2) Approx.fresh in
  ~ (nextFFTBlockReady st' = true /\
     take (Z.to_nat fftSize) (fftData st') = Approx.window 2).
Proof.
  intros st' [_ H].
  assert (E : take (Z.to_nat fftSize) (fftData st') !! 0%nat = Some 1%Q)
    by (vm_compute; reflexivity).
  rewrite H in E. discriminate E.
Qed.

(** ** From a frequency to a bin *)

Lemma fftSize_inject_nonneg : (0 <= inject_Z fftSize)%Q.
Proof. rewrite fftSize_value. discriminate. Qed.

Lemma Qeq_bool_pos (x : Q) : (0 < x)%Q -> Qeq_bool x 0 = false.
Proof.
  intros H. destruct (Qeq_bool x 0) eqn:E; [|reflexivity].
  apply Qeq_bool_eq in E. rewrite E in H. discriminate H.
Qed.

Lemma freqToBin_positive_rate (sr f : Q) :
  (0 < sr)%Q ->
  freqToBin sr f =
    Bin (if round (f * inject_Z fftSize / sr) <? fftSize / 2
         then round (f * inject_Z fftSize / sr) else fftSize - 1).
Proof.
  intros Hsr. unfold freqToBin. rewrite (Qeq_bool_pos _ Hsr).
  destruct (_ <? _); reflexivity.
Qed.

Lemma freqToBin_range (sr f : Q) :
  (0 <= sr)%Q -> (0 <= f)%Q ->
  exists z, freqToBin sr f = Bin z /\ 0 <= z <= fftSize - 1.
Proof.
  intros Hsr Hf. pose proof fftSize_value as HN.
  assert (Hnum : (0 <= f * inject_Z fftSize)%Q)
    by (apply Qmult_le_0_compat; [exact Hf | apply fftSize_inject_nonneg]).
  unfold freqToBin.
  destruct (Qeq_bool sr 0) eqn:E.
  - apply Qltb_ge in Hnum. rewrite Hnum. exists (fftSize - 1). split; [reflexivity | lia].
  - assert (Hpos : (0 < sr)%Q).
    { apply Qle_lt_or_eq in Hsr as [H|H]; [exact H|].
      symmetry in H. apply Qeq_eq_bool in H. congruence. }
    assert (Hq : (0 <= f * inject_Z fftSize / sr)%Q).
    { apply Qle_shift_div_l; [exact Hpos|]. rewrite Qmult_0_l. exact Hnum. }
    apply round_nonneg in Hq.
    destruct (_ <? _) eqn:Hlt; eexists; (split; [reflexivity|]).
    + apply Z.ltb_lt in Hlt. rewrite HN in *.
      change (2048 / 2) with 1024 in Hlt. lia.
    + lia.
Qed.

Lemma binOf_mono (sr f g : Q) :
  (0 < sr)%Q -> (f <= g)%Q -> binOf sr f <= binOf sr g.
Proof.
  intros Hsr Hfg. unfold binOf.
  rewrite !(freqToBin_positive_rate _ _ Hsr).
  assert (Hr : round (f * inject_Z fftSize / sr)
               <= round (g * inject_Z fftSize / sr)).
  { apply round_mono. unfold Qdiv.
    apply Qmult_le_compat_r; [|apply Qinv_le_0_compat, Qlt_le_weak, Hsr].
    apply Qmult_le_compat_r; [exact Hfg | apply fftSize_inject_nonneg]. }
  pose proof fftSize_value as HN. rewrite HN in *.
  change (2048 / 2) with 1024.
  repeat match goal with |- context [?a <? ?b] =>
    destruct (Z.ltb_spec a b) end; lia.
Qed.

(** C3.  [freqToBin] agrees with the bin of the specification below half
    the window; from there on it returns [fftSize - 1], which is not the
    clamp to [fftSize / 2 - 1] that the specification asks for. *)
Theorem freqToBin_clamp_value (sr f : Q) :
  (0 < sr)%Q ->
  let r := round (f * inject_Z fftSize / sr) in
  (r < fftSize / 2 -> freqToBin sr f = Bin r /\ specBin sr f = r) /\
  (fftSize / 2 <= r ->
     freqToBin sr f = Bin (fftSize - 1) /\
     specBin sr f = fftSize / 2 - 1 /\
     specBin sr f < fftSize - 1).
Proof.
  intros Hsr r. pose proof fftSize_value as HN.
  rewrite (freqToBin_positive_rate _ _ Hsr). fold r. unfold specBin. fold r.
  rewrite HN in *. change (2048 / 2) with 1024 in *.
  split; intros Hr.
  - apply Z.ltb_lt in Hr as Hb. rewrite Hb. split; [reflexivity | lia].
  - assert (Hb : (r <? 1024) = false) by (apply Z.ltb_ge; lia).
    rewrite Hb. repeat split; lia.
Qed.

Lemma freqToBin_clamp_value_witness :
  (0 < 22050)%Q /\
  let r := round (22000 * inject_Z fftSize / 22050) in
  (r < fftSize / 2 ->
     freqToBin 22050 22000 = Bin r /\ specBin 22050 22000 = r) /\
  (fftSize / 2 <= r ->
     freqToBin 22050 22000 = Bin (fftSize - 1) /\
     specBin 22050 22000 = fftSize / 2 - 1 /\
     specBin 22050 22000 < fftSize - 1).
Proof.
  exact (conj (eq_refl : (0 < 22050)%Q)
              (freqToBin_clamp_value 22050 22000 eq_refl)).
Defined.

(** At 22 kHz with a sample rate of 22.05 kHz the code answers 2047 where
    the specification answers 1023. *)
Lemma freqToBin_above_nyquist :
  freqToBin 22050 22000 = Bin 2047 /\ specBin 22050 22000 = 1023.
Proof. split; vm_compute; reflexivity. Qed.

(** ** The bar loop on integers *)

Lemma binFitsInt_binOf (sr f : Q) :
  binFitsInt sr f -> freqToBin sr f = Bin (binOf sr f).
Proof. intros (z & Hz & _). unfold binOf. rewrite Hz. reflexivity. Qed.

Lemma toInt_Ok (b : binValue) (z : Z) :
  toInt b = Ok z <-> b = Bin z /\ intMin <= z <= intMax.
Proof.
  unfold toInt. split.
  - destruct b as [y|]; [|discriminate].
    destruct (Z.leb_spec intMin y) as [Hlo|Hlo],
      (Z.leb_spec y intMax) as [Hhi|Hhi]; simpl; try discriminate.
    intros E. injection E as <-. split; [reflexivity | lia].
  - intros [-> [Hlo Hhi]].
    apply Z.leb_le in Hlo, Hhi. rewrite Hlo, Hhi. reflexivity.
Qed.

(** The conversion has a result or is undefined: it never runs out of
    fuel. *)
Lemma toInt_cases (b : binValue) :
  (exists z, toInt b = Ok z) \/ toInt b = Undefined.
Proof.
  unfold toInt. destruct b as [y|]; [|right; reflexivity].
  destruct ((intMin <=? y) && (y <=? intMax)); [left; eauto | right; reflexivity].
Qed.

Lemma toInt_fits (sr f : Q) :
  binFitsInt sr f -> toInt (freqToBin sr f) = Ok (binOf sr f).
Proof.
  intros (z & Hz & Hrange). unfold binOf. rewrite Hz.
  apply toInt_Ok. split; [reflexivity | exact Hrange].
Qed.

Lemma binFitsInt_toInt (sr f : Q) (z : Z) :
  toInt (freqToBin sr f) = Ok z -> binFitsInt sr f.
Proof. intros H. apply toInt_Ok in H. exists z. exact H. Qed.

(** Whatever the sample rate, no bin is above [fftSize - 1]. *)
Lemma freqToBin_at_most (sr f : Q) (z : Z) :
  freqToBin sr f = Bin z -> z <= fftSize - 1.
Proof.
  pose proof fftSize_value as HN. unfold freqToBin.
  destruct (Qeq_bool sr 0).
  - destruct (Qltb _ 0); [discriminate|]. intros H. injection H as <-. lia.
  - destruct (Z.ltb_spec (round (f * inject_Z fftSize / sr)) (fftSize / 2))
      as [Hlt|_]; intros H; injection H as <-; [|lia].
    rewrite HN in *. change (2048 / 2) with 1024 in Hlt. lia.
Qed.

(** For a sample rate and a frequency that are not negative, the bin fits
    an [int]. *)
Lemma binFitsInt_nonneg (sr f : Q) :
  (0 <= sr)%Q -> (0 <= f)%Q -> binFitsInt sr f.
Proof.
  intros Hsr Hf. destruct (freqToBin_range sr f Hsr Hf) as (z & Hz & Hrange).
  exists z. split; [exact Hz|].
  pose proof fftSize_value as HN. unfold intMin, intMax. lia.
Qed.

Lemma barStep_finite (sr : Q) (index : Z) (f : Q) (next : option Q) (w : walk) :
  binFitsInt sr f ->
  (forall f', next = Some f' -> binFitsInt sr f') ->
  barStep sr index f next w =
    Ok (stepWalk index (binOf sr f)
          (nextPrevBin (binOf sr f) (binOf sr <$> option_list next)) w).
Proof.
  intros Hf Hnext. unfold barStep.
  rewrite (toInt_fits _ _ Hf). simpl.
  destruct next as [f'|]; simpl.
  - rewrite (toInt_fits _ _ (Hnext f' eq_refl)). simpl.
    unfold stepWalk. destruct (_ =? _); reflexivity.
  - unfold stepWalk. destruct (_ =? _); reflexivity.
Qed.

Lemma barStep_Ok (sr : Q) (index : Z) (f : Q) (next : option Q) (w w' : walk) :
  barStep sr index f next w = Ok w' ->
  binFitsInt sr f /\ (forall f', next = Some f' -> binFitsInt sr f').
Proof.
  unfold barStep. intros H. inv_bind H. rename a into bin.
  split; [exact (binFitsInt_toInt _ _ _ Hres)|].
  intros f' ->. simpl in H. inv_bind H. rename a into pb'.
  inv_bind Hres0. exact (binFitsInt_toInt _ _ _ Hres1).
Qed.

Lemma nextPrevBin_head (bin : Z) (sr : Q) (rest : list Q) :
  nextPrevBin bin (binOf sr <$> option_list (head rest)) =
  nextPrevBin bin (binOf sr <$> rest).
Proof. destruct rest; reflexivity. Qed.

Lemma barLoop_finite (sr : Q) (ts : list Q) : forall (index : Z) (w : walk),
  Forall (binFitsInt sr) ts ->
  barLoop sr index ts w = Ok (walkBins index (binOf sr <$> ts) w).
Proof.
  induction ts as [|f rest IH]; intros index w Hts; [reflexivity|].
  apply Forall_cons in Hts as [Hf Hrest]. simpl.
  rewrite (barStep_finite sr index f (head rest) w Hf).
  - simpl. rewrite nextPrevBin_head. apply IH, Hrest.
  - intros f' Hhead. destruct rest as [|g rest']; [discriminate|].
    simpl in Hhead. injection Hhead as ->.
    apply Forall_cons in Hrest as [Hg _]. exact Hg.
Qed.

Lemma barLoop_Ok (sr : Q) (ts : list Q) : forall (index : Z) (w w' : walk),
  barLoop sr index ts w = Ok w' -> Forall (binFitsInt sr) ts.
Proof.
  induction ts as [|f rest IH]; intros index w w' H; [constructor|].
  simpl in H. inv_bind H.
  apply barStep_Ok in Hres as [Hf _].
  constructor; [exact Hf | eapply IH, H].
Qed.

Lemma alter_setFactor_shape (f : Q) (bs : list Bar) : forall k : nat,
  shape <$> alter (setFactor f) k bs = shape <$> bs.
Proof.
  induction bs as [|b bs IH]; intros [|k]; simpl; try reflexivity.
  f_equal. apply IH.
Qed.

Lemma factorLoop_shape (count : nat) : forall (i n : Z) (bs : list Bar),
  shape <$> factorLoop count i n bs = shape <$> bs.
Proof.
  induction count as [|c IH]; intros i n bs; simpl; [reflexivity|].
  rewrite IH. apply alter_setFactor_shape.
Qed.

Lemma factorLoop_length (count : nat) : forall (i n : Z) (bs : list Bar),
  length (factorLoop count i n bs) = length bs.
Proof.
  induction count as [|c IH]; intros i n bs; simpl; [reflexivity|].
  rewrite IH. apply length_alter.
Qed.

Lemma stepWalk_shape (index bin pb' : Z) (w : walk) :
  shape <$> bars (stepWalk index bin pb' w) =
  (shape <$> bars w) ++
    [(index, startIdx (prevBin w) bin,
      if 0 <? pb' - startIdx (prevBin w) bin then pb' else 0)].
Proof.
  unfold stepWalk; simpl. rewrite fmap_app. f_equal.
  destruct (_ =? _); [reflexivity|].
  destruct (1 <? nBars w); [apply factorLoop_shape | reflexivity].
Qed.

Lemma walkBins_shape (bins : list Z) : forall (index : Z) (w : walk),
  shape <$> bars (walkBins index bins w) =
  (shape <$> bars w) ++ shapes index (prevBin w) bins.
Proof.
  induction bins as [|bin rest IH]; intros index w; simpl.
  - rewrite app_nil_r. reflexivity.
  - rewrite IH, stepWalk_shape, <- app_assoc. reflexivity.
Qed.

Lemma shapes_length (bins : list Z) : forall index pb : Z,
  length (shapes index pb bins) = length bins.
Proof.
  induction bins as [|bin rest IH]; intros index pb; simpl; [|rewrite IH];
    reflexivity.
Qed.

Lemma startIdx_le (pb bin : Z) : startIdx pb bin <= bin.
Proof.
  unfold startIdx.
  destruct (0 <? pb) eqn:E1, (pb + 1 <=? bin) eqn:E2; simpl; lia.
Qed.

Lemma extend_bounds (bin nextBin : Z) :
  bin <= nextBin -> bin <= extend bin nextBin <= nextBin.
Proof.
  intros H. unfold extend.
  destruct (Z.ltb_spec 1 (nextBin - bin)) as [Hd|Hd]; [|lia].
  pose proof (round_half _ Hd). lia.
Qed.

Lemma extend_range (lo hi bin nextBin : Z) :
  lo <= bin <= hi -> lo <= nextBin <= hi -> lo <= extend bin nextBin <= hi.
Proof.
  intros Hb Hn. unfold extend.
  destruct (Z.ltb_spec 1 (nextBin - bin)) as [Hd|Hd]; [|lia].
  pose proof (round_half _ Hd). lia.
Qed.

(** The bar at position [k]: where it is drawn and which bin it starts
    from, for the first bar and for the later ones. *)
Lemma shapes_lookup (bins : list Z) : forall (index pb : Z) (k : nat) s,
  shapes index pb bins !! k = Some s ->
  exists bin, bins !! k = Some bin /\
    s.1.1 = index + Z.of_nat k /\
    s.1.2 <= bin /\
    (exists p, s.1.2 = startIdx p bin) /\
    (k = 0%nat -> s.1.2 = startIdx pb bin) /\
    (forall j b0, k = S j -> bins !! j = Some b0 ->
       s.1.2 = startIdx (extend b0 bin) bin) /\
    (s.2 = 0 \/ s.1.2 < s.2 /\
       s.2 = nextPrevBin bin (drop (S k) bins)).
Proof.
  induction bins as [|bin rest IH]; intros index pb k s Hk; [discriminate|].
  destruct k as [|k]; simpl in Hk.
  - injection Hk as <-. exists bin. simpl. split_and!.
    + reflexivity.
    + lia.
    + apply startIdx_le.
    + eauto.
    + reflexivity.
    + intros j b0 Hj. discriminate Hj.
    + destruct (Z.ltb_spec 0 (nextPrevBin bin rest - startIdx pb bin));
        [right; split; [lia | reflexivity] | left; reflexivity].
  - destruct (IH _ _ _ _ Hk) as (b & Hb & Hp & Hle & Hex & H0 & HS & Hend).
    exists b. simpl. split_and!; try assumption.
    + lia.
    + intros Hk0. discriminate Hk0.
    + intros j b0 Hj Hb0. injection Hj as <-.
      destruct k as [|k'].
      * simpl in Hb0. injection Hb0 as ->.
        rewrite (H0 eq_refl). destruct rest as [|r rest']; [discriminate|].
        simpl in Hb. injection Hb as ->. reflexivity.
      * apply (HS k' b0 eq_refl). exact Hb0.
Qed.

(** ** The tempered scale *)

Lemma increasingFrom_weaken (js : list Z) (i i' : Z) :
  i' <= i -> increasingFrom i js -> increasingFrom i' js.
Proof. destruct js; simpl; [auto|]. intros ? [? ?]. split; [lia|auto]. Qed.

Section Scale.

Variable pow : Q -> Q -> Q.

(** What the first loop appends does not depend on what the vector
    holds already: the frequencies [noteFreq j] for increasing [j], each
    within the band and with [j] a multiple of the stride. *)
Lemma scaleLoop_appends (lo hi : Q) (g : Z) (fuel : nat) :
  forall (i : Z) (ts ts' : list Q),
  scaleLoop pow fuel lo hi g i ts = Ok ts' ->
  exists js : list Z,
    ts' = ts ++ (noteFreq pow <$> js) /\
    increasingFrom i js /\
    Forall (fun j => (lo <= noteFreq pow j)%Q /\ (noteFreq pow j <= hi)%Q /\
                     Z.rem j g = 0) js /\
    forall ts2, scaleLoop pow fuel lo hi g i ts2 = Ok (ts2 ++ (noteFreq pow <$> js)).
Proof.
  induction fuel as [|fuel IH]; intros i ts ts' H; [discriminate|].
  simpl in H.
  destruct (Qle_bool (noteFreq pow i) hi) eqn:Ehi.
  - destruct (Qle_bool lo (noteFreq pow i)) eqn:Elo.
    + destruct (g =? 0) eqn:Eg; [discriminate|].
      destruct (Z.rem i g =? 0) eqn:Erem.
      * destruct (IH _ _ _ H) as (js & -> & Hinc & Hall & Hany).
        exists (i :: js). split_and!.
        -- simpl. rewrite <- app_assoc. reflexivity.
        -- simpl. split; [lia | exact Hinc].
        -- constructor; [|exact Hall].
           split_and!; [apply Qle_bool_iff, Elo | apply Qle_bool_iff, Ehi
                       | apply Z.eqb_eq, Erem].
        -- intros ts2. simpl. rewrite Ehi, Elo, Eg, Erem, Hany.
           rewrite <- app_assoc. reflexivity.
      * destruct (IH _ _ _ H) as (js & -> & Hinc & Hall & Hany).
        exists js. split_and!; [reflexivity | | exact Hall |].
        -- apply (increasingFrom_weaken js (i + 1)); [lia | exact Hinc].
        -- intros ts2. simpl. rewrite Ehi, Elo, Eg, Erem. apply Hany.
    + destruct (IH _ _ _ H) as (js & -> & Hinc & Hall & Hany).
      exists js. split_and!; [reflexivity | | exact Hall |].
      * apply (increasingFrom_weaken js (i + 1)); [lia | exact Hinc].
      * intros ts2. simpl. rewrite Ehi, Elo. apply Hany.
  - injection H as <-. exists []. split_and!.
    + rewrite app_nil_r. reflexivity.
    + exact I.
    + constructor.
    + intros ts2. simpl. rewrite Ehi, app_nil_r. reflexivity.
Qed.

(** The loop ends once a note above the band is reached, provided the
    stride is not zero. *)
Lemma scaleLoop_terminates (lo hi : Q) (g : Z) (n : Z) :
  g <> 0 -> (hi < noteFreq pow n)%Q ->
  forall (d : nat) (i : Z) (ts : list Q),
    i <= n -> n - i <= Z.of_nat d ->
    exists ts', scaleLoop pow (S d) lo hi g i ts = Ok ts'.
Proof.
  intros Hg Hn. apply Z.eqb_neq in Hg.
  induction d as [|d IH]; intros i ts Hle Hd.
  - assert (i = n) as -> by lia. simpl.
    destruct (Qle_bool (noteFreq pow n) hi) eqn:Ehi; [|eauto].
    apply Qle_bool_iff in Ehi. exfalso. exact (Qlt_not_le _ _ Hn Ehi).
  - remember (S d) as fuel. simpl.
    destruct (Qle_bool (noteFreq pow i) hi) eqn:Ehi; [|eauto].
    assert (Hi : i + 1 <= n /\ n - (i + 1) <= Z.of_nat d).
    { apply Qle_bool_iff in Ehi.
      destruct (Z.eq_dec i n) as [->|Hne];
        [exfalso; exact (Qlt_not_le _ _ Hn Ehi) | lia]. }
    rewrite Hg. subst fuel.
    destruct (Qle_bool lo (noteFreq pow i)); apply IH; apply Hi.
Qed.

Lemma increasingFrom_lookup (js : list Z) : forall (i : Z) (k : nat) (a b : Z),
  increasingFrom i js ->
  js !! k = Some a -> js !! S k = Some b -> i <= a /\ a < b.
Proof.
  induction js as [|j js IH]; intros i k a b Hinc Ha Hb; [discriminate|].
  destruct Hinc as [Hij Hinc]. destruct k as [|k]; simpl in Ha, Hb.
  - injection Ha as <-. destruct js as [|j' js']; [discriminate|].
    simpl in Hb. injection Hb as <-. destruct Hinc. lia.
  - destruct (IH _ _ _ _ Hinc Ha Hb). lia.
Qed.

(** What a call of [buildTemperedScale] that returns has done. *)
Lemma buildTemperedScale_Ok (fuel : nat) (g : Z) (st st' : MainComponent) :
  buildTemperedScale pow fuel g st = Ok st' ->
  exists js : list Z,
    let ts := temperedScale st ++ (noteFreq pow <$> js) in
    scaleLoop pow fuel (minFreq st) (maxFreq st) g 0 (temperedScale st) = Ok ts /\
    increasingFrom 0 js /\
    Forall (fun j => (minFreq st <= noteFreq pow j)%Q /\
                     (noteFreq pow j <= maxFreq st)%Q /\ Z.rem j g = 0) js /\
    Forall (binFitsInt (_sampleRate st)) ts /\
    temperedScale st' = ts /\
    allBars st' =
      bars (walkBins 0 (binOf (_sampleRate st) <$> ts) (walk0 (allBars st))) /\
    _sampleRate st' = _sampleRate st /\
    minFreq st' = minFreq st /\
    maxFreq st' = maxFreq st /\
    fftData st' = fftData st.
Proof.
  unfold buildTemperedScale. intros H.
  inv_bind H. rename a into ts. inv_bind H. rename a into w.
  injection H as <-. simpl.
  destruct (scaleLoop_appends _ _ _ _ _ _ _ Hres) as (js & -> & Hinc & Hall & _).
  exists js. pose proof (barLoop_Ok _ _ _ _ _ Hres0) as Hfin.
  rewrite (barLoop_finite _ _ _ _ Hfin) in Hres0. injection Hres0 as <-.
  split_and!; auto.
Qed.

(** Nothing in the call looks at the validity of the configuration: it
    returns whenever the first loop does and the bin of every frequency
    fits an [int]. *)
Lemma buildTemperedScale_returns (fuel : nat) (g : Z) (st : MainComponent)
    (ts : list Q) :
  scaleLoop pow fuel (minFreq st) (maxFreq st) g 0 (temperedScale st) = Ok ts ->
  Forall (binFitsInt (_sampleRate st)) ts ->
  exists st', buildTemperedScale pow fuel g st = Ok st'.
Proof.
  intros Hscale Hfin. unfold buildTemperedScale.
  rewrite Hscale. simpl. rewrite (barLoop_finite _ _ _ _ Hfin). simpl. eauto.
Qed.

End Scale.

(** ** The table that a call leaves *)

Lemma walkBins_length (bins : list Z) (index : Z) (w : walk) :
  length (bars (walkBins index bins w)) = (length (bars w) + length bins)%nat.
Proof.
  rewrite <- (length_fmap shape), walkBins_shape, length_app, length_fmap,
    shapes_length.
  reflexivity.
Qed.

Lemma walkBins_lookup_shape (bins : list Z) (index : Z) (w : walk)
    (k : nat) (b : Bar) :
  bars (walkBins index bins w) !! (length (bars w) + k)%nat = Some b ->
  shapes index (prevBin w) bins !! k = Some (shape b).
Proof.
  intros Hb.
  assert (H : (shape <$> bars (walkBins index bins w))
                !! (length (bars w) + k)%nat = Some (shape b))
    by (rewrite list_lookup_fmap, Hb; reflexivity).
  rewrite walkBins_shape, lookup_app_r in H by (rewrite length_fmap; lia).
  rewrite length_fmap in H.
  replace (length (bars w) + k - length (bars w))%nat with k in H by lia.
  exact H.
Qed.

Lemma startIdx_nonneg (pb bin : Z) : 0 <= bin -> 0 <= startIdx pb bin.
Proof.
  unfold startIdx. destruct (Z.ltb_spec 0 pb), (pb + 1 <=? bin); simpl; lia.
Qed.

Lemma startIdx_after_extend (i b0 b1 : Z) :
  i <= b0 -> b0 <= b1 -> i <= startIdx (extend b0 b1) b1.
Proof.
  intros Hi Hb. pose proof (extend_bounds b0 b1 Hb).
  unfold startIdx.
  destruct (0 <? extend b0 b1), (extend b0 b1 + 1 <=? b1); simpl; lia.
Qed.

Lemma nextPrevBin_range (hi bin : Z) (rest : list Z) :
  0 <= bin <= hi -> Forall (fun z => 0 <= z <= hi) rest ->
  0 <= nextPrevBin bin rest <= hi.
Proof.
  intros Hb Hrest. destruct rest as [|nb rest]; simpl; [exact Hb|].
  apply Forall_cons in Hrest as [Hnb _]. apply extend_range; assumption.
Qed.

(** ** The runnable instance *)

Lemma fixpow_S (b : Z) (n : nat) :
  Approx.fixpow b (S n) = Z.shiftr (Approx.fixpow b n * b) 40.
Proof. reflexivity. Qed.

Lemma fixpow_grows (b : Z) (n : nat) :
  Approx.one <= b ->
  0 < Approx.fixpow b n /\ Approx.fixpow b n <= Approx.fixpow b (S n).
Proof.
  intros Hb. change Approx.one with 1099511627776 in Hb.
  assert (Hstep : forall m, 0 < m -> m <= Z.shiftr (m * b) 40).
  { intros m Hm. rewrite Z.shiftr_div_pow2 by lia.
    change (2 ^ 40) with 1099511627776.
    apply Z.div_le_lower_bound; nia. }
  induction n as [|n [IHpos IHle]].
  - split; [reflexivity|]. rewrite fixpow_S. apply Hstep. reflexivity.
  - split; [lia|]. rewrite (fixpow_S b (S n)). apply Hstep. lia.
Qed.

Lemma fixpow_mono (b : Z) (n m : nat) :
  Approx.one <= b -> (n <= m)%nat -> Approx.fixpow b n <= Approx.fixpow b m.
Proof.
  intros Hb Hnm. induction Hnm as [|m Hnm IH]; [lia|].
  pose proof (fixpow_grows b m Hb). lia.
Qed.

Lemma approx_noteFreq_mono (i j : Z) :
  0 <= i <= j -> (noteFreq Approx.pow i <= noteFreq Approx.pow j)%Q.
Proof.
  intros Hij. unfold noteFreq.
  rewrite !(Qmult_comm (c0 Approx.pow)).
  apply Qmult_le_compat_r; [|vm_compute; discriminate].
  unfold Approx.pow. simpl.
  destruct (Z.leb_spec 0 i), (Z.leb_spec 0 j); try lia.
  unfold Approx.toQ, Qle; simpl.
  apply Z.mul_le_mono_nonneg_r; [lia|].
  apply fixpow_mono; [vm_compute; discriminate | lia].
Qed.

Lemma built_44100 :
  buildTemperedScale Approx.pow 300 2 Approx.fresh = Ok Approx.at44100.
Proof. vm_compute; reflexivity. Qed.

Lemma built_22050 :
  buildTemperedScale Approx.pow 300 2 (prepareToPlay 22050 Approx.fresh)
    = Ok Approx.at22050.
Proof. vm_compute; reflexivity. Qed.

Lemma built_negative :
  buildTemperedScale Approx.pow 300 2 (prepareToPlay (-44100) Approx.fresh)
    = Ok Approx.atNegative.
Proof. vm_compute; reflexivity. Qed.

Lemma built_44100_freq (k : nat) :
  (k < 121)%nat ->
  temperedScale Approx.at44100 !! k
    = Some (Approx.freqAt Approx.at44100 k).
Proof.
  intros Hk. unfold Approx.freqAt.
  destruct (temperedScale Approx.at44100 !! k) eqn:E; [reflexivity|].
  apply lookup_ge_None in E.
  assert (L : length (temperedScale Approx.at44100) = 121%nat)
    by (vm_compute; reflexivity).
  lia.
Qed.

Lemma built_44100_bar (k : nat) :
  (k < 121)%nat ->
  allBars Approx.at44100 !! k
    = Some (Approx.barAt Approx.at44100 k).
Proof.
  intros Hk. unfold Approx.barAt.
  destruct (allBars Approx.at44100 !! k) eqn:E; [reflexivity|].
  apply lookup_ge_None in E.
  assert (L : length (allBars Approx.at44100) = 121%nat)
    by (vm_compute; reflexivity).
  lia.
Qed.

(** ** Positions and starting bins *)

Section Table.

Variable pow : Q -> Q -> Q.

(** The bar appended at offset [k] by a call that returns, seen through
    the list of own bins of the whole scale. *)
Lemma build_bar_shape (fuel : nat) (g : Z) (st st' : MainComponent)
    (k : nat) (b : Bar) :
  buildTemperedScale pow fuel g st = Ok st' ->
  allBars st' !! (length (allBars st) + k)%nat = Some b ->
  shapes 0 0 (binOf (_sampleRate st) <$> temperedScale st') !! k
    = Some (shape b).
Proof.
  intros Hbuild Hb.
  destruct (buildTemperedScale_Ok pow _ _ _ _ Hbuild)
    as (js & _ & _ & _ & _ & Hts & Hbars & _).
  rewrite Hts. rewrite Hbars in Hb.
  apply (walkBins_lookup_shape _ 0 (walk0 (allBars st))). exact Hb.
Qed.

Lemma build_length (fuel : nat) (g : Z) (st st' : MainComponent) :
  buildTemperedScale pow fuel g st = Ok st' ->
  length (allBars st') =
    (length (allBars st) + length (temperedScale st'))%nat.
Proof.
  intros Hbuild.
  destruct (buildTemperedScale_Ok pow _ _ _ _ Hbuild)
    as (js & _ & _ & _ & _ & Hts & Hbars & _).
  rewrite Hbars, walkBins_length, length_fmap, Hts. reflexivity.
Qed.

(** C8.  For a positive sample rate (and a [pow] under which the notes
    do not decrease), the table built on the empty vectors has one bar per
    entry of the scale, the bar at position [k] carries [posX = k], and
    the starting bins do not decrease along the table. *)
Theorem positions_and_bins_ordered (fuel : nat) (g : Z)
    (st st' : MainComponent) :
  (0 < _sampleRate st)%Q ->
  (forall i j, 0 <= i <= j -> (noteFreq pow i <= noteFreq pow j)%Q) ->
  temperedScale st = [] ->
  allBars st = [] ->
  buildTemperedScale pow fuel g st = Ok st' ->
  length (allBars st') = length (temperedScale st') /\
  (forall (k : nat) (b : Bar),
     allBars st' !! k = Some b -> posX b = Z.of_nat k) /\
  (forall (k : nat) (b b' : Bar),
     allBars st' !! k = Some b -> allBars st' !! S k = Some b' ->
     dataIdx b <= dataIdx b').
Proof.
  intros Hsr Hmono Hts0 Hbars0 Hbuild.
  pose proof (build_length _ _ _ _ Hbuild) as Hlen.
  rewrite Hbars0 in Hlen. simpl in Hlen.
  assert (Hshape : forall k b, allBars st' !! k = Some b ->
            shapes 0 0 (binOf (_sampleRate st) <$> temperedScale st') !! k
              = Some (shape b)).
  { intros k b Hb. apply (build_bar_shape fuel g st st' k b Hbuild).
    rewrite Hbars0. exact Hb. }
  split_and!; [exact Hlen | |].
  - intros k b Hb.
    destruct (shapes_lookup _ _ _ _ _ (Hshape k b Hb)) as (_ & _ & Hp & _).
    simpl in Hp. lia.
  - intros k b b' Hb Hb'.
    destruct (shapes_lookup _ _ _ _ _ (Hshape k b Hb))
      as (b0 & Hb0 & _ & Hle & _).
    destruct (shapes_lookup _ _ _ _ _ (Hshape (S k) b' Hb'))
      as (b1 & Hb1 & _ & _ & _ & _ & HS & _).
    simpl in *. rewrite (HS k b0 eq_refl Hb0).
    apply startIdx_after_extend; [exact Hle|].
    destruct (buildTemperedScale_Ok pow _ _ _ _ Hbuild)
      as (js & _ & Hinc & _ & _ & Hts & _).
    rewrite Hts0 in Hts. simpl in Hts. rewrite Hts in Hb0, Hb1.
    rewrite !list_lookup_fmap in Hb0, Hb1.
    destruct (js !! k) as [a|] eqn:Ha; [|discriminate].
    destruct (js !! S k) as [a'|] eqn:Ha'; [|discriminate].
    simpl in Hb0, Hb1. injection Hb0 as <-. injection Hb1 as <-.
    destruct (increasingFrom_lookup js 0 k a a' Hinc Ha Ha').
    apply binOf_mono; [exact Hsr | apply Hmono; lia].
Qed.

(** C4, as the code has it.  For every bar after the first, with
    [prevBin] the previous bar's own bin advanced by half the gap to this
    bar's own bin: when [prevBin] is positive and this bar's own bin is at
    least [prevBin + 1], the bar starts at [prevBin + 1]; otherwise it
    starts at its own bin. *)
Theorem start_from_last_used_bin (fuel : nat) (g : Z)
    (st st' : MainComponent) (k : nat) (b : Bar) (f0 f1 : Q)
    (bin0 bin1 : Z) :
  buildTemperedScale pow fuel g st = Ok st' ->
  temperedScale st' !! k = Some f0 ->
  temperedScale st' !! S k = Some f1 ->
  allBars st' !! (length (allBars st) + S k)%nat = Some b ->
  freqToBin (_sampleRate st) f0 = Bin bin0 ->
  freqToBin (_sampleRate st) f1 = Bin bin1 ->
  let prevBin := extend bin0 bin1 in
  (0 < prevBin /\ prevBin + 1 <= bin1 -> dataIdx b = prevBin + 1) /\
  (~ (0 < prevBin /\ prevBin + 1 <= bin1) -> dataIdx b = bin1).
Proof.
  intros Hbuild Hf0 Hf1 Hb Hbin0 Hbin1 prevBin.
  pose proof (build_bar_shape _ _ _ _ _ _ Hbuild Hb) as Hs.
  destruct (shapes_lookup _ _ _ _ _ Hs) as (b1 & Hb1 & _ & _ & _ & _ & HS & _).
  rewrite list_lookup_fmap, Hf1 in Hb1. simpl in Hb1.
  unfold binOf in Hb1. rewrite Hbin1 in Hb1. injection Hb1 as <-.
  assert (Hb0 : (binOf (_sampleRate st) <$> temperedScale st') !! k
                = Some bin0).
  { rewrite list_lookup_fmap, Hf0. simpl. unfold binOf. rewrite Hbin0.
    reflexivity. }
  specialize (HS k bin0 eq_refl Hb0). simpl in HS. rewrite HS.
  fold prevBin. unfold startIdx.
  destruct (Z.ltb_spec 0 prevBin), (Z.leb_spec (prevBin + 1) bin1);
    simpl; split; intros; lia.
Qed.

End Table.

Lemma built_44100_bin0 :
  freqToBin (_sampleRate Approx.fresh) (Approx.freqAt Approx.at44100 0)
    = Bin 1.
Proof. vm_compute; reflexivity. Qed.

Lemma built_44100_bin1 :
  freqToBin (_sampleRate Approx.fresh) (Approx.freqAt Approx.at44100 1)
    = Bin 1.
Proof. vm_compute; reflexivity. Qed.

Lemma start_from_last_used_bin_witness :
  let prevBin := extend 1 1 in
  (0 < prevBin /\ prevBin + 1 <= 1 ->
     dataIdx (Approx.barAt Approx.at44100 1) = prevBin + 1) /\
  (~ (0 < prevBin /\ prevBin + 1 <= 1) ->
     dataIdx (Approx.barAt Approx.at44100 1) = 1).
Proof.
  exact (start_from_last_used_bin Approx.pow 300 2 Approx.fresh
           Approx.at44100 0 (Approx.barAt Approx.at44100 1)
           (Approx.freqAt Approx.at44100 0)
           (Approx.freqAt Approx.at44100 1) 1 1
           built_44100
           (built_44100_freq 0 ltac:(lia)) (built_44100_freq 1 ltac:(lia))
           (built_44100_bar 1 ltac:(lia))
           built_44100_bin0 built_44100_bin1).
Defined.

Lemma positions_and_bins_ordered_witness :
  (0 < _sampleRate Approx.fresh)%Q /\
  (length (allBars Approx.at44100) = length (temperedScale Approx.at44100) /\
   (forall (k : nat) (b : Bar),
      allBars Approx.at44100 !! k = Some b -> posX b = Z.of_nat k) /\
   (forall (k : nat) (b b' : Bar),
      allBars Approx.at44100 !! k = Some b ->
      allBars Approx.at44100 !! S k = Some b' ->
      dataIdx b <= dataIdx b')).
Proof.
  exact (conj eq_refl
           (positions_and_bins_ordered Approx.pow 300 2 Approx.fresh
              Approx.at44100 eq_refl approx_noteFreq_mono eq_refl eq_refl
              built_44100)).
Defined.

(** C4, as the specification words it, fails on the table built at
    44.1 kHz: the second bar has the own bin 1 and [prevBin] is 1, so the
    wording asks for the starting bin 2, and the code starts the bar at 1. *)
Lemma start_rule_as_worded_fails :
  buildTemperedScale Approx.pow 300 2 Approx.fresh = Ok Approx.at44100 /\
  ~ (forall (k : nat) (b : Bar) (f0 f1 : Q),
       temperedScale Approx.at44100 !! k = Some f0 ->
       temperedScale Approx.at44100 !! S k = Some f1 ->
       allBars Approx.at44100 !! S k = Some b ->
       dataIdx b =
         specStartIdx (extend (binOf 44100 f0) (binOf 44100 f1))
           (binOf 44100 f1)).
Proof.
  split; [exact built_44100|]. intros H.
  specialize (H 0%nat _ _ _ (built_44100_freq 0 ltac:(lia))
                (built_44100_freq 1 ltac:(lia))
                (built_44100_bar 1 ltac:(lia))).
  revert H. vm_compute. intros H. discriminate H.
Qed.

(** ** Reads of the spectrum buffer *)

Section Reads.

Variable pow : Q -> Q -> Q.
Variable log10 : Q -> Q.

Lemma readFft_Ok (data : list Q) (i : Z) :
  0 <= i < Z.of_nat (length data) -> exists x, readFft data i = Ok x.
Proof.
  intros Hi. unfold readFft.
  destruct (Z.leb_spec 0 i); [|lia].
  destruct (lookup_lt_is_Some_2 data (Z.to_nat i)) as [x Hx]; [lia|].
  rewrite Hx. eauto.
Qed.

Lemma getLevel_Ok (data : list Q) (i : Z) (h : Q) :
  0 <= i < Z.of_nat (length data) -> exists y, getLevel log10 data i h = Ok y.
Proof.
  intros Hi. unfold getLevel.
  destruct (readFft_Ok data i Hi) as [x ->]. simpl. eauto.
Qed.

Lemma peakLoop_Ok (data : list Q) (h : Q) (count : nat) :
  forall (j : Z) (acc : Q),
  0 <= j -> j + Z.of_nat count <= Z.of_nat (length data) ->
  exists y, peakLoop log10 count data h j acc = Ok y.
Proof.
  induction count as [|count IH]; intros j acc Hj Hend; simpl; [eauto|].
  destruct (readFft_Ok data j) as [x Hx]; [lia|]. rewrite Hx. simpl.
  destruct (Qltb acc x).
  - destruct (getLevel_Ok data j h) as [y ->]; [lia|]. simpl.
    apply IH; lia.
  - simpl. apply IH; lia.
Qed.

Lemma barHeightOf_Ok (data : list Q) (h : Q) (bar : Bar) :
  0 <= dataIdx bar < Z.of_nat (length data) ->
  0 <= endIdx bar < Z.of_nat (length data) ->
  exists y, barHeightOf log10 data h bar = Ok y.
Proof.
  intros Hd He. unfold barHeightOf.
  destruct (endIdx bar =? 0).
  - destruct (getLevel_Ok data (dataIdx bar) h Hd) as [y ->]. simpl.
    destruct (Qltb 0 (factor bar)); [|eauto].
    destruct (Z.ltb_spec 0 (dataIdx bar)); [|simpl; eauto].
    destruct (getLevel_Ok data (dataIdx bar - 1) h) as [z ->]; [lia|].
    simpl. eauto.
  - apply peakLoop_Ok; lia.
Qed.

Lemma frameHeights_Ok (data : list Q) (h : Q) (bs : list Bar) :
  Forall (fun b => 0 <= dataIdx b < Z.of_nat (length data) /\
                   0 <= endIdx b < Z.of_nat (length data)) bs ->
  exists hs, frameHeights log10 data h bs = Ok hs.
Proof.
  induction 1 as [|b bs [Hd He] _ [hs IH]]; simpl; [eauto|].
  destruct (barHeightOf_Ok data h b Hd He) as [y ->]. simpl.
  rewrite IH. simpl. eauto.
Qed.

(** Every bar appended by a call stays within [0, fftSize - 1] when the
    sample rate and the frequencies of the scale are not negative. *)
Lemma build_bar_range (fuel : nat) (g : Z) (st st' : MainComponent) :
  (0 <= _sampleRate st)%Q ->
  (0 <= minFreq st)%Q ->
  temperedScale st = [] ->
  allBars st = [] ->
  buildTemperedScale pow fuel g st = Ok st' ->
  Forall (fun b => 0 <= dataIdx b <= fftSize - 1 /\
                   0 <= endIdx b <= fftSize - 1) (allBars st').
Proof.
  intros Hsr Hmin Hts0 Hbars0 Hbuild.
  destruct (buildTemperedScale_Ok pow _ _ _ _ Hbuild)
    as (js & _ & _ & Hall & _ & Hts & _).
  rewrite Hts0 in Hts. simpl in Hts.
  assert (Hbins : Forall (fun z => 0 <= z <= fftSize - 1)
                    (binOf (_sampleRate st) <$> temperedScale st')).
  { rewrite Hts. apply Forall_fmap, Forall_fmap.
    apply (Forall_impl _ _ _ Hall). intros j (Hlo & _ & _). simpl.
    destruct (freqToBin_range (_sampleRate st) (noteFreq pow j) Hsr)
      as (z & Hz & Hrange); [apply Qle_trans with (minFreq st); assumption|].
    unfold binOf. rewrite Hz. exact Hrange. }
  apply Forall_lookup_2. intros k b Hb.
  assert (Hs := build_bar_shape pow fuel g st st' k b Hbuild).
  rewrite Hbars0 in Hs. specialize (Hs Hb).
  destruct (shapes_lookup _ _ _ _ _ Hs)
    as (bin & Hbin & _ & Hle & (p & Hp) & _ & _ & Hend).
  simpl in *.
  pose proof (Forall_lookup_1 _ _ _ _ Hbins Hbin) as Hrange.
  simpl in Hrange.
  pose proof (startIdx_nonneg p bin ltac:(lia)) as Hnn.
  split; [lia|].
  destruct Hend as [-> | [Hlt ->]].
  - pose proof fftSize_value. lia.
  - apply nextPrevBin_range; [exact Hrange | apply Forall_drop, Hbins].
Qed.

Lemma increasingFrom_ge (js : list Z) : forall i : Z,
  increasingFrom i js -> Forall (fun j => i <= j) js.
Proof.
  induction js as [|j js IH]; intros i H; [constructor|].
  destruct H as [Hij H]. constructor; [exact Hij|].
  apply (Forall_impl _ _ _ (IH _ H)). intros k Hk. simpl in Hk. lia.
Qed.

Lemma shapes_in_buffer (hi : Z) (bins : list Z) (index pb : Z)
    (s : Z * Z * Z) :
  0 <= hi ->
  Forall (fun z => 0 <= z <= hi) bins ->
  s ∈ shapes index pb bins ->
  0 <= s.1.2 <= hi /\ 0 <= s.2 <= hi.
Proof.
  intros Hhi Hbins Hs. apply list_elem_of_lookup_1 in Hs as [k Hk].
  destruct (shapes_lookup _ _ _ _ _ Hk)
    as (bin & Hbin & _ & Hle & (p & Hp) & _ & _ & Hend).
  pose proof (Forall_lookup_1 _ _ _ _ Hbins Hbin) as Hrange.
  simpl in Hrange.
  pose proof (startIdx_nonneg p bin ltac:(lia)) as Hnn.
  split; [lia|].
  destruct Hend as [-> | [Hlt ->]]; [lia|].
  apply nextPrevBin_range; [exact Hrange | apply Forall_drop, Hbins].
Qed.

(** What every call at a sample rate that is not negative maintains: the
    scale holds no negative frequency and the table no bin outside
    [0, fftSize - 1].  Both hold of the empty vectors. *)
Lemma build_in_buffer (fuel : nat) (g : Z) (st st' : MainComponent) :
  (forall i : Z, 0 <= i -> (0 <= noteFreq pow i)%Q) ->
  (0 <= _sampleRate st)%Q ->
  Forall (Qle 0) (temperedScale st) ->
  Forall (fun b => 0 <= dataIdx b <= fftSize - 1 /\
                   0 <= endIdx b <= fftSize - 1) (allBars st) ->
  buildTemperedScale pow fuel g st = Ok st' ->
  Forall (Qle 0) (temperedScale st') /\
  Forall (fun b => 0 <= dataIdx b <= fftSize - 1 /\
                   0 <= endIdx b <= fftSize - 1) (allBars st').
Proof.
  intros Hnotes Hsr Hold Hbars Hbuild. pose proof fftSize_value as HN.
  destruct (buildTemperedScale_Ok pow _ _ _ _ Hbuild)
    as (js & _ & Hinc & _ & _ & Hts & Hb & _).
  simpl in Hts, Hb. rewrite <- Hts in Hb.
  assert (Hscale : Forall (Qle 0) (temperedScale st')).
  { rewrite Hts. apply Forall_app. split; [exact Hold|].
    apply Forall_fmap.
    apply (Forall_impl _ _ _ (increasingFrom_ge _ _ Hinc)).
    intros j Hj. apply Hnotes, Hj. }
  split; [exact Hscale|].
  assert (Hbins : Forall (fun z => 0 <= z <= fftSize - 1)
                    (binOf (_sampleRate st) <$> temperedScale st')).
  { apply Forall_fmap. apply (Forall_impl _ _ _ Hscale). intros f Hf. simpl.
    destruct (freqToBin_range _ f Hsr Hf) as (z & Hz & Hr).
    unfold binOf. rewrite Hz. exact Hr. }
  apply Forall_forall. intros b Hin.
  assert (Hshape : shape b ∈ shape <$> allBars st')
    by (apply list_elem_of_fmap_2, Hin).
  rewrite Hb, walkBins_shape in Hshape. simpl in Hshape.
  apply elem_of_app in Hshape as [Hs | Hs].
  - apply list_elem_of_fmap in Hs as (b0 & Hb0 & Hin0).
    pose proof (proj1 (Forall_forall _ _) Hbars b0 Hin0) as Hr.
    unfold shape in Hb0. injection Hb0 as _ -> ->. exact Hr.
  - destruct (shapes_in_buffer (fftSize - 1) _ _ _ _ ltac:(lia) Hbins Hs)
      as [Hd He].
    split; assumption.
Qed.

(** C10, as the code has it.  The notes being what they are for the C
    library's [pow], none of them negative, a call at a sample rate that is
    not negative keeps the whole table inside the buffer: if the scale holds
    no negative frequency and the table no bin outside [0, fftSize - 1]
    before the call, as is the case for the empty vectors of a new object
    and after every such call, then the same holds after it, for the bars
    already there and for the ones appended, and painting reads the spectrum
    buffer inside its [2 * fftSize] elements only. *)
Theorem bins_inside_buffer (fuel : nat) (g : Z) (st st' : MainComponent) :
  (forall i : Z, 0 <= i -> (0 <= noteFreq pow i)%Q) ->
  (0 <= _sampleRate st)%Q ->
  Forall (Qle 0) (temperedScale st) ->
  Forall (fun b => 0 <= dataIdx b <= fftSize - 1 /\
                   0 <= endIdx b <= fftSize - 1) (allBars st) ->
  wellFormed st ->
  buildTemperedScale pow fuel g st = Ok st' ->
  Forall (Qle 0) (temperedScale st') /\
  (forall b : Bar, b ∈ allBars st' ->
     0 <= dataIdx b <= fftSize - 1 /\ 0 <= endIdx b <= fftSize - 1) /\
  (forall (data : list Q) (h : Q) (b : Bar),
     Z.of_nat (length data) = 2 * fftSize -> b ∈ allBars st' ->
     exists y, barHeightOf log10 data h b = Ok y) /\
  (forall h : Q, exists hs, drawFrame log10 st' h = Ok hs).
Proof.
  intros Hnotes Hsr Hold Hbars Hwf Hbuild.
  destruct (build_in_buffer _ _ _ _ Hnotes Hsr Hold Hbars Hbuild)
    as [Hscale Hrange].
  pose proof fftSize_value as HN.
  split_and!.
  - exact Hscale.
  - intros b Hb. exact (proj1 (Forall_forall _ _) Hrange b Hb).
  - intros data h b Hlen Hb.
    destruct (proj1 (Forall_forall _ _) Hrange b Hb) as [Hd He].
    apply barHeightOf_Ok; lia.
  - intros h. unfold drawFrame. apply frameHeights_Ok.
    destruct (buildTemperedScale_Ok pow _ _ _ _ Hbuild)
      as (js & _ & _ & _ & _ & _ & _ & _ & _ & _ & Hdata).
    rewrite Hdata. destruct Hwf as [_ Hlen _].
    apply (Forall_impl _ _ _ Hrange). intros b [Hd He]. lia.
Qed.

End Reads.

(** C10, as worded, fails for a negative sample rate: the first bar of the
    table built at -44.1 kHz has the primary bin -1, and painting that
    table reads outside the buffer. *)
Lemma negative_rate_leaves_buffer :
  buildTemperedScale Approx.pow 300 2 (prepareToPlay (-44100) Approx.fresh)
    = Ok Approx.atNegative /\
  ~ (forall b : Bar, b ∈ allBars Approx.atNegative ->
       0 <= dataIdx b <= fftSize - 1 /\ 0 <= endIdx b <= fftSize - 1) /\
  drawFrame Approx.log10 Approx.atNegative 500 = Undefined.
Proof.
  split_and!.
  - exact built_negative.
  - intros H.
    assert (Hb : allBars Approx.atNegative !! 0%nat
                 = Some (mkBar 0 (-1) 0 (1 # 8)))
      by (vm_compute; reflexivity).
    destruct (H _ (list_elem_of_lookup_2 _ _ _ Hb)) as [[Hlo _] _].
    simpl in Hlo. lia.
  - vm_compute; reflexivity.
Qed.

(** ** Building again *)

Section Rebuild.

Variable pow : Q -> Q -> Q.

Lemma Qinv_nonpos (x : Q) : (x < 0)%Q -> (/ x <= 0)%Q.
Proof.
  destruct x as [[|p|p] d]; unfold Qlt, Qle, Qinv; simpl; intros H; lia.
Qed.

Lemma Qmult_nonneg_nonpos (x y : Q) : (0 <= x)%Q -> (y <= 0)%Q -> (x * y <= 0)%Q.
Proof.
  destruct x as [a b], y as [c d]. unfold Qle, Qmult; simpl. nia.
Qed.

(** The bins that a sample rate which is not positive gives to
    frequencies which are not negative. *)
Lemma freqToBin_nonpositive_rate (sr f : Q) :
  (sr <= 0)%Q -> (0 <= f)%Q ->
  exists z, freqToBin sr f = Bin z /\
    ((sr == 0)%Q -> z = fftSize - 1) /\ ((sr < 0)%Q -> z <= 0).
Proof.
  intros Hsr Hf. pose proof fftSize_value as HN.
  assert (Hnum : (0 <= f * inject_Z fftSize)%Q)
    by (apply Qmult_le_0_compat; [exact Hf | apply fftSize_inject_nonneg]).
  unfold freqToBin.
  destruct (Qeq_bool sr 0) eqn:E.
  - apply Qltb_ge in Hnum. rewrite Hnum. exists (fftSize - 1).
    split_and!; [reflexivity | reflexivity |].
    intros Hneg. apply Qeq_bool_eq in E. rewrite E in Hneg. discriminate Hneg.
  - assert (Hneg : (sr < 0)%Q).
    { apply Qle_lt_or_eq in Hsr as [H|H]; [exact H|].
      apply Qeq_eq_bool in H. congruence. }
    assert (Hq : round (f * inject_Z fftSize / sr) <= 0).
    { apply round_nonpos. unfold Qdiv.
      apply Qmult_nonneg_nonpos; [exact Hnum | apply Qinv_nonpos, Hneg]. }
    assert (Hlt : (round (f * inject_Z fftSize / sr) <? fftSize / 2) = true).
    { apply Z.ltb_lt. rewrite HN in *. change (2048 / 2) with 1024. lia. }
    rewrite Hlt. eexists. split_and!; [reflexivity | | intros _; exact Hq].
    intros H0. apply Qeq_eq_bool in H0. congruence.
Qed.

Lemma scaleLoop_lower_bound (lo hi : Q) (g : Z) (fuel : nat) (i : Z)
    (ts ts' : list Q) :
  scaleLoop pow fuel lo hi g i ts = Ok ts' ->
  Forall (Qle lo) ts -> Forall (Qle lo) ts'.
Proof.
  intros H Hts.
  destruct (scaleLoop_appends pow _ _ _ _ _ _ _ H) as (js & -> & _ & Hall & _).
  apply Forall_app. split; [exact Hts|].
  apply Forall_fmap. apply (Forall_impl _ _ _ Hall). intros j (Hlo & _). exact Hlo.
Qed.

(** The first loop of a later call, on a component that still has the
    band and the scale that an earlier call has left. *)
Lemma scale_again (fuel : nat) (g : Z) (st st1 st2 : MainComponent) :
  temperedScale st = [] ->
  buildTemperedScale pow fuel g st = Ok st1 ->
  minFreq st2 = minFreq st1 ->
  maxFreq st2 = maxFreq st1 ->
  temperedScale st2 = temperedScale st1 ->
  scaleLoop pow fuel (minFreq st2) (maxFreq st2) g 0 (temperedScale st2)
    = Ok (temperedScale st1 ++ temperedScale st1).
Proof.
  intros Hts0 Hbuild Hlo2 Hhi2 Hts2.
  destruct (buildTemperedScale_Ok pow _ _ _ _ Hbuild)
    as (js & Hscale & _ & _ & _ & Hts & _ & _ & Hlo & Hhi & _).
  simpl in Hscale, Hts. rewrite Hts0 in Hscale, Hts. simpl in Hscale, Hts.
  destruct (scaleLoop_appends pow _ _ _ _ _ _ _ Hscale)
    as (js' & Hjs' & _ & _ & Hany).
  simpl in Hjs'.
  rewrite Hlo2, Hhi2, Hts2, Hlo, Hhi, Hany, <- Hjs', Hts. reflexivity.
Qed.

(** The first loop does not look at the sample rate: on the empty scale,
    with the same band, it gives the scale again. *)
Lemma scale_of_first_call (fuel : nat) (g : Z) (st st1 st2 : MainComponent) :
  temperedScale st = [] ->
  buildTemperedScale pow fuel g st = Ok st1 ->
  minFreq st2 = minFreq st ->
  maxFreq st2 = maxFreq st ->
  temperedScale st2 = [] ->
  scaleLoop pow fuel (minFreq st2) (maxFreq st2) g 0 (temperedScale st2)
    = Ok (temperedScale st1).
Proof.
  intros Hts0 Hbuild Hlo2 Hhi2 Hts2.
  destruct (buildTemperedScale_Ok pow _ _ _ _ Hbuild)
    as (js & Hscale & _ & _ & _ & Hts & _).
  simpl in Hscale, Hts.
  rewrite Hlo2, Hhi2, Hts2, <- Hts0, Hts. exact Hscale.
Qed.

Lemma build_scale_lower_bound (fuel : nat) (g : Z) (st st' : MainComponent) :
  temperedScale st = [] ->
  buildTemperedScale pow fuel g st = Ok st' ->
  Forall (Qle (minFreq st)) (temperedScale st').
Proof.
  intros Hts0 Hbuild.
  destruct (buildTemperedScale_Ok pow _ _ _ _ Hbuild)
    as (js & Hscale & _ & _ & _ & Hts & _).
  simpl in Hscale, Hts. rewrite Hts.
  apply (scaleLoop_lower_bound _ _ _ _ _ _ _ Hscale).
  rewrite Hts0. constructor.
Qed.

(** A step of the bar loop has a result or is undefined, and so has the
    loop. *)
Lemma barStep_cases (sr : Q) (index : Z) (f : Q) (next : option Q) (w : walk) :
  (exists w', barStep sr index f next w = Ok w') \/
  barStep sr index f next w = Undefined.
Proof.
  unfold barStep.
  destruct (toInt_cases (freqToBin sr f)) as [[z ->] | ->]; simpl;
    [|right; reflexivity].
  destruct next as [f'|]; simpl; [|left; eauto].
  destruct (toInt_cases (freqToBin sr f')) as [[z' ->] | ->]; simpl;
    [left; eauto | right; reflexivity].
Qed.

Lemma barLoop_cases (sr : Q) (ts : list Q) : forall (index : Z) (w : walk),
  (exists w', barLoop sr index ts w = Ok w') \/
  barLoop sr index ts w = Undefined.
Proof.
  induction ts as [|f rest IH]; intros index w; simpl; [left; eauto|].
  destruct (barStep_cases sr index f (head rest) w) as [[w1 ->] | ->]; simpl;
    [apply IH | right; reflexivity].
Qed.

(** Where a bin of the scale does not fit an [int], the call has no defined
    behaviour. *)
Lemma buildTemperedScale_undefined (fuel : nat) (g : Z) (st : MainComponent)
    (ts : list Q) :
  scaleLoop pow fuel (minFreq st) (maxFreq st) g 0 (temperedScale st) = Ok ts ->
  ~ Forall (binFitsInt (_sampleRate st)) ts ->
  buildTemperedScale pow fuel g st = Undefined.
Proof.
  intros Hscale Hnot. unfold buildTemperedScale. rewrite Hscale. simpl.
  fold (walk0 (allBars st)).
  destruct (barLoop_cases (_sampleRate st) ts 0 (walk0 (allBars st)))
    as [[w' Hw] | Hw]; [|rewrite Hw; reflexivity].
  exfalso. apply Hnot. exact (barLoop_Ok _ _ _ _ _ Hw).
Qed.

(** Bins that are not above [fftSize - 1] all fit an [int], or one of them
    is below the range of [int]. *)
Lemma fits_or_below (sr : Q) (ts : list Q) :
  Forall (fun f => exists z, freqToBin sr f = Bin z) ts ->
  Forall (binFitsInt sr) ts \/
  Exists (fun f => exists z, freqToBin sr f = Bin z /\ z < intMin) ts.
Proof.
  induction 1 as [|f ts [z Hz] _ IH]; [left; constructor|].
  destruct IH as [IH | IH]; [|right; apply Exists_cons_tl, IH].
  destruct (Z.le_gt_cases intMin z) as [Hle | Hgt].
  - left. constructor; [|exact IH]. exists z. split; [exact Hz|].
    pose proof (freqToBin_at_most _ _ _ Hz) as Hhi.
    pose proof fftSize_value as HN. unfold intMax. lia.
  - right. apply Exists_cons_hd. exists z. split; [exact Hz | lia].
Qed.

(** C7, as the code has it.  A sample rate that is not positive is not
    rejected.  On a scale without negative frequency the call computes a bin
    for every entry, [fftSize - 1] for a zero rate and a bin that is not
    positive for a negative rate.  Then it either returns, with one more bar
    in the table for every entry of the scale, or the rate is negative and
    so close to zero that the bin of some entry is below the range of [int]:
    the conversion to [int] is then undefined.  There is no third outcome,
    and so no rejection. *)
Theorem nonpositive_rate_is_not_rejected (fuel : nat) (g : Z)
    (st : MainComponent) (ts : list Q) :
  (_sampleRate st <= 0)%Q ->
  Forall (Qle 0) ts ->
  scaleLoop pow fuel (minFreq st) (maxFreq st) g 0 (temperedScale st) = Ok ts ->
  Forall (fun f => exists z, freqToBin (_sampleRate st) f = Bin z /\
            (((_sampleRate st == 0)%Q /\ z = fftSize - 1) \/
             ((_sampleRate st < 0)%Q /\ z <= 0))) ts /\
  ((exists st' : MainComponent,
      buildTemperedScale pow fuel g st = Ok st' /\
      temperedScale st' = ts /\
      length (allBars st') = (length (allBars st) + length ts)%nat)
   \/
   ((_sampleRate st < 0)%Q /\
    Exists (fun f => exists z,
              freqToBin (_sampleRate st) f = Bin z /\ z < intMin) ts /\
    buildTemperedScale pow fuel g st = Undefined)).
Proof.
  intros Hsr Hnonneg Hscale.
  assert (Hbins : Forall (fun f => exists z,
              freqToBin (_sampleRate st) f = Bin z /\
              (((_sampleRate st == 0)%Q /\ z = fftSize - 1) \/
               ((_sampleRate st < 0)%Q /\ z <= 0))) ts).
  { apply (Forall_impl _ _ _ Hnonneg). intros f Hf.
    destruct (freqToBin_nonpositive_rate _ f Hsr Hf) as (z & Hz & H0 & Hneg).
    exists z. split; [exact Hz|].
    apply Qle_lt_or_eq in Hsr as [Hlt | Heq]; [right | left]; auto. }
  split; [exact Hbins|].
  assert (Hany : Forall (fun f => exists z,
                           freqToBin (_sampleRate st) f = Bin z) ts).
  { apply (Forall_impl _ _ _ Hbins). intros f (z & Hz & _). eauto. }
  destruct (fits_or_below _ _ Hany) as [Hfit | Hbelow].
  - left.
    destruct (buildTemperedScale_returns pow _ _ _ _ Hscale Hfit)
      as [st' Hbuild].
    exists st'. split; [exact Hbuild|].
    pose proof (build_length pow _ _ _ _ Hbuild) as Hlen.
    destruct (buildTemperedScale_Ok pow _ _ _ _ Hbuild)
      as (js & Hscale' & _ & _ & _ & Hts & _).
    simpl in Hscale'. rewrite Hscale in Hscale'. injection Hscale' as Hts'.
    rewrite Hts, <- Hts'. rewrite Hts, <- Hts' in Hlen.
    split; [reflexivity | exact Hlen].
  - right.
    assert (Hnot : ~ Forall (binFitsInt (_sampleRate st)) ts).
    { intros Hfit. apply Exists_exists in Hbelow as (f & Hin & z & Hz & Hlt).
      destruct (proj1 (Forall_forall _ _) Hfit f Hin) as (z' & Hz' & Hge & _).
      rewrite Hz in Hz'. injection Hz' as <-. lia. }
    split_and!.
    + apply Exists_exists in Hbelow as (f & Hin & z & Hz & Hlt).
      destruct (proj1 (Forall_forall _ _) Hbins f Hin)
        as (z' & Hz' & [[_ Htop] | [Hneg _]]); [|exact Hneg].
      rewrite Hz in Hz'. injection Hz' as <-.
      pose proof fftSize_value as HN. unfold intMin in Hlt. lia.
    + exact Hbelow.
    + exact (buildTemperedScale_undefined _ _ _ _ Hscale Hnot).
Qed.

(** A later call on a component that still has the band, the scale and the
    table of an earlier call on the empty vectors. *)
Lemma build_again (fuel : nat) (g : Z) (st st1 st2 : MainComponent) :
  temperedScale st = [] ->
  allBars st = [] ->
  buildTemperedScale pow fuel g st = Ok st1 ->
  minFreq st2 = minFreq st1 ->
  maxFreq st2 = maxFreq st1 ->
  temperedScale st2 = temperedScale st1 ->
  allBars st2 = allBars st1 ->
  Forall (binFitsInt (_sampleRate st2)) (temperedScale st1) ->
  exists st3 : MainComponent,
    buildTemperedScale pow fuel g st2 = Ok st3 /\
    temperedScale st3 = temperedScale st1 ++ temperedScale st1 /\
    length (allBars st3) = (3 * length (allBars st1))%nat.
Proof.
  intros Hts0 Hbars0 Hbuild Hlo2 Hhi2 Hts2 Hbars2 Hfin.
  pose proof (build_length pow _ _ _ _ Hbuild) as Hlen1.
  rewrite Hbars0 in Hlen1. simpl in Hlen1.
  pose proof (scale_again _ _ _ _ _ Hts0 Hbuild Hlo2 Hhi2 Hts2) as Hscale2.
  assert (Hfin2 : Forall (binFitsInt (_sampleRate st2))
                    (temperedScale st1 ++ temperedScale st1))
    by (apply Forall_app; split; exact Hfin).
  destruct (buildTemperedScale_returns pow _ _ _ _ Hscale2 Hfin2)
    as [st3 Hbuild3].
  exists st3. split; [exact Hbuild3|].
  pose proof (build_length pow _ _ _ _ Hbuild3) as Hlen3.
  destruct (buildTemperedScale_Ok pow _ _ _ _ Hbuild3)
    as (js3 & Hscale3 & _ & _ & _ & Hts3 & _).
  simpl in Hscale3, Hts3. rewrite Hscale2 in Hscale3.
  injection Hscale3 as Hts3'.
  rewrite Hts3, <- Hts3'. split; [reflexivity|].
  rewrite Hlen3, Hts3, <- Hts3', length_app, Hbars2, Hlen1. lia.
Qed.

Lemma build_finite (fuel : nat) (g : Z) (st st1 : MainComponent) :
  temperedScale st = [] ->
  buildTemperedScale pow fuel g st = Ok st1 ->
  Forall (binFitsInt (_sampleRate st1)) (temperedScale st1).
Proof.
  intros Hts0 Hbuild.
  destruct (buildTemperedScale_Ok pow _ _ _ _ Hbuild)
    as (js & _ & _ & _ & Hfin & Hts & _ & Hsr & _).
  simpl in Hfin, Hts. rewrite Hsr, Hts. exact Hfin.
Qed.

(** C6.  A second call with the same configuration does not rebuild the
    table, it appends to it: the scale is doubled and the table, which is
    then walked over the doubled scale, is three times as long. *)
Theorem rebuild_appends (fuel : nat) (g : Z) (st st1 : MainComponent) :
  temperedScale st = [] ->
  allBars st = [] ->
  buildTemperedScale pow fuel g st = Ok st1 ->
  exists st2 : MainComponent,
    buildTemperedScale pow fuel g st1 = Ok st2 /\
    temperedScale st2 = temperedScale st1 ++ temperedScale st1 /\
    length (allBars st2) = (3 * length (allBars st1))%nat.
Proof.
  intros Hts0 Hbars0 Hbuild.
  exact (build_again fuel g st st1 st1 Hts0 Hbars0 Hbuild eq_refl eq_refl
           eq_refl eq_refl (build_finite fuel g st st1 Hts0 Hbuild)).
Qed.

End Rebuild.

Lemma rebuild_appends_witness :
  exists st2 : MainComponent,
    buildTemperedScale Approx.pow 300 2 Approx.at44100 = Ok st2 /\
    temperedScale st2
      = temperedScale Approx.at44100 ++ temperedScale Approx.at44100 /\
    length (allBars st2) = (3 * length (allBars Approx.at44100))%nat.
Proof.
  exact (rebuild_appends Approx.pow 300 2 Approx.fresh Approx.at44100
           eq_refl eq_refl built_44100).
Defined.

Lemma at44100_lengths :
  length (allBars Approx.at44100) = 121%nat /\
  length (temperedScale Approx.at44100) = 121%nat.
Proof. split; vm_compute; reflexivity. Qed.

(** The constructor leaves 121 bars at 44.1 kHz; a second call of
    [buildTemperedScale(2)] leaves 363, on a scale of 242 entries. *)
Lemma rebuild_is_not_idempotent :
  exists st2 : MainComponent,
    buildTemperedScale Approx.pow 300 2 Approx.fresh = Ok Approx.at44100 /\
    buildTemperedScale Approx.pow 300 2 Approx.at44100 = Ok st2 /\
    length (allBars Approx.at44100) = 121%nat /\
    length (allBars st2) = 363%nat /\
    length (temperedScale Approx.at44100) = 121%nat /\
    length (temperedScale st2) = 242%nat.
Proof.
  destruct at44100_lengths as [Lb Lt].
  destruct (build_again Approx.pow 300 2 Approx.fresh Approx.at44100
              Approx.at44100 eq_refl eq_refl built_44100 eq_refl eq_refl
              eq_refl eq_refl
              (build_finite Approx.pow 300 2 Approx.fresh Approx.at44100
                 eq_refl built_44100))
    as (st2 & Hbuild & Hts & Hlen).
  exists st2.
  split_and!; [exact built_44100 | exact Hbuild | exact Lb | | exact Lt |].
  - rewrite Hlen, Lb. reflexivity.
  - rewrite Hts, length_app, Lt. reflexivity.
Qed.

Lemma at44100_scale_above_minFreq :
  Forall (Qle (minFreq (prepareToPlay 0 Approx.at44100)))
    (temperedScale (prepareToPlay 0 Approx.at44100)).
Proof.
  exact (build_scale_lower_bound Approx.pow 300 2 Approx.fresh Approx.at44100
           eq_refl built_44100).
Qed.

Lemma zero_rate_scale :
  scaleLoop Approx.pow 300 (minFreq (prepareToPlay 0 Approx.at44100))
    (maxFreq (prepareToPlay 0 Approx.at44100)) 2 0
    (temperedScale (prepareToPlay 0 Approx.at44100))
  = Ok (temperedScale Approx.at44100 ++ temperedScale Approx.at44100).
Proof.
  exact (scale_again Approx.pow 300 2 Approx.fresh Approx.at44100
           (prepareToPlay 0 Approx.at44100) eq_refl built_44100
           eq_refl eq_refl eq_refl).
Qed.

Lemma zero_rate_nonpositive :
  (_sampleRate (prepareToPlay 0 Approx.at44100) <= 0)%Q.
Proof. simpl. discriminate. Qed.

Lemma zero_rate_minFreq : (0 <= minFreq (prepareToPlay 0 Approx.at44100))%Q.
Proof. vm_compute. discriminate. Qed.

Lemma at44100_scale_nonneg : Forall (Qle 0) (temperedScale Approx.at44100).
Proof.
  apply (Forall_impl _ _ _ at44100_scale_above_minFreq). intros f Hf.
  apply Qle_trans with (minFreq (prepareToPlay 0 Approx.at44100));
    [exact zero_rate_minFreq | exact Hf].
Qed.

Lemma at44100_twice_nonneg :
  Forall (Qle 0) (temperedScale Approx.at44100 ++ temperedScale Approx.at44100).
Proof. apply Forall_app. split; exact at44100_scale_nonneg. Qed.

Lemma nonpositive_rate_is_not_rejected_witness :
  Forall (fun f => exists z,
            freqToBin (_sampleRate (prepareToPlay 0 Approx.at44100)) f
              = Bin z /\
            (((_sampleRate (prepareToPlay 0 Approx.at44100) == 0)%Q /\
              z = fftSize - 1) \/
             ((_sampleRate (prepareToPlay 0 Approx.at44100) < 0)%Q /\ z <= 0)))
    (temperedScale Approx.at44100 ++ temperedScale Approx.at44100) /\
  ((exists st' : MainComponent,
      buildTemperedScale Approx.pow 300 2 (prepareToPlay 0 Approx.at44100)
        = Ok st' /\
      temperedScale st'
        = temperedScale Approx.at44100 ++ temperedScale Approx.at44100 /\
      length (allBars st') =
        (length (allBars (prepareToPlay 0 Approx.at44100)) +
         length (temperedScale Approx.at44100 ++ temperedScale Approx.at44100))%nat)
   \/
   ((_sampleRate (prepareToPlay 0 Approx.at44100) < 0)%Q /\
    Exists (fun f => exists z,
              freqToBin (_sampleRate (prepareToPlay 0 Approx.at44100)) f
                = Bin z /\ z < intMin)
      (temperedScale Approx.at44100 ++ temperedScale Approx.at44100) /\
    buildTemperedScale Approx.pow 300 2 (prepareToPlay 0 Approx.at44100)
      = Undefined)).
Proof.
  exact (nonpositive_rate_is_not_rejected Approx.pow 300 2
           (prepareToPlay 0 Approx.at44100)
           (temperedScale Approx.at44100 ++ temperedScale Approx.at44100)
           zero_rate_nonpositive at44100_twice_nonneg zero_rate_scale).
Defined.

(** C7, as worded, fails: after a valid construction at 44.1 kHz, a call
    with the sample rate set to zero is not rejected.  It returns a
    component, and the table of that component is not the previous one: it
    has 363 bars where the previous one has 121. *)
Lemma zero_rate_changes_table :
  buildTemperedScale Approx.pow 300 2 Approx.fresh = Ok Approx.at44100 /\
  exists st' : MainComponent,
    buildTemperedScale Approx.pow 300 2 (prepareToPlay 0 Approx.at44100)
      = Ok st' /\
    length (allBars Approx.at44100) = 121%nat /\
    length (allBars st') = 363%nat /\
    allBars st' <> allBars Approx.at44100.
Proof.
  split; [exact built_44100|].
  destruct at44100_lengths as [Lb Lt].
  assert (Hfin : Forall (binFitsInt (_sampleRate (prepareToPlay 0 Approx.at44100)))
                   (temperedScale Approx.at44100)).
  { apply (Forall_impl _ _ _ at44100_scale_nonneg). intros f Hf.
    apply binFitsInt_nonneg; [discriminate | exact Hf]. }
  destruct (build_again Approx.pow 300 2 Approx.fresh Approx.at44100
              (prepareToPlay 0 Approx.at44100) eq_refl eq_refl built_44100
              eq_refl eq_refl eq_refl eq_refl Hfin)
    as (st' & Hbuild & _ & Hlen).
  assert (L : length (allBars st') = 363%nat)
    by (rewrite Hlen, Lb; reflexivity).
  exists st'. split_and!; [exact Hbuild | exact Lb | exact L |].
  intros E. rewrite E, Lb in L. discriminate L.
Qed.

(** A negative sample rate close to zero: at -1/8192 Hz the bin of the
    last note of the scale is below the range of [int], and the call of the
    constructor has no defined behaviour. *)
Lemma negative_rate_near_zero_is_undefined :
  buildTemperedScale Approx.pow 300 2 (prepareToPlay (-1 # 8192) Approx.fresh)
    = Undefined.
Proof.
  apply (buildTemperedScale_undefined Approx.pow 300 2
           (prepareToPlay (-1 # 8192) Approx.fresh)
           (temperedScale Approx.at44100)).
  - exact (scale_of_first_call Approx.pow 300 2 Approx.fresh Approx.at44100
             (prepareToPlay (-1 # 8192) Approx.fresh) eq_refl built_44100
             eq_refl eq_refl eq_refl).
  - intros Hfit.
    destruct (Forall_lookup_1 _ _ _ _ Hfit (built_44100_freq 120 ltac:(lia)))
      as (z & Hz & Hlo & _).
    assert (E : (binOf (-1 # 8192) (Approx.freqAt Approx.at44100 120)
                 <? intMin) = true) by (vm_compute; reflexivity).
    apply Z.ltb_lt in E. unfold binOf in E.
    change (_sampleRate (prepareToPlay (-1 # 8192) Approx.fresh))
      with (-1 # 8192)%Q in Hz.
    rewrite Hz in E. lia.
Qed.

Lemma approx_notes_nonneg (i : Z) :
  0 <= i -> (0 <= noteFreq Approx.pow i)%Q.
Proof.
  intros Hi. apply Qle_trans with (noteFreq Approx.pow 0).
  - vm_compute. discriminate.
  - apply approx_noteFreq_mono. lia.
Qed.

Lemma at44100_wellFormed : wellFormed Approx.at44100.
Proof.
  split.
  - vm_compute; reflexivity.
  - vm_compute; reflexivity.
  - simpl. rewrite fftSize_value. lia.
Qed.

Lemma at44100_in_buffer :
  Forall (fun b => 0 <= dataIdx b <= fftSize - 1 /\
                   0 <= endIdx b <= fftSize - 1) (allBars Approx.at44100).
Proof.
  apply (build_in_buffer Approx.pow 300 2 Approx.fresh Approx.at44100
           approx_notes_nonneg).
  - discriminate.
  - constructor.
  - constructor.
  - exact built_44100.
Qed.

Lemma at44100_rate_nonneg : (0 <= _sampleRate Approx.at44100)%Q.
Proof. discriminate. Qed.

Lemma bins_inside_buffer_witness :
  exists st2 : MainComponent,
    buildTemperedScale Approx.pow 300 2 Approx.at44100 = Ok st2 /\
    Forall (Qle 0) (temperedScale st2) /\
    (forall b : Bar, b ∈ allBars st2 ->
       0 <= dataIdx b <= fftSize - 1 /\ 0 <= endIdx b <= fftSize - 1) /\
    (forall (data : list Q) (h : Q) (b : Bar),
       Z.of_nat (length data) = 2 * fftSize -> b ∈ allBars st2 ->
       exists y, barHeightOf Approx.log10 data h b = Ok y) /\
    (forall h : Q, exists hs, drawFrame Approx.log10 st2 h = Ok hs).
Proof.
  destruct (build_again Approx.pow 300 2 Approx.fresh Approx.at44100
              Approx.at44100 eq_refl eq_refl built_44100 eq_refl eq_refl
              eq_refl eq_refl
              (build_finite Approx.pow 300 2 Approx.fresh Approx.at44100
                 eq_refl built_44100))
    as (st2 & Hbuild & _).
  exact (ex_intro _ st2
           (conj Hbuild
              (bins_inside_buffer Approx.pow Approx.log10 300 2 Approx.at44100
                 st2 approx_notes_nonneg at44100_rate_nonneg
                 at44100_scale_nonneg at44100_in_buffer at44100_wellFormed
                 Hbuild))).
Defined.

(** ** The range of [int] *)

(** Where the bins fit an [int] the other integer operations of an
    iteration do too: [prevBin + 1], the starting bin, the extended
    [prevBin] and the difference [prevBin - idx]. *)
Lemma int_operations_in_range (pb bin nextBin : Z) :
  intMin <= pb <= fftSize - 1 ->
  intMin <= bin <= fftSize - 1 ->
  intMin <= nextBin <= fftSize - 1 ->
  intMin <= pb + 1 <= intMax /\
  intMin <= startIdx pb bin <= intMax /\
  intMin <= extend bin nextBin <= fftSize - 1 /\
  intMin <= extend bin nextBin - startIdx pb bin <= intMax.
Proof.
  intros Hpb Hbin Hnext. pose proof fftSize_value as HN.
  unfold intMin, intMax in *.
  pose proof (startIdx_le pb bin) as Hle.
  assert (Hidx : startIdx pb bin = bin \/
                 (startIdx pb bin = pb + 1 /\ 0 < pb /\ pb + 1 <= bin)).
  { unfold startIdx.
    destruct (Z.ltb_spec 0 pb), (Z.leb_spec (pb + 1) bin); simpl; auto. }
  assert (Hext : bin <= extend bin nextBin /\
                 2 * (extend bin nextBin - bin) <= fftSize - 1 - bin + 1 /\
                 extend bin nextBin <= fftSize - 1).
  { unfold extend. destruct (Z.ltb_spec 1 (nextBin - bin)) as [Hd|Hd]; [|lia].
    pose proof (round_half _ Hd). pose proof (round_half_sharp _ Hd). lia. }
  split_and!; lia.
Qed.

(** ** Interpolation factors *)

Lemma factorLoop_lookup (c : nat) : forall (i0 n : Z) (bs : list Bar) (p : nat),
  0 <= i0 -> n <= Z.of_nat (length bs) ->
  factorLoop c i0 n bs !! p =
    if bool_decide (Z.of_nat (length bs) - n + i0 <= Z.of_nat p
                    < Z.of_nat (length bs) - n + i0 + Z.of_nat c)
    then setFactor (inject_Z (Z.of_nat p - (Z.of_nat (length bs) - n) + 1)
                    / inject_Z n) <$> bs !! p
    else bs !! p.
Proof.
  induction c as [|c IH]; intros i0 n bs p Hi0 Hn; simpl.
  - case_bool_decide; [lia | reflexivity].
  - rewrite IH by (rewrite ?length_alter; lia).
    rewrite length_alter.
    set (k := Z.to_nat (Z.of_nat (length bs) - n + i0)).
    destruct (decide (p = k)) as [->|Hne].
    + rewrite list_lookup_alter_eq.
      rewrite bool_decide_eq_false_2 by lia.
      rewrite bool_decide_eq_true_2 by lia.
      do 4 f_equal. unfold k. lia.
    + rewrite list_lookup_alter_ne by congruence.
      repeat case_bool_decide; try reflexivity; lia.
Qed.

Lemma setFactors_lookup (n : Z) (bs : list Bar) (p o : nat) :
  (o <= length bs)%nat -> n = Z.of_nat (length bs - o) ->
  setFactors n bs !! p =
    if bool_decide (o <= p < length bs)%nat
    then setFactor (inject_Z (Z.of_nat (p - o) + 1) / inject_Z n) <$> bs !! p
    else bs !! p.
Proof.
  intros Ho Hn. unfold setFactors.
  rewrite factorLoop_lookup by lia.
  repeat case_bool_decide; try reflexivity; try lia.
  do 4 f_equal. lia.
Qed.

Lemma setFactors_length (n : Z) (bs : list Bar) :
  length (setFactors n bs) = length bs.
Proof. apply factorLoop_length. Qed.

(** The bars that an iteration leaves in front of the one it appends. *)
Lemma stepWalk_bars (index bin pb' : Z) (w : walk) :
  exists T1 : list Bar,
    bars (stepWalk index bin pb' w) =
      T1 ++ [mkBar index (startIdx (prevBin w) bin)
               (if 0 <? pb' - startIdx (prevBin w) bin then pb' else 0) 0] /\
    T1 = (if startIdx (prevBin w) bin =? prevIdx w then bars w
          else if 1 <? nBars w then setFactors (nBars w) (bars w)
               else bars w) /\
    length T1 = length (bars w) /\
    forall (i : nat), dataIdx <$> T1 !! i = dataIdx <$> bars w !! i.
Proof.
  eexists. split; [reflexivity|]. split; [reflexivity|].
  destruct (_ =? _); [auto|].
  destruct (1 <? nBars w); [|auto].
  split; [apply setFactors_length|].
  intros i.
  assert (H : shape <$> setFactors (nBars w) (bars w) = shape <$> bars w)
    by apply factorLoop_shape.
  apply (f_equal (fun l => l !! i)) in H.
  rewrite !list_lookup_fmap in H.
  destruct (setFactors (nBars w) (bars w) !! i), (bars w !! i);
    simpl in *; try congruence.
  injection H as H. unfold shape in H. congruence.
Qed.

Lemma runAt_same_bins (T T' : list Bar) (L s k : nat) (d : Z) :
  (s + k <= length T)%nat ->
  (forall i : nat, (i < length T)%nat ->
     dataIdx <$> T' !! i = dataIdx <$> T !! i) ->
  (length T <= length T')%nat ->
  runAt T' L s k d -> runAt T L s k d.
Proof.
  intros Hlen Hsame Hle (HL & Hk & _ & Hin & Hleft & Hright).
  assert (Hget : forall i b, T !! i = Some b ->
            exists b', T' !! i = Some b' /\ dataIdx b' = dataIdx b).
  { intros i b Hb. pose proof (lookup_lt_Some _ _ _ Hb) as Hi.
    specialize (Hsame i Hi). rewrite Hb in Hsame.
    destruct (T' !! i) as [b'|]; [|discriminate].
    simpl in Hsame. exists b'. split; [reflexivity | congruence]. }
  split_and!; try assumption.
  - intros i b Hi Hb. destruct (Hget i b Hb) as (b' & Hb' & <-). eauto.
  - intros b Hs Hb. destruct (Hget _ b Hb) as (b' & Hb' & <-). eauto.
  - intros b Hb. destruct (Hget _ b Hb) as (b' & Hb' & <-). eauto.
Qed.

Lemma walk0_inv (bs : list Bar) : walkInv (length bs) (walk0 bs) (length bs).
Proof.
  unfold walkInv, walk0; simpl. split_and!; try lia.
  - intros i b Hi Hb. apply lookup_lt_Some in Hb. lia.
  - intros s k d (HL & Hk & _) Hs. lia.
Qed.

Lemma lookup_snoc_inv (T : list Bar) (new b : Bar) (i : nat) :
  (T ++ [new]) !! i = Some b ->
  ((i < length T)%nat /\ T !! i = Some b) \/ (i = length T /\ b = new).
Proof.
  intros H. apply lookup_app_Some in H as [H | [Hi H]].
  - left. split; [eapply lookup_lt_Some, H | exact H].
  - right. destruct (i - length T)%nat as [|j] eqn:E; simpl in H;
      [|discriminate].
    injection H as <-. split; [lia | reflexivity].
Qed.

Lemma stepWalk_inv (L o : nat) (index bin pb' : Z) (w : walk) :
  walkInv L w o -> exists o', walkInv L (stepWalk index bin pb' w) o'.
Proof.
  intros (Ho & Hn & Hne & Hopen & Hbefore & Hclosed).
  destruct (stepWalk_bars index bin pb' w) as (T1 & HT' & HT1 & Hlen1 & Hsame).
  set (idx := startIdx (prevBin w) bin) in *.
  set (new := mkBar index idx (if 0 <? pb' - idx then pb' else 0) 0) in *.
  assert (HpI : prevIdx (stepWalk index bin pb' w)
                = if idx =? prevIdx w then prevIdx w else idx) by reflexivity.
  assert (HnB : nBars (stepWalk index bin pb' w)
                = if idx =? prevIdx w then nBars w + 1 else 1) by reflexivity.
  assert (Hget : forall i b1, T1 !! i = Some b1 ->
            exists b, bars w !! i = Some b /\ dataIdx b1 = dataIdx b).
  { intros i b1 Hb1. specialize (Hsame i). rewrite Hb1 in Hsame.
    destruct (bars w !! i) as [b|]; [|discriminate].
    simpl in Hsame. exists b. split; [reflexivity | congruence]. }
  assert (Hsame' : forall i, (i < length (bars w))%nat ->
            dataIdx <$> (T1 ++ [new]) !! i = dataIdx <$> bars w !! i).
  { intros i Hi. rewrite lookup_app_l by lia. apply Hsame. }
  destruct (Z.eqb_spec idx (prevIdx w)) as [Heq|Hneq].
  - (* the run goes on *)
    subst T1. exists o. unfold walkInv. rewrite HT', HpI, HnB, length_app.
    simpl. split_and!; try lia.
    + intros i b Hi Hb. apply lookup_snoc_inv in Hb as [[_ Hb] | [_ ->]].
      * exact (Hopen i b Hi Hb).
      * split; [exact Heq | reflexivity].
    + intros b HL Hb. rewrite lookup_app_l in Hb by lia.
      exact (Hbefore b HL Hb).
    + intros s k d Hrun Hs.
      assert (Hrun' : runAt (bars w) L s k d).
      { apply (runAt_same_bins _ (bars w ++ [new])); try assumption; try lia.
        rewrite length_app. lia. }
      intros i b Hi Hb. rewrite lookup_app_l in Hb by lia.
      exact (Hclosed s k d Hrun' Hs i b Hi Hb).
  - (* the run is closed and a new one starts *)
    exists (length (bars w)). unfold walkInv.
    rewrite HT', HpI, HnB, length_app, Hlen1. simpl.
    split_and!; try lia.
    + intros i b Hi Hb. apply lookup_snoc_inv in Hb as [[Hlt _] | [_ ->]];
        [lia | split; reflexivity].
    + intros b HL Hb. rewrite lookup_app_l in Hb by lia.
      destruct (Hget _ _ Hb) as (b0 & Hb0 & ->).
      assert (Hb0' : dataIdx b0 = prevIdx w)
        by (eapply Hopen; [|exact Hb0]; lia).
      congruence.
    + intros s k d Hrun Hs.
      assert (Hrun' : runAt (bars w) L s k d).
      { apply (runAt_same_bins _ (T1 ++ [new])); try assumption; try lia.
        rewrite length_app. lia. }
      destruct Hrun as (HL & Hk & _ & Hin & Hleft & Hright).
      pose proof Hrun' as (_ & _ & _ & Hin' & Hleft' & _).
      destruct (le_lt_dec (s + k) o) as [Hso|Hso].
      * (* a run finished earlier *)
        intros i b Hi Hb. rewrite lookup_app_l in Hb by lia.
        assert (Hb' : bars w !! (s + i)%nat = Some b).
        { rewrite <- Hb, HT1. destruct (1 <? nBars w); [|reflexivity].
          rewrite (setFactors_lookup _ _ _ o) by lia.
          rewrite bool_decide_eq_false_2 by lia. reflexivity. }
        exact (Hclosed s k d Hrun' Hso i b Hi Hb').
      * (* the run that has just been closed *)
        assert (Hd : d = prevIdx w).
        { destruct (lookup_lt_is_Some_2 (bars w) (s + k - 1)) as [b1 Hb1];
            [lia|].
          assert (E1 : dataIdx b1 = d) by (eapply Hin'; [|exact Hb1]; lia).
          rewrite <- E1. eapply Hopen; [|exact Hb1]. lia. }
        assert (Hend : (s + k = length (bars w))%nat).
        { destruct (decide (s + k = length (bars w))%nat) as [E|E]; [exact E|].
          exfalso.
          destruct (lookup_lt_is_Some_2 T1 (s + k)) as [b1 Hb1]; [lia|].
          apply (Hright b1); [rewrite lookup_app_l by lia; exact Hb1|].
          destruct (Hget _ _ Hb1) as (b2 & Hb2 & ->).
          rewrite Hd. eapply Hopen; [|exact Hb2]. lia. }
        assert (Hstart : s = o).
        { destruct (lt_eq_lt_dec s o) as [[Hlt|E]|Hgt]; [|exact E|].
          - exfalso.
            destruct (lookup_lt_is_Some_2 (bars w) (o - 1)) as [b1 Hb1];
              [lia|].
            apply (Hbefore b1 ltac:(lia) Hb1).
            rewrite <- Hd. eapply Hin'; [|exact Hb1]. lia.
          - exfalso.
            destruct (lookup_lt_is_Some_2 (bars w) (s - 1)) as [b1 Hb1];
              [lia|].
            apply (Hleft' b1 ltac:(lia) Hb1).
            rewrite Hd. eapply Hopen; [|exact Hb1]. lia. }
        subst s.
        intros i b Hi Hb. rewrite lookup_app_l in Hb by lia.
        destruct (Nat.eqb_spec k 1) as [Hk1|Hk1].
        -- assert (E : (1 <? nBars w) = false) by (apply Z.ltb_ge; lia).
           rewrite E in HT1. subst T1.
           assert (E0 : factor b = 0%Q) by (eapply Hopen; [|exact Hb]; lia).
           rewrite E0. reflexivity.
        -- assert (E : (1 <? nBars w) = true) by (apply Z.ltb_lt; lia).
           rewrite E in HT1. subst T1.
           rewrite (setFactors_lookup _ _ _ o) in Hb by lia.
           rewrite bool_decide_eq_true_2 in Hb by lia.
           destruct (bars w !! (o + i)%nat) as [b0|]; [|discriminate].
           simpl in Hb. injection Hb as <-. simpl.
           rewrite Hn.
           replace (o + i - o)%nat with i by lia.
           replace (length (bars w) - o)%nat with k by lia.
           reflexivity.
Qed.

Lemma walkBins_inv (L : nat) (bins : list Z) :
  forall (index : Z) (w : walk) (o : nat),
  walkInv L w o -> exists o', walkInv L (walkBins index bins w) o'.
Proof.
  induction bins as [|bin rest IH]; intros index w o Hinv; simpl; [eauto|].
  destruct (stepWalk_inv L o index bin (nextPrevBin bin rest) w Hinv)
    as [o1 Hinv1].
  exact (IH _ _ _ Hinv1).
Qed.

Section Factors.

Variable pow : Q -> Q -> Q.

(** C5.  In the table that a call leaves, every maximal run of bars on
    one bin that is followed by another bar has the factors of a finished
    run: none for a single bar, [1/k], ..., [k/k] for [k] bars.  The run
    that reaches the end of the table is never finished: its bars keep
    the factor 0, whatever its length. *)
Theorem factors_of_runs (fuel : nat) (g : Z) (st st' : MainComponent)
    (s k : nat) (d : Z) :
  buildTemperedScale pow fuel g st = Ok st' ->
  runAt (allBars st') (length (allBars st)) s k d ->
  ((s + k < length (allBars st'))%nat -> rampAt (allBars st') s k) /\
  ((s + k = length (allBars st'))%nat -> flatAt (allBars st') s k).
Proof.
  intros Hbuild Hrun.
  destruct (buildTemperedScale_Ok pow _ _ _ _ Hbuild)
    as (js & _ & _ & _ & _ & _ & Hbars & _).
  destruct (walkBins_inv (length (allBars st))
              (binOf (_sampleRate st) <$>
                 (temperedScale st ++ (noteFreq pow <$> js)))
              0 (walk0 (allBars st)) _ (walk0_inv (allBars st)))
    as (o & Ho & Hn & Hne & Hopen & Hbefore & Hclosed).
  simpl in Hbars. rewrite <- Hbars in *.
  set (w := walkBins 0 _ _) in *. clearbody w.
  pose proof Hrun as (HL & Hk & Hlen & Hin & Hleft & Hright).
  split.
  - intros Hlt. apply (Hclosed s k d Hrun).
    destruct (le_lt_dec (s + k) o) as [Hso|Hso]; [exact Hso|]. exfalso.
    destruct (lookup_lt_is_Some_2 (allBars st') (s + k - 1)) as [b1 Hb1];
      [lia|].
    destruct (lookup_lt_is_Some_2 (allBars st') (s + k)) as [b2 Hb2];
      [lia|].
    apply (Hright b2 Hb2).
    assert (E1 : dataIdx b1 = d) by (eapply Hin; [|exact Hb1]; lia).
    assert (E2 : dataIdx b1 = prevIdx w) by (eapply Hopen; [|exact Hb1]; lia).
    assert (E3 : dataIdx b2 = prevIdx w) by (eapply Hopen; [|exact Hb2]; lia).
    congruence.
  - intros Hend i b Hi Hb.
    assert (Hos : (o <= s)%nat).
    { destruct (le_lt_dec o s) as [H|H]; [exact H|]. exfalso.
      destruct (lookup_lt_is_Some_2 (allBars st') (o - 1)) as [b1 Hb1];
        [lia|].
      destruct (lookup_lt_is_Some_2 (allBars st') (s + k - 1)) as [b2 Hb2];
        [lia|].
      apply (Hbefore b1 ltac:(lia) Hb1).
      assert (E1 : dataIdx b1 = d) by (eapply Hin; [|exact Hb1]; lia).
      assert (E2 : dataIdx b2 = d) by (eapply Hin; [|exact Hb2]; lia).
      assert (E3 : dataIdx b2 = prevIdx w)
        by (eapply Hopen; [|exact Hb2]; lia).
      congruence. }
    eapply Hopen; [|exact Hb]. lia.
Qed.

End Factors.

Lemma runAt_check (T : list Bar) (L s k : nat) (d : Z) :
  (L <= s)%nat -> (1 <= k)%nat -> (s + k <= length T)%nat ->
  Forall (fun b => dataIdx b = d) (take k (drop s T)) ->
  ((L < s)%nat -> dataIdx <$> T !! (s - 1)%nat <> Some d) ->
  dataIdx <$> T !! (s + k)%nat <> Some d ->
  runAt T L s k d.
Proof.
  intros HL Hk Hlen Hall Hleft Hright. split_and!; try assumption.
  - intros i b Hi Hb.
    apply (Forall_lookup_1 _ _ (i - s) b Hall).
    rewrite lookup_take_lt, lookup_drop by lia.
    replace (s + (i - s))%nat with i by lia. exact Hb.
  - intros b Hs Hb E. apply (Hleft Hs). rewrite Hb. simpl. congruence.
  - intros b Hb E. apply Hright. rewrite Hb. simpl. congruence.
Qed.

(** At 22.05 kHz the frequencies above half the sample rate all get the bin
    2047: the last eleven bars of the table form one run on it. *)
Lemma at22050_final_run : runAt (allBars Approx.at22050) 0 110 11 2047.
Proof.
  apply runAt_check; try lia.
  - vm_compute. lia.
  - vm_compute. repeat constructor.
  - intros _. vm_compute. intros H. discriminate H.
  - vm_compute. intros H. discriminate H.
Qed.

Lemma factors_of_runs_witness :
  runAt (allBars Approx.at22050)
    (length (allBars (prepareToPlay 22050 Approx.fresh))) 110 11 2047 /\
  ((110 + 11 < length (allBars Approx.at22050))%nat ->
     rampAt (allBars Approx.at22050) 110 11) /\
  ((110 + 11 = length (allBars Approx.at22050))%nat ->
     flatAt (allBars Approx.at22050) 110 11).
Proof.
  exact (conj at22050_final_run
           (factors_of_runs Approx.pow 300 2 (prepareToPlay 22050 Approx.fresh)
              Approx.at22050 110 11 2047 built_22050 at22050_final_run)).
Defined.

(** The run of eleven bars that ends the table built at 22.05 kHz has no
    ramp: its first bar has the factor 0, not 1/11. *)
Lemma final_run_has_no_ramp :
  buildTemperedScale Approx.pow 300 2 (prepareToPlay 22050 Approx.fresh)
    = Ok Approx.at22050 /\
  runAt (allBars Approx.at22050) 0 110 11 2047 /\
  (110 + 11 = length (allBars Approx.at22050))%nat /\
  ~ rampAt (allBars Approx.at22050) 110 11.
Proof.
  split_and!.
  - exact built_22050.
  - exact at22050_final_run.
  - vm_compute; reflexivity.
  - intros H.
    assert (Hb : allBars Approx.at22050 !! (110 + 0)%nat
                 = Some (mkBar 110 2047 0 0)) by (vm_compute; reflexivity).
    specialize (H 0%nat _ ltac:(lia) Hb). simpl in H. discriminate H.
Qed.

(** A run in the middle of the table built at 44.1 kHz: the eight bars on
    bin 1 carry the ramp 1/8, ..., 8/8. *)
Lemma at44100_first_run : runAt (allBars Approx.at44100) 0 0 8 1.
Proof.
  apply runAt_check; try lia.
  - vm_compute. lia.
  - vm_compute. repeat constructor.
  - vm_compute. intros H. discriminate H.
Qed.

(** ** The height of a bar with an end bin *)

Section Peak.

Variable log10 : Q -> Q.

Lemma gainToDecibels_silent (x : Q) :
  (x == 0)%Q -> gainToDecibels log10 x = (-100)%Q.
Proof.
  intros Hx. unfold gainToDecibels.
  assert (E : Qltb 0 x = false) by (apply Qltb_ge; rewrite Hx; discriminate).
  rewrite E. reflexivity.
Qed.

Lemma gainToDecibels_reference :
  (0 <= log10 (inject_Z fftSize))%Q ->
  (0 <= gainToDecibels log10 (inject_Z fftSize))%Q.
Proof.
  intros Hlog. unfold gainToDecibels.
  assert (E : Qltb 0 (inject_Z fftSize) = true)
    by (apply Qltb_lt; rewrite fftSize_value; reflexivity).
  rewrite E.
  apply Qle_trans with (log10 (inject_Z fftSize) * 20)%Q;
    [|apply Q.le_max_r].
  apply Qmult_le_0_compat; [exact Hlog | discriminate].
Qed.

(** A bin without signal has the level of the floor: the full height. *)
Lemma levelOf_silent (x h : Q) :
  (0 <= log10 (inject_Z fftSize))%Q -> (x == 0)%Q ->
  (levelOf log10 x h == h)%Q.
Proof.
  intros Hlog Hx. unfold levelOf.
  rewrite (gainToDecibels_silent x Hx).
  pose proof (gainToDecibels_reference Hlog) as Href.
  set (ref := gainToDecibels log10 (inject_Z fftSize)) in *.
  assert (Hdb : (jlimit mindB maxdB (-100 - ref) == -100)%Q).
  { unfold jlimit, mindB, maxdB.
    assert (Hv : (-100 - ref <= -100)%Q).
    { unfold Qminus. rewrite <- (Qplus_0_r (-100)) at 2.
      apply Qplus_le_r. apply (Qopp_le_compat 0 ref Href). }
    destruct (Qltb (-100 - ref) (-100)) eqn:E1; [reflexivity|].
    apply Qltb_ge in E1.
    assert (E2 : Qltb 0 (-100 - ref) = false).
    { apply Qltb_ge. apply Qle_trans with (-100)%Q; [exact Hv | discriminate]. }
    rewrite E2. apply Qle_antisym; assumption. }
  unfold jmap. rewrite Hdb. unfold mindB, maxdB. field.
Qed.

Lemma readFft_silent (data : list Q) (j : Z) (x : Q) :
  Forall (fun y => y == 0)%Q data -> readFft data j = Ok x -> (x == 0)%Q.
Proof.
  intros Hsilent. unfold readFft.
  destruct (0 <=? j); [|discriminate].
  destruct (data !! Z.to_nat j) as [y|] eqn:Hy; [|discriminate].
  intros [= <-]. exact (Forall_lookup_1 _ _ _ _ Hsilent Hy).
Qed.

Lemma peakLoop_silent (data : list Q) (h : Q) (count : nat) :
  forall j : Z,
  Forall (fun y => y == 0)%Q data ->
  0 <= j -> j + Z.of_nat count <= Z.of_nat (length data) ->
  peakLoop log10 count data h j 0 = Ok 0%Q.
Proof.
  induction count as [|count IH]; intros j Hsilent Hj Hend; simpl;
    [reflexivity|].
  destruct (readFft_Ok data j) as [x Hx]; [lia|]. rewrite Hx. simpl.
  pose proof (readFft_silent _ _ _ Hsilent Hx) as Hx0.
  assert (E : Qltb 0 x = false) by (apply Qltb_ge; rewrite Hx0; discriminate).
  rewrite E. simpl. apply IH; [exact Hsilent | lia | lia].
Qed.

(** C1.  On a spectrum without signal, a bar with an end bin above its
    primary bin is reported with the height 0, the top of the canvas,
    although every bin of its range has the level of the floor, the
    canvas height: the loop of [drawFrame] compares the magnitude of a bin
    with a height in pixels, and starts from the height 0. *)
Theorem silent_range_is_reported_at_the_top (data : list Q) (h : Q)
    (bar : Bar) :
  (0 <= log10 (inject_Z fftSize))%Q ->
  Forall (fun y => y == 0)%Q data ->
  0 <= dataIdx bar < endIdx bar ->
  endIdx bar < Z.of_nat (length data) ->
  barHeightOf log10 data h bar = Ok 0%Q /\
  forall j : Z, dataIdx bar <= j <= endIdx bar ->
    exists level : Q, getLevel log10 data j h = Ok level /\ (level == h)%Q.
Proof.
  intros Hlog Hsilent Hrange Hlen. split.
  - unfold barHeightOf.
    assert (E : (endIdx bar =? 0) = false) by (apply Z.eqb_neq; lia).
    rewrite E. apply peakLoop_silent; [exact Hsilent | lia | lia].
  - intros j Hj. unfold getLevel.
    destruct (readFft_Ok data j) as [x Hx]; [lia|]. rewrite Hx. simpl.
    eexists. split; [reflexivity|].
    apply levelOf_silent; [exact Hlog|].
    exact (readFft_silent _ _ _ Hsilent Hx).
Qed.

End Peak.

Lemma silence_is_silent : Forall (fun y => y == 0)%Q Approx.silence.
Proof. apply Forall_replicate. reflexivity. Qed.

Lemma silence_length : Z.of_nat (length Approx.silence) = 2 * fftSize.
Proof.
  unfold Approx.silence. rewrite length_replicate, fftSize_value. lia.
Qed.

Lemma silent_range_is_reported_at_the_top_witness :
  let bar := mkBar 53 20 21 0 in
  allBars Approx.at44100 !! 53%nat = Some bar /\
  barHeightOf Approx.log10 Approx.silence 500 bar = Ok 0%Q /\
  forall j : Z, dataIdx bar <= j <= endIdx bar ->
    exists level : Q,
      getLevel Approx.log10 Approx.silence j 500 = Ok level /\
      (level == 500)%Q.
Proof.
  intros bar.
  assert (Hbar : allBars Approx.at44100 !! 53%nat = Some bar)
    by (vm_compute; reflexivity).
  assert (Hlog : (0 <= Approx.log10 (inject_Z fftSize))%Q)
    by (vm_compute; discriminate).
  assert (Hrange : 0 <= dataIdx bar < endIdx bar) by (simpl; lia).
  assert (Hlen : endIdx bar < Z.of_nat (length Approx.silence))
    by (rewrite silence_length, fftSize_value; simpl; lia).
  exact (conj Hbar
           (silent_range_is_reported_at_the_top Approx.log10 Approx.silence
              500 bar Hlog silence_is_silent Hrange Hlen)).
Defined.

(** With a weak bin 20 and a strong bin 21, the bar on the bins 20 to 21 is
    reported at the level of the weak bin: the magnitude 100 of the strong
    bin is compared with the height in pixels reached so far, 270.927, and
    is below it. *)
Lemma louder_neighbour_is_missed :
  exists reported loudest : Q,
    barHeightOf Approx.log10 Approx.twoTone 500 (mkBar 53 20 21 0)
      = Ok reported /\
    getLevel Approx.log10 Approx.twoTone 20 500 = Ok reported /\
    getLevel Approx.log10 Approx.twoTone 21 500 = Ok loudest /\
    (reported == 270927 # 1000)%Q /\
    (loudest == 30103 # 200)%Q.
Proof.
  do 2 eexists. split_and!.
  - vm_compute; reflexivity.
  - vm_compute; reflexivity.
  - vm_compute; reflexivity.
  - vm_compute; reflexivity.
  - vm_compute; reflexivity.
Qed.

(** ** The render side and the end of the loops *)

(** [timerCallback] is the only place that clears the flag; the next full
    window is then handed off again. *)
Lemma timerCallback_clears_flag (transform : list Q -> list Q)
    (st : MainComponent) :
  nextFFTBlockReady (timerCallback transform st) = false.
Proof.
  unfold timerCallback. destruct (nextFFTBlockReady st) eqn:E; [reflexivity|].
  exact E.
Qed.

(** For a positive sample rate the bin is a number. *)
Lemma freqToBin_binOf_positive (sr f : Q) :
  (0 < sr)%Q -> freqToBin sr f = Bin (binOf sr f).
Proof.
  intros Hsr. unfold binOf. rewrite (freqToBin_positive_rate _ _ Hsr).
  reflexivity.
Qed.

(** With a positive sample rate, notes that are not negative and a stride
    other than zero, the call returns as soon as the fuel covers the first
    note above the band. *)
Lemma buildTemperedScale_total (pow : Q -> Q -> Q) (g n : Z)
    (st : MainComponent) :
  (forall i : Z, 0 <= i -> (0 <= noteFreq pow i)%Q) ->
  g <> 0 -> 0 <= n -> (maxFreq st < noteFreq pow n)%Q ->
  (0 < _sampleRate st)%Q ->
  Forall (binFitsInt (_sampleRate st)) (temperedScale st) ->
  exists st', buildTemperedScale pow (S (Z.to_nat n)) g st = Ok st'.
Proof.
  intros Hnotes Hg Hn Hhi Hsr Hold.
  destruct (scaleLoop_terminates pow (minFreq st) (maxFreq st) g n Hg Hhi
              (Z.to_nat n) 0 (temperedScale st)) as [ts Hts]; [lia | lia |].
  apply (buildTemperedScale_returns pow _ _ _ ts Hts).
  destruct (scaleLoop_appends pow _ _ _ _ _ _ _ Hts) as (js & -> & Hinc & _).
  apply Forall_app. split; [exact Hold|].
  apply Forall_fmap.
  apply (Forall_impl _ _ _ (increasingFrom_ge _ _ Hinc)). intros j Hj.
  simpl. apply binFitsInt_nonneg; [apply Qlt_le_weak, Hsr | apply Hnotes, Hj].
Qed.

(** * Further properties of the code *)

(** ** Audio blocks *)

Lemma readSample_lookup (channelData : list Q) (k : nat) (x : Q) :
  channelData !! k = Some x -> readSample channelData (Z.of_nat k) = Ok x.
Proof.
  intros H. unfold readSample.
  destruct (Z.leb_spec 0 (Z.of_nat k)); [|lia].
  rewrite Nat2Z.id, H. reflexivity.
Qed.

Lemma blockLoop_pushes (channelData : list Q) (start : nat) (count : nat) :
  forall (i : nat) (st : MainComponent),
  (start + i + count <= length channelData)%nat ->
  blockLoop count channelData (Z.of_nat start) (Z.of_nat i) st =
    Ok (pushSamples (take count (drop (start + i) channelData)) st).
Proof.
  induction count as [|count IH]; intros i st Hlen; simpl.
  - reflexivity.
  - destruct (lookup_lt_is_Some_2 channelData (start + i)) as [x Hx]; [lia|].
    replace (Z.of_nat start + Z.of_nat i) with (Z.of_nat (start + i)) by lia.
    rewrite (readSample_lookup _ _ _ Hx). simpl.
    replace (Z.of_nat i + 1) with (Z.of_nat (S i)) by lia.
    rewrite IH by lia.
    rewrite (drop_S _ _ _ Hx). simpl.
    replace (start + S i)%nat with (S (start + i)) by lia. reflexivity.
Qed.

Lemma blockLoop_from_start (channelData : list Q) (start count : nat)
    (st : MainComponent) :
  (start + count <= length channelData)%nat ->
  blockLoop count channelData (Z.of_nat start) 0 st =
    Ok (pushSamples (take count (drop start channelData)) st).
Proof.
  intros Hlen.
  pose proof (blockLoop_pushes channelData start count 0 st) as H.
  rewrite Nat.add_0_r in H. apply H. lia.
Qed.

(** X1.  A block that lies inside the first channel is pushed sample by
    sample, in order; the other channels of the buffer are not looked at. *)
Theorem getNextAudioBlock_pushes_first_channel (channel0 : list Q)
    (others : list (list Q)) (start count : nat) (st : MainComponent) :
  (start + count <= length channel0)%nat ->
  getNextAudioBlock
    (mkAudioSourceChannelInfo (channel0 :: others) (Z.of_nat start)
       (Z.of_nat count)) st
  = Ok (pushSamples (take count (drop start channel0)) st).
Proof.
  intros Hlen. unfold getNextAudioBlock. simpl. rewrite Nat2Z.id.
  apply blockLoop_from_start, Hlen.
Qed.

Lemma getNextAudioBlock_pushes_first_channel_witness :
  (1 + 2 <= length [7; 8; 9; 10]%Q)%nat /\
  getNextAudioBlock
    (mkAudioSourceChannelInfo ([7; 8; 9; 10]%Q :: [[1; 1; 1; 1]%Q])
       (Z.of_nat 1) (Z.of_nat 2)) Approx.fresh
  = Ok (pushSamples (take 2 (drop 1 [7; 8; 9; 10]%Q)) Approx.fresh).
Proof.
  assert (H : (1 + 2 <= length [7; 8; 9; 10]%Q)%nat) by (simpl; lia).
  exact (conj H (getNextAudioBlock_pushes_first_channel [7; 8; 9; 10]%Q
                   [[1; 1; 1; 1]%Q] 1 2 Approx.fresh H)).
Defined.

(** Without a channel, or with a sample count that is not positive, a block
    leaves the component as it is. *)
Lemma getNextAudioBlock_nothing_to_push (info : AudioSourceChannelInfo)
    (st : MainComponent) :
  buffer info = [] \/ numSamples info <= 0 ->
  getNextAudioBlock info st = Ok st.
Proof.
  intros [H | H]; unfold getNextAudioBlock.
  - rewrite H. reflexivity.
  - destruct (buffer info); [reflexivity|].
    replace (Z.to_nat (numSamples info)) with 0%nat by lia. reflexivity.
Qed.

(** X2.  A block with at least one sample that reaches beyond the end of the
    channel is a read outside the buffer. *)
Theorem getNextAudioBlock_past_the_end (channel0 : list Q)
    (others : list (list Q)) (start count : nat) (st : MainComponent) :
  (1 <= count)%nat ->
  (length channel0 < start + count)%nat ->
  getNextAudioBlock
    (mkAudioSourceChannelInfo (channel0 :: others) (Z.of_nat start)
       (Z.of_nat count)) st
  = Undefined.
Proof.
  intros Hcount Hlen. unfold getNextAudioBlock. simpl. rewrite Nat2Z.id.
  assert (H : forall c i s, (1 <= c)%nat ->
            (length channel0 < start + i + c)%nat ->
            blockLoop c channel0 (Z.of_nat start) (Z.of_nat i) s = Undefined).
  { induction c as [|c IH]; intros i s Hc1 Hc; simpl; [lia|].
    replace (Z.of_nat start + Z.of_nat i) with (Z.of_nat (start + i)) by lia.
    destruct (channel0 !! (start + i)%nat) as [x|] eqn:Hx.
    - rewrite (readSample_lookup _ _ _ Hx). simpl.
      replace (Z.of_nat i + 1) with (Z.of_nat (S i)) by lia.
      apply lookup_lt_Some in Hx. apply IH; lia.
    - unfold readSample.
      destruct (Z.leb_spec 0 (Z.of_nat (start + i))); [|reflexivity].
      rewrite Nat2Z.id, Hx. reflexivity. }
  apply (H count 0%nat st); lia.
Qed.

Lemma getNextAudioBlock_past_the_end_witness :
  (1 <= 2)%nat /\ (length [7; 8; 9]%Q < 2 + 2)%nat /\
  getNextAudioBlock
    (mkAudioSourceChannelInfo ([7; 8; 9]%Q :: []) (Z.of_nat 2) (Z.of_nat 2))
    Approx.fresh
  = Undefined.
Proof.
  assert (H1 : (1 <= 2)%nat) by lia.
  assert (H : (length [7; 8; 9]%Q < 2 + 2)%nat) by (simpl; lia).
  exact (conj H1 (conj H (getNextAudioBlock_past_the_end [7; 8; 9]%Q [] 2 2
                   Approx.fresh H1 H))).
Defined.

(** X3.  Two blocks taken one after the other from one channel amount to the
    single block that spans both. *)
Theorem getNextAudioBlock_consecutive (channel0 : list Q)
    (others : list (list Q)) (start n1 n2 : nat) (st : MainComponent) :
  (start + n1 + n2 <= length channel0)%nat ->
  getNextAudioBlock
    (mkAudioSourceChannelInfo (channel0 :: others) (Z.of_nat start)
       (Z.of_nat n1)) st
  ≫= getNextAudioBlock
       (mkAudioSourceChannelInfo (channel0 :: others) (Z.of_nat (start + n1))
          (Z.of_nat n2))
  = getNextAudioBlock
      (mkAudioSourceChannelInfo (channel0 :: others) (Z.of_nat start)
         (Z.of_nat (n1 + n2))) st.
Proof.
  intros Hlen. unfold getNextAudioBlock. simpl. rewrite !Nat2Z.id.
  rewrite !blockLoop_from_start by lia. simpl.
  rewrite blockLoop_from_start by lia.
  f_equal. unfold pushSamples. rewrite <- foldl_app. f_equal.
  rewrite <- take_take_drop, drop_drop. reflexivity.
Qed.

Lemma getNextAudioBlock_consecutive_witness :
  (1 + 1 + 2 <= length [7; 8; 9; 10]%Q)%nat /\
  getNextAudioBlock
    (mkAudioSourceChannelInfo ([7; 8; 9; 10]%Q :: []) (Z.of_nat 1)
       (Z.of_nat 1)) Approx.fresh
  ≫= getNextAudioBlock
       (mkAudioSourceChannelInfo ([7; 8; 9; 10]%Q :: []) (Z.of_nat (1 + 1))
          (Z.of_nat 2))
  = getNextAudioBlock
      (mkAudioSourceChannelInfo ([7; 8; 9; 10]%Q :: []) (Z.of_nat 1)
         (Z.of_nat (1 + 2))) Approx.fresh.
Proof.
  assert (H : (1 + 1 + 2 <= length [7; 8; 9; 10]%Q)%nat) by (simpl; lia).
  exact (conj H (getNextAudioBlock_consecutive [7; 8; 9; 10]%Q [] 1 1 2
                   Approx.fresh H)).
Defined.

(** ** The FIFO and the render side *)

(** X4.  A push writes inside the FIFO: the sample is found in the slot
    before the new write index, which lies between 1 and [fftSize], and the
    sizes of the arrays are kept, for one push and for any number of them. *)
Theorem push_stays_inside_fifo (x : Q) (ws : list Q) (st : MainComponent) :
  wellFormed st ->
  1 <= fifoIndex (pushNextSampleIntoFifo x st) <= fftSize /\
  fifo (pushNextSampleIntoFifo x st)
    !! Z.to_nat (fifoIndex (pushNextSampleIntoFifo x st) - 1) = Some x /\
  wellFormed (pushSamples ws st).
Proof.
  intros Hwf. pose proof fftSize_value as HN. split; [|split].
  - destruct Hwf as [_ _ Hidx]. unfold pushNextSampleIntoFifo; simpl.
    destruct (Z.eqb_spec (fifoIndex st) fftSize); lia.
  - destruct Hwf as [Hfifo _ Hidx]. unfold pushNextSampleIntoFifo; simpl.
    destruct (Z.eqb_spec (fifoIndex st) fftSize).
    + replace (Z.to_nat (0 + 1 - 1)) with (Z.to_nat 0) by lia.
      apply list_lookup_insert_eq. lia.
    + replace (Z.to_nat (fifoIndex st + 1 - 1)) with (Z.to_nat (fifoIndex st))
        by lia.
      apply list_lookup_insert_eq. lia.
  - revert st Hwf. induction ws as [|y ws IH]; intros st Hwf; simpl.
    + exact Hwf.
    + apply IH, push_wellFormed, Hwf.
Qed.

Lemma push_stays_inside_fifo_witness :
  1 <= fifoIndex (pushNextSampleIntoFifo 5 Approx.fresh) <= fftSize /\
  fifo (pushNextSampleIntoFifo 5 Approx.fresh)
    !! Z.to_nat (fifoIndex (pushNextSampleIntoFifo 5 Approx.fresh) - 1)
    = Some 5%Q /\
  wellFormed (pushSamples (Approx.window 1) Approx.fresh).
Proof.
  exact (push_stays_inside_fifo 5 (Approx.window 1) Approx.fresh
           fresh_wellFormed).
Defined.

(** X5.  The hand-off comes one sample after the window is full: up to
    [fftSize] samples pushed into an empty FIFO leave the flag clear and
    [fftData] untouched; the next sample sets the flag, and [fftData] then
    holds the window followed by [fftSize] zeros. *)
Theorem handoff_with_the_next_sample (w v : list Q) (x : Q)
    (st : MainComponent) :
  wellFormed st ->
  fifoIndex st = 0 ->
  nextFFTBlockReady st = false ->
  Z.of_nat (length w) = fftSize ->
  Z.of_nat (length v) <= fftSize ->
  nextFFTBlockReady (pushSamples v st) = false /\
  fftData (pushSamples v st) = fftData st /\
  nextFFTBlockReady (pushSamples (w ++ [x]) st) = true /\
  fftData (pushSamples (w ++ [x]) st) = w ++ replicate (Z.to_nat fftSize) 0%Q.
Proof.
  intros Hwf Hidx Hready Hw Hv. pose proof fftSize_value as HN.
  pose proof Hwf as [Hfifo Hdata _].
  destruct (pushSamples_fill v st) as (_ & _ & Hd & Hr); try lia.
  destruct (pushSamples_fill w st) as (Hf1 & Hi1 & Hd1 & Hr1); try lia.
  split_and!; [congruence | exact Hd | |].
  - unfold pushSamples. rewrite foldl_app. fold (pushSamples w st). simpl.
    unfold pushNextSampleIntoFifo; simpl.
    rewrite Hi1, Hidx, Hw. simpl. rewrite Z.eqb_refl, Hr1, Hready. reflexivity.
  - unfold pushSamples. rewrite foldl_app. fold (pushSamples w st). simpl.
    unfold pushNextSampleIntoFifo; simpl.
    rewrite Hi1, Hidx, Hw. simpl. rewrite Z.eqb_refl, Hr1, Hready. simpl.
    rewrite Hf1, Hd1, Hidx. simpl.
    rewrite drop_ge, app_nil_r by lia.
    unfold snapshot. rewrite drop_replicate. do 2 f_equal. lia.
Qed.

Lemma handoff_with_the_next_sample_witness :
  nextFFTBlockReady (pushSamples (Approx.window 2) Approx.fresh) = false /\
  fftData (pushSamples (Approx.window 2) Approx.fresh)
    = fftData Approx.fresh /\
  nextFFTBlockReady (pushSamples (Approx.window 1 ++ [5%Q]) Approx.fresh)
    = true /\
  fftData (pushSamples (Approx.window 1 ++ [5%Q]) Approx.fresh)
    = Approx.window 1 ++ replicate (Z.to_nat fftSize) 0%Q.
Proof.
  exact (handoff_with_the_next_sample (Approx.window 1) (Approx.window 2) 5
           Approx.fresh fresh_wellFormed eq_refl eq_refl (window_length 1)
           (Z.eq_le_incl _ _ (window_length 2))).
Defined.

(** X6.  A window that was waiting in the FIFO while the flag was set is not
    lost if the render side drains before the next sample: [timerCallback]
    transforms the first window, and the first push after it hands off the
    second. *)
Theorem drain_releases_the_waiting_window (transform : list Q -> list Q)
    (w1 w2 : list Q) (x : Q) (st : MainComponent) :
  (forall l, length (transform l) = length l) ->
  wellFormed st ->
  fifoIndex st = 0 ->
  nextFFTBlockReady st = false ->
  Z.of_nat (length w1) = fftSize ->
  Z.of_nat (length w2) = fftSize ->
  let drained := timerCallback transform (pushSamples (w1 ++ w2) st) in
  fftData drained = transform (w1 ++ replicate (Z.to_nat fftSize) 0%Q) /\
  nextFFTBlockReady drained = false /\
  nextFFTBlockReady (pushNextSampleIntoFifo x drained) = true /\
  fftData (pushNextSampleIntoFifo x drained)
    = w2 ++ replicate (Z.to_nat fftSize) 0%Q.
Proof.
  intros Htr Hwf Hidx Hready Hw1 Hw2 drained. pose proof fftSize_value as HN.
  destruct (pushSamples_two_windows w1 w2 st Hwf Hidx Hready Hw1 Hw2)
    as (Hr & Hd & Hf & Hi).
  assert (E : drained = timerCallback transform (pushSamples (w1 ++ w2) st))
    by reflexivity.
  unfold timerCallback in E. rewrite Hr in E. simpl in E.
  rewrite E. unfold pushNextSampleIntoFifo; simpl.
  rewrite Hd, Hf, Hi, Z.eqb_refl. simpl.
  split_and!; try reflexivity.
  unfold snapshot. rewrite Htr, length_app, length_replicate, drop_replicate.
  do 2 f_equal. lia.
Qed.

Lemma drain_releases_the_waiting_window_witness :
  let drained :=
    timerCallback (fun l => l) (pushSamples (Approx.window 1 ++ Approx.window 2)
                                 Approx.fresh) in
  fftData drained
    = (fun l => l) (Approx.window 1 ++ replicate (Z.to_nat fftSize) 0%Q) /\
  nextFFTBlockReady drained = false /\
  nextFFTBlockReady (pushNextSampleIntoFifo 5 drained) = true /\
  fftData (pushNextSampleIntoFifo 5 drained)
    = Approx.window 2 ++ replicate (Z.to_nat fftSize) 0%Q.
Proof.
  exact (drain_releases_the_waiting_window (fun l => l) (Approx.window 1)
           (Approx.window 2) 5 Approx.fresh (fun l => eq_refl)
           fresh_wellFormed eq_refl eq_refl (window_length 1)
           (window_length 2)).
Defined.

(** X7.  The render side consumes a frame once: a second [timerCallback]
    with no push in between changes nothing. *)
Theorem timerCallback_consumes_once (transform : list Q -> list Q)
    (st : MainComponent) :
  timerCallback transform (timerCallback transform st)
    = timerCallback transform st.
Proof.
  unfold timerCallback.
  destruct (nextFFTBlockReady st) eqn:E; simpl; [reflexivity|].
  rewrite E. reflexivity.
Qed.

(** ** The scale and the call that builds it *)

Section ScaleFacts.

Variable pow : Q -> Q -> Q.

(** X8.  The capture side and the table do not share state: pushing samples
    before or after a call of [buildTemperedScale] gives the same component. *)
Theorem build_commutes_with_push (fuel : nat) (g : Z) (ws : list Q)
    (st st' : MainComponent) :
  buildTemperedScale pow fuel g st = Ok st' ->
  buildTemperedScale pow fuel g (pushSamples ws st) = Ok (pushSamples ws st').
Proof.
  revert st st'. induction ws as [|x ws IH]; intros st st' H; simpl;
    [exact H|].
  apply IH. unfold buildTemperedScale in *. simpl.
  inv_bind H. rename a into ts. inv_bind H. rename a into w.
  injection H as <-. rewrite Hres. simpl. rewrite Hres0. simpl. reflexivity.
Qed.

Lemma scaleLoop_complete (lo hi : Q) (g : Z) (fuel : nat) :
  forall (i : Z) (ts ts' : list Q),
  scaleLoop pow fuel lo hi g i ts = Ok ts' ->
  forall j : Z,
    i <= j ->
    (forall k, i <= k <= j -> (noteFreq pow k <= hi)%Q) ->
    (lo <= noteFreq pow j)%Q ->
    Z.rem j g = 0 ->
    noteFreq pow j ∈ ts'.
Proof.
  induction fuel as [|fuel IH]; intros i ts ts' H j Hij Hbelow Hlo Hrem;
    [discriminate|].
  simpl in H.
  assert (Ehi : Qle_bool (noteFreq pow i) hi = true)
    by (apply Qle_bool_iff, Hbelow; lia).
  rewrite Ehi in H.
  destruct (Z.eq_dec i j) as [->|Hne].
  - apply Qle_bool_iff in Hlo. rewrite Hlo in H.
    destruct (g =? 0); [discriminate|].
    apply Z.eqb_eq in Hrem. rewrite Hrem in H.
    destruct (scaleLoop_appends pow _ _ _ _ _ _ _ H) as (js & -> & _).
    apply elem_of_app. left. apply elem_of_app. right. apply list_elem_of_singleton.
    reflexivity.
  - assert (Hnext : forall k, i + 1 <= k <= j -> (noteFreq pow k <= hi)%Q)
      by (intros k Hk; apply Hbelow; lia).
    destruct (Qle_bool lo (noteFreq pow i)).
    + destruct (g =? 0); [discriminate|].
      exact (IH _ _ _ H j ltac:(lia) Hnext Hlo Hrem).
    + exact (IH _ _ _ H j ltac:(lia) Hnext Hlo Hrem).
Qed.

(** X9.  What a call appends to the scale: exactly the notes [c0 *
    root24^j], taken for increasing [j] from 0, that lie in the band and
    whose index is a multiple of the stride, up to the first note above the
    band. *)
Theorem scale_holds_the_notes_of_the_band (fuel : nat) (g : Z)
    (st st' : MainComponent) :
  buildTemperedScale pow fuel g st = Ok st' ->
  (exists js : list Z,
     temperedScale st' = temperedScale st ++ (noteFreq pow <$> js) /\
     increasingFrom 0 js /\
     Forall (fun j => (minFreq st <= noteFreq pow j)%Q /\
                      (noteFreq pow j <= maxFreq st)%Q /\ Z.rem j g = 0) js) /\
  (forall j : Z,
     0 <= j ->
     (forall k, 0 <= k <= j -> (noteFreq pow k <= maxFreq st)%Q) ->
     (minFreq st <= noteFreq pow j)%Q ->
     Z.rem j g = 0 ->
     noteFreq pow j ∈ temperedScale st').
Proof.
  intros Hbuild.
  destruct (buildTemperedScale_Ok pow _ _ _ _ Hbuild)
    as (js & Hscale & Hinc & Hall & _ & Hts & _).
  simpl in Hscale, Hts. split.
  - exists js. split_and!; assumption.
  - intros j Hj Hbelow Hlo Hrem. rewrite Hts.
    exact (scaleLoop_complete _ _ _ _ _ _ _ Hscale j Hj Hbelow Hlo Hrem).
Qed.

(** X10.  With a lower limit above the upper limit the band holds no note:
    the call on the empty vectors leaves them empty, and painting draws no
    bar. *)
Theorem empty_band_gives_no_bar (log10 : Q -> Q) (fuel : nat) (g : Z)
    (st st' : MainComponent) (h : Q) :
  (maxFreq st < minFreq st)%Q ->
  temperedScale st = [] ->
  allBars st = [] ->
  buildTemperedScale pow fuel g st = Ok st' ->
  temperedScale st' = [] /\ allBars st' = [] /\ drawFrame log10 st' h = Ok [].
Proof.
  intros Hband Hts0 Hbars0 Hbuild.
  destruct (buildTemperedScale_Ok pow _ _ _ _ Hbuild)
    as (js & _ & _ & Hall & _ & Hts & Hbars & _).
  simpl in Hts, Hbars.
  assert (Hjs : js = []).
  { destruct js as [|j js]; [reflexivity|]. exfalso.
    apply Forall_cons in Hall as [(Hlo & Hhi & _) _].
    apply (Qlt_not_le _ _ Hband). apply Qle_trans with (noteFreq pow j);
      assumption. }
  subst js. rewrite Hts0 in *. simpl in *.
  rewrite Hbars0 in Hbars. simpl in Hbars.
  split_and!; [exact Hts | exact Hbars |].
  unfold drawFrame. rewrite Hbars. reflexivity.
Qed.

Lemma scaleLoop_zero_stride (lo hi : Q) (j : Z) (fuel : nat) :
  forall (i : Z) (ts : list Q),
  i <= j -> j - i < Z.of_nat fuel ->
  (forall k, i <= k <= j -> (noteFreq pow k <= hi)%Q) ->
  (lo <= noteFreq pow j)%Q ->
  scaleLoop pow fuel lo hi 0 i ts = Undefined.
Proof.
  induction fuel as [|fuel IH]; intros i ts Hij Hfuel Hbelow Hlo; [lia|].
  simpl.
  assert (Ehi : Qle_bool (noteFreq pow i) hi = true)
    by (apply Qle_bool_iff, Hbelow; lia).
  rewrite Ehi.
  destruct (Qle_bool lo (noteFreq pow i)) eqn:Elo; [reflexivity|].
  assert (Hne : i <> j).
  { intros ->. apply Qle_bool_iff in Hlo. congruence. }
  apply IH; [lia | lia | | exact Hlo].
  intros k Hk. apply Hbelow. lia.
Qed.

(** X11.  With the stride 0 the call runs into [i % 0] at the first note of
    the band: it has no result, however the rest is configured. *)
Theorem zero_stride_is_undefined (fuel : nat) (st : MainComponent) (j : Z) :
  0 <= j < Z.of_nat fuel ->
  (forall k, 0 <= k <= j -> (noteFreq pow k <= maxFreq st)%Q) ->
  (minFreq st <= noteFreq pow j)%Q ->
  buildTemperedScale pow fuel 0 st = Undefined.
Proof.
  intros Hj Hbelow Hlo. unfold buildTemperedScale.
  rewrite (scaleLoop_zero_stride _ _ j fuel 0 _ ltac:(lia) ltac:(lia)
             Hbelow Hlo).
  reflexivity.
Qed.

Lemma scaleLoop_stride_sign (lo hi : Q) (g : Z) (fuel : nat) :
  forall (i : Z) (ts : list Q),
  scaleLoop pow fuel lo hi (- g) i ts = scaleLoop pow fuel lo hi g i ts.
Proof.
  induction fuel as [|fuel IH]; intros i ts; simpl; [reflexivity|].
  destruct (Qle_bool (noteFreq pow i) hi); [|reflexivity].
  destruct (Qle_bool lo (noteFreq pow i)); [|apply IH].
  destruct (Z.eqb_spec g 0) as [->|Hg]; [reflexivity|].
  assert (E : (- g =? 0) = false) by (apply Z.eqb_neq; lia).
  rewrite E, Z.rem_opp_r by exact Hg. apply IH.
Qed.

(** X12.  Only the magnitude of the stride matters: a negative stride keeps
    the same notes as its opposite. *)
Theorem stride_sign_is_ignored (fuel : nat) (g : Z) (st : MainComponent) :
  buildTemperedScale pow fuel (- g) st = buildTemperedScale pow fuel g st.
Proof.
  unfold buildTemperedScale. rewrite scaleLoop_stride_sign. reflexivity.
Qed.

Lemma scaleLoop_more_fuel (lo hi : Q) (g : Z) (fuel : nat) :
  forall (i : Z) (ts ts' : list Q) (extra : nat),
  scaleLoop pow fuel lo hi g i ts = Ok ts' ->
  scaleLoop pow (fuel + extra) lo hi g i ts = Ok ts'.
Proof.
  induction fuel as [|fuel IH]; intros i ts ts' extra H; [discriminate|].
  simpl in *.
  destruct (Qle_bool (noteFreq pow i) hi); [|exact H].
  destruct (Qle_bool lo (noteFreq pow i)); [|apply IH, H].
  destruct (g =? 0); [discriminate|]. apply IH, H.
Qed.

(** X13.  The call ends: with a positive sample rate, notes that are not
    negative (as those of the C library's [pow] are) and a stride other than
    0, once some note lies above the band the call returns a component, the
    same one for every amount of fuel that covers that note. *)
Theorem build_returns_once_a_note_is_above (g n : Z) (st : MainComponent) :
  (forall i : Z, 0 <= i -> (0 <= noteFreq pow i)%Q) ->
  g <> 0 -> 0 <= n -> (maxFreq st < noteFreq pow n)%Q ->
  (0 < _sampleRate st)%Q ->
  Forall (binFitsInt (_sampleRate st)) (temperedScale st) ->
  exists st' : MainComponent,
    forall fuel : nat, (Z.to_nat n < fuel)%nat ->
      buildTemperedScale pow fuel g st = Ok st'.
Proof.
  intros Hnotes Hg Hn Hhi Hsr Hold.
  destruct (scaleLoop_terminates pow (minFreq st) (maxFreq st) g n Hg Hhi
              (Z.to_nat n) 0 (temperedScale st)) as [ts Hts]; [lia | lia |].
  assert (Hfin : Forall (binFitsInt (_sampleRate st)) ts).
  { destruct (scaleLoop_appends pow _ _ _ _ _ _ _ Hts) as (js & -> & Hinc & _).
    apply Forall_app. split; [exact Hold|].
    apply Forall_fmap.
    apply (Forall_impl _ _ _ (increasingFrom_ge _ _ Hinc)). intros j Hj.
    simpl. apply binFitsInt_nonneg; [apply Qlt_le_weak, Hsr|].
    apply Hnotes, Hj. }
  destruct (buildTemperedScale_returns pow _ _ _ ts Hts Hfin) as [st' Hbuild].
  exists st'. intros fuel Hfuel.
  unfold buildTemperedScale in *.
  replace fuel with (S (Z.to_nat n) + (fuel - S (Z.to_nat n)))%nat by lia.
  rewrite (scaleLoop_more_fuel _ _ _ _ _ _ _ _ Hts).
  rewrite Hts in Hbuild. exact Hbuild.
Qed.

End ScaleFacts.

Lemma approx_notes_below (j k : Z) :
  0 <= k <= j ->
  (noteFreq Approx.pow j <= 22000)%Q ->
  (noteFreq Approx.pow k <= 22000)%Q.
Proof.
  intros Hk Hj. apply Qle_trans with (noteFreq Approx.pow j); [|exact Hj].
  apply approx_noteFreq_mono. exact Hk.
Qed.

Lemma build_commutes_with_push_witness :
  buildTemperedScale Approx.pow 300 2 Approx.fresh = Ok Approx.at44100 /\
  buildTemperedScale Approx.pow 300 2 (pushSamples [1; 2; 3]%Q Approx.fresh)
    = Ok (pushSamples [1; 2; 3]%Q Approx.at44100).
Proof.
  exact (conj built_44100
           (build_commutes_with_push Approx.pow 300 2 [1; 2; 3]%Q
              Approx.fresh Approx.at44100 built_44100)).
Defined.

Lemma scale_holds_the_notes_of_the_band_witness :
  (exists js : list Z,
     temperedScale Approx.at44100
       = temperedScale Approx.fresh ++ (noteFreq Approx.pow <$> js) /\
     increasingFrom 0 js /\
     Forall (fun j => (minFreq Approx.fresh <= noteFreq Approx.pow j)%Q /\
                      (noteFreq Approx.pow j <= maxFreq Approx.fresh)%Q /\
                      Z.rem j 2 = 0) js) /\
  (forall j : Z,
     0 <= j ->
     (forall k, 0 <= k <= j ->
        (noteFreq Approx.pow k <= maxFreq Approx.fresh)%Q) ->
     (minFreq Approx.fresh <= noteFreq Approx.pow j)%Q ->
     Z.rem j 2 = 0 ->
     noteFreq Approx.pow j ∈ temperedScale Approx.at44100).
Proof.
  exact (scale_holds_the_notes_of_the_band Approx.pow 300 2 Approx.fresh
           Approx.at44100 built_44100).
Defined.

Lemma emptyBand_built :
  buildTemperedScale Approx.pow 300 2 emptyBand = Ok emptyBand.
Proof. vm_compute; reflexivity. Qed.

Lemma empty_band_gives_no_bar_witness :
  (maxFreq emptyBand < minFreq emptyBand)%Q /\
  temperedScale emptyBand = [] /\ allBars emptyBand = [] /\
  drawFrame Approx.log10 emptyBand 500 = Ok [].
Proof.
  assert (H : (maxFreq emptyBand < minFreq emptyBand)%Q) by reflexivity.
  exact (conj H (empty_band_gives_no_bar Approx.pow Approx.log10 300 2
                   emptyBand emptyBand 500 H eq_refl eq_refl emptyBand_built)).
Defined.

Lemma note8_in_band :
  (minFreq Approx.fresh <= noteFreq Approx.pow 8)%Q /\
  (noteFreq Approx.pow 8 <= 22000)%Q /\
  (maxFreq Approx.fresh < noteFreq Approx.pow 250)%Q.
Proof. split_and!; vm_compute; reflexivity || discriminate. Qed.

Lemma zero_stride_is_undefined_witness :
  0 <= 8 < Z.of_nat 300 /\
  buildTemperedScale Approx.pow 300 0 Approx.fresh = Undefined.
Proof.
  assert (H : 0 <= 8 < Z.of_nat 300) by lia.
  exact (conj H
           (zero_stride_is_undefined Approx.pow 300 Approx.fresh 8 H
              (fun k Hk => approx_notes_below 8 k Hk (proj1 (proj2 note8_in_band)))
              (proj1 note8_in_band))).
Defined.

Lemma fresh_scale_finite :
  Forall (binFitsInt (_sampleRate Approx.fresh)) (temperedScale Approx.fresh).
Proof. constructor. Qed.

Lemma build_returns_once_a_note_is_above_witness :
  (maxFreq Approx.fresh < noteFreq Approx.pow 250)%Q /\
  exists st' : MainComponent,
    forall fuel : nat, (Z.to_nat 250 < fuel)%nat ->
      buildTemperedScale Approx.pow fuel 2 Approx.fresh = Ok st'.
Proof.
  assert (Hg : 2 <> 0) by lia.
  assert (Hn : 0 <= 250) by lia.
  assert (Hsr : (0 < _sampleRate Approx.fresh)%Q) by reflexivity.
  exact (conj (proj2 (proj2 note8_in_band))
           (build_returns_once_a_note_is_above Approx.pow 2 250 Approx.fresh
              approx_notes_nonneg Hg Hn (proj2 (proj2 note8_in_band)) Hsr
              fresh_scale_finite)).
Defined.

(** ** More on [freqToBin] *)

Lemma round_comp (p q : Q) : (p == q)%Q -> round p = round q.
Proof.
  intros E. unfold round.
  rewrite (Qleb_comp 0%Q 0%Q (Qeq_refl 0%Q) p q E).
  rewrite (Qfloor_comp (p + (1 # 2)) (q + (1 # 2)))
    by (rewrite E; reflexivity).
  rewrite (Qceiling_comp (p - (1 # 2)) (q - (1 # 2)))
    by (rewrite E; reflexivity).
  reflexivity.
Qed.

Lemma round_inject_Z (z : Z) : round (inject_Z z) = z.
Proof.
  unfold round. destruct (Qle_bool 0 (inject_Z z)) eqn:E.
  - rewrite (Qfloor_comp _ ((2 * z + 1) # 2)).
    + unfold Qfloor. Z.to_euclidean_division_equations; lia.
    + unfold Qeq, Qplus, inject_Z; simpl. lia.
  - rewrite (Qceiling_comp _ ((2 * z - 1) # 2)).
    + unfold Qceiling, Qfloor, Qopp; simpl.
      Z.to_euclidean_division_equations; lia.
    + unfold Qeq, Qminus, Qplus, Qopp, inject_Z; simpl. lia.
Qed.

(** X14.  For a positive sample rate [freqToBin] does not decrease with the
    frequency: rounding and the one-sided clamp both keep the order. *)
Theorem freqToBin_is_monotone (sr f g : Q) :
  (0 < sr)%Q -> (f <= g)%Q ->
  exists a b : Z,
    freqToBin sr f = Bin a /\ freqToBin sr g = Bin b /\ a <= b.
Proof.
  intros Hsr Hfg. exists (binOf sr f), (binOf sr g). split_and!.
  - apply freqToBin_binOf_positive, Hsr.
  - apply freqToBin_binOf_positive, Hsr.
  - apply binOf_mono; assumption.
Qed.

Lemma freqToBin_is_monotone_witness :
  (0 < 44100)%Q /\ (440 <= 1000)%Q /\
  exists a b : Z,
    freqToBin 44100 440 = Bin a /\ freqToBin 44100 1000 = Bin b /\ a <= b.
Proof.
  assert (H1 : (0 < 44100)%Q) by reflexivity.
  assert (H2 : (440 <= 1000)%Q) by discriminate.
  exact (conj H1 (conj H2 (freqToBin_is_monotone 44100 440 1000 H1 H2))).
Defined.

(** X15.  Below half the window a bin is found again from its centre
    frequency: [freqToBin (k * sampleRate / fftSize) = k]. *)
Theorem freqToBin_of_bin_centre (sr : Q) (k : Z) :
  (0 < sr)%Q -> 0 <= k < fftSize / 2 ->
  freqToBin sr (inject_Z k * sr / inject_Z fftSize) = Bin k.
Proof.
  intros Hsr Hk. rewrite (freqToBin_positive_rate _ _ Hsr).
  assert (E : round (inject_Z k * sr / inject_Z fftSize * inject_Z fftSize / sr)
              = k).
  { rewrite <- (round_inject_Z k) at 2. apply round_comp.
    rewrite fftSize_value. field.
    repeat split; try discriminate;
      intros H0; rewrite H0 in Hsr; discriminate Hsr. }
  rewrite E.
  destruct Hk as [_ Hk]. apply Z.ltb_lt in Hk. rewrite Hk. reflexivity.
Qed.

Lemma freqToBin_of_bin_centre_witness :
  (0 < 44100)%Q /\ 0 <= 46 < fftSize / 2 /\
  freqToBin 44100 (inject_Z 46 * 44100 / inject_Z fftSize) = Bin 46.
Proof.
  assert (H1 : (0 < 44100)%Q) by reflexivity.
  assert (H2 : 0 <= 46 < fftSize / 2)
    by (rewrite fftSize_value; change (2048 / 2) with 1024; lia).
  exact (conj H1 (conj H2 (freqToBin_of_bin_centre 44100 46 H1 H2))).
Defined.

(** ** The layout of the table *)

Lemma shapes_lookup_exact (bins : list Z) : forall (index pb : Z) (k : nat) s,
  shapes index pb bins !! k = Some s ->
  exists bin p : Z,
    bins !! k = Some bin /\
    s = (index + Z.of_nat k, startIdx p bin,
         if 0 <? nextPrevBin bin (drop (S k) bins) - startIdx p bin
         then nextPrevBin bin (drop (S k) bins) else 0) /\
    (k = 0%nat -> p = pb) /\
    (forall j b0, k = S j -> bins !! j = Some b0 ->
       p = nextPrevBin b0 (drop (S j) bins)).
Proof.
  induction bins as [|bin rest IH]; intros index pb k s Hk; [discriminate|].
  destruct k as [|k]; simpl in Hk.
  - injection Hk as <-. exists bin, pb. simpl. split_and!.
    + reflexivity.
    + rewrite Z.add_0_r. reflexivity.
    + reflexivity.
    + intros j b0 Hj. discriminate Hj.
  - destruct (IH _ _ _ _ Hk) as (b & p & Hb & -> & H0 & HS).
    exists b, p. simpl. split_and!.
    + exact Hb.
    + do 2 f_equal. lia.
    + intros E. discriminate E.
    + intros j b0 Hj Hb0. injection Hj as <-.
      destruct k as [|k'].
      * simpl in Hb0. injection Hb0 as ->. rewrite drop_0. apply H0. reflexivity.
      * simpl in Hb0. simpl. apply (HS k' b0 eq_refl Hb0).
Qed.

Lemma tile_step (idx bin bin' : Z) :
  0 <= idx <= bin -> bin <= bin' ->
  let pb := extend bin bin' in
  let e := if 0 <? pb - idx then pb else 0 in
  let last := if e =? 0 then idx else e in
  last <= startIdx pb bin' <= last + 1.
Proof.
  intros Hidx Hbin pb e last.
  pose proof (extend_bounds bin bin' Hbin) as Hpb. fold pb in Hpb.
  assert (Hlast : last = pb).
  { unfold last, e. destruct (Z.ltb_spec 0 (pb - idx)).
    - destruct (Z.eqb_spec pb 0); lia.
    - simpl. lia. }
  rewrite Hlast. unfold startIdx.
  destruct (Z.ltb_spec 0 pb), (Z.leb_spec (pb + 1) bin'); simpl; try lia.
  assert (Hb0 : bin = 0) by lia.
  unfold pb, extend in *. rewrite Hb0 in *.
  destruct (Z.ltb_spec 1 (bin' - 0)) as [Hd|Hd]; [|lia].
  pose proof (round_half _ Hd). lia.
Qed.

Section Layout.

Variable pow : Q -> Q -> Q.

(** X16.  Whatever the configuration, a bar appended by a call has the end
    bin 0 or an end bin above its primary bin: where [drawFrame] takes the
    branch of the range, the range holds at least two bins. *)
Theorem end_bin_is_zero_or_above (fuel : nat) (g : Z)
    (st st' : MainComponent) (k : nat) (b : Bar) :
  buildTemperedScale pow fuel g st = Ok st' ->
  allBars st' !! (length (allBars st) + k)%nat = Some b ->
  endIdx b = 0 \/ dataIdx b < endIdx b.
Proof.
  intros Hbuild Hb.
  pose proof (build_bar_shape pow _ _ _ _ _ _ Hbuild Hb) as Hs.
  destruct (shapes_lookup _ _ _ _ _ Hs) as (bin & _ & _ & _ & _ & _ & _ & Hend).
  simpl in Hend. destruct Hend as [H | [H _]]; [left | right]; exact H.
Qed.

(** X17.  For a positive sample rate, a band that starts at 0 Hz or above
    and notes that do not decrease, the bars tile the bins: each bar starts
    on the last bin of the bar before it or on the bin after that one, so no
    bin between the first and the last bar is left out and two neighbours
    share at most one bin. *)
Theorem bars_tile_the_bins (fuel : nat) (g : Z) (st st' : MainComponent)
    (k : nat) (b b' : Bar) :
  (0 < _sampleRate st)%Q ->
  (0 <= minFreq st)%Q ->
  (forall i j, 0 <= i <= j -> (noteFreq pow i <= noteFreq pow j)%Q) ->
  temperedScale st = [] ->
  allBars st = [] ->
  buildTemperedScale pow fuel g st = Ok st' ->
  allBars st' !! k = Some b ->
  allBars st' !! S k = Some b' ->
  lastBin b <= dataIdx b' <= lastBin b + 1.
Proof.
  intros Hsr Hmin Hmono Hts0 Hbars0 Hbuild Hb Hb'.
  assert (Hshape : forall n c, allBars st' !! n = Some c ->
            shapes 0 0 (binOf (_sampleRate st) <$> temperedScale st') !! n
              = Some (shape c)).
  { intros n c Hc. apply (build_bar_shape pow fuel g st st' n c Hbuild).
    rewrite Hbars0. exact Hc. }
  destruct (shapes_lookup_exact _ _ _ _ _ (Hshape k b Hb))
    as (b0 & p & Hb0 & Hs & _ & _).
  destruct (shapes_lookup_exact _ _ _ _ _ (Hshape (S k) b' Hb'))
    as (b1 & p' & Hb1 & Hs' & _ & HS).
  specialize (HS k b0 eq_refl Hb0).
  rewrite (drop_S _ _ _ Hb1) in HS, Hs. simpl in HS, Hs.
  unfold shape in Hs, Hs'. injection Hs as _ Hidx Hend.
  injection Hs' as _ Hidx' _.
  (* the own bins are ordered and not negative *)
  destruct (buildTemperedScale_Ok pow _ _ _ _ Hbuild)
    as (js & _ & Hinc & Hall & _ & Hts & _).
  rewrite Hts0 in Hts. simpl in Hts. rewrite Hts in Hb0, Hb1.
  rewrite !list_lookup_fmap in Hb0, Hb1.
  destruct (js !! k) as [a|] eqn:Ha; [|discriminate].
  destruct (js !! S k) as [a'|] eqn:Ha'; [|discriminate].
  simpl in Hb0, Hb1. injection Hb0 as Hb0. injection Hb1 as Hb1.
  destruct (increasingFrom_lookup js 0 k a a' Hinc Ha Ha') as [Ha0 Haa].
  assert (Hle : b0 <= b1).
  { rewrite <- Hb0, <- Hb1. apply binOf_mono; [exact Hsr | apply Hmono; lia]. }
  assert (Hnn : 0 <= b0).
  { pose proof (Forall_lookup_1 _ _ _ _ Hall Ha) as (Hlo & _).
    simpl in Hlo.
    destruct (freqToBin_range (_sampleRate st) (noteFreq pow a))
      as (z & Hz & Hrange);
      [apply Qlt_le_weak, Hsr | apply Qle_trans with (minFreq st); assumption|].
    rewrite <- Hb0. unfold binOf. rewrite Hz. lia. }
  pose proof (startIdx_nonneg p b0 Hnn) as Hidx0.
  pose proof (startIdx_le p b0) as Hidx1.
  pose proof (tile_step (startIdx p b0) b0 b1 ltac:(lia) Hle) as Htile.
  simpl in Htile. unfold lastBin. rewrite Hidx', HS, Hend, Hidx.
  exact Htile.
Qed.

End Layout.

Lemma end_bin_is_zero_or_above_witness :
  endIdx (Approx.barAt Approx.at44100 53) = 0 \/
  dataIdx (Approx.barAt Approx.at44100 53)
    < endIdx (Approx.barAt Approx.at44100 53).
Proof.
  exact (end_bin_is_zero_or_above Approx.pow 300 2 Approx.fresh
           Approx.at44100 53 (Approx.barAt Approx.at44100 53) built_44100
           (built_44100_bar 53 ltac:(lia))).
Defined.

Lemma bars_tile_the_bins_witness :
  (0 < _sampleRate Approx.fresh)%Q /\
  lastBin (Approx.barAt Approx.at44100 53)
    <= dataIdx (Approx.barAt Approx.at44100 54)
    <= lastBin (Approx.barAt Approx.at44100 53) + 1.
Proof.
  assert (H1 : (0 < _sampleRate Approx.fresh)%Q) by reflexivity.
  assert (H2 : (0 <= minFreq Approx.fresh)%Q) by discriminate.
  exact (conj H1
           (bars_tile_the_bins Approx.pow 300 2 Approx.fresh Approx.at44100 53
              (Approx.barAt Approx.at44100 53) (Approx.barAt Approx.at44100 54)
              H1 H2 approx_noteFreq_mono eq_refl eq_refl built_44100
              (built_44100_bar 53 ltac:(lia)) (built_44100_bar 54 ltac:(lia)))).
Defined.
(** ** What a later call leaves alone *)

Lemma stepWalk_keeps (L o : nat) (index bin pb' : Z) (w : walk) (p : nat) :
  walkInv L w o -> (p < L)%nat ->
  bars (stepWalk index bin pb' w) !! p = bars w !! p.
Proof.
  intros (Hlo & Hn & _) Hp.
  destruct (stepWalk_bars index bin pb' w) as (T1 & -> & HT1 & Hlen & _).
  rewrite lookup_app_l by lia. subst T1.
  destruct (_ =? prevIdx w); [reflexivity|].
  destruct (1 <? nBars w); [|reflexivity].
  rewrite (setFactors_lookup _ _ p o) by (lia || exact Hn).
  case_bool_decide; [lia | reflexivity].
Qed.

Lemma walkBins_keeps (L : nat) (bins : list Z) :
  forall (index : Z) (w : walk) (o p : nat),
  walkInv L w o -> (p < L)%nat ->
  bars (walkBins index bins w) !! p = bars w !! p.
Proof.
  induction bins as [|bin rest IH]; intros index w o p Hinv Hp; [reflexivity|].
  simpl. destruct (stepWalk_inv L o index bin (nextPrevBin bin rest) w Hinv)
    as (o' & Hinv').
  rewrite (IH _ _ o' p Hinv' Hp). apply (stepWalk_keeps L o); assumption.
Qed.

Lemma ratio_bounds (a n : Z) :
  0 <= a <= n -> 0 < n ->
  (0 <= inject_Z a / inject_Z n)%Q /\ (inject_Z a / inject_Z n <= 1)%Q.
Proof.
  intros Ha Hn. destruct n as [|n|n]; try lia.
  unfold Qle, Qdiv, Qmult, Qinv; simpl. lia.
Qed.

Lemma stepWalk_unitFactor (L o : nat) (index bin pb' : Z) (w : walk) :
  walkInv L w o -> Forall unitFactor (bars w) ->
  Forall unitFactor (bars (stepWalk index bin pb' w)).
Proof.
  intros (Hlo & Hn & _) Hall.
  destruct (stepWalk_bars index bin pb' w) as (T1 & -> & HT1 & Hlen & _).
  apply Forall_app. split.
  - subst T1. destruct (_ =? prevIdx w); [exact Hall|].
    destruct (Z.ltb_spec 1 (nBars w)) as [Hnb|Hnb]; [|exact Hall].
    apply Forall_lookup_2. intros p b Hb.
    rewrite (setFactors_lookup _ _ p o) in Hb by (lia || exact Hn).
    case_bool_decide as Hp.
    + destruct (bars w !! p) as [b0|]; [|discriminate].
      simpl in Hb. injection Hb as <-. unfold unitFactor; simpl.
      apply ratio_bounds; lia.
    + apply (Forall_lookup_1 _ _ _ _ Hall Hb).
  - apply Forall_singleton. split; simpl; discriminate.
Qed.

Lemma walkBins_unitFactor (L : nat) (bins : list Z) :
  forall (index : Z) (w : walk) (o : nat),
  walkInv L w o -> Forall unitFactor (bars w) ->
  Forall unitFactor (bars (walkBins index bins w)).
Proof.
  induction bins as [|bin rest IH]; intros index w o Hinv Hall; [exact Hall|].
  simpl. destruct (stepWalk_inv L o index bin (nextPrevBin bin rest) w Hinv)
    as (o' & Hinv').
  apply (IH _ _ o' Hinv'). apply (stepWalk_unitFactor L o); assumption.
Qed.

Section Later.

Variable pow : Q -> Q -> Q.

(** X18.  A call never rewrites what earlier calls stored: the frequencies
    and the bars already in the two vectors, interpolation factors included,
    are found again at the same positions. *)
Theorem earlier_entries_are_kept (fuel : nat) (g : Z)
    (st st' : MainComponent) :
  buildTemperedScale pow fuel g st = Ok st' ->
  (forall (p : nat) (x : Q),
     temperedScale st !! p = Some x -> temperedScale st' !! p = Some x) /\
  (forall (p : nat) (b : Bar),
     allBars st !! p = Some b -> allBars st' !! p = Some b).
Proof.
  intros Hbuild.
  destruct (buildTemperedScale_Ok pow _ _ _ _ Hbuild)
    as (js & _ & _ & _ & _ & Hts & Hbars & _).
  split.
  - intros p x Hx. rewrite Hts. apply lookup_app_l_Some, Hx.
  - intros p b Hb. rewrite Hbars.
    rewrite (walkBins_keeps (length (allBars st)) _ _ _ (length (allBars st)) p).
    + exact Hb.
    + apply walk0_inv.
    + apply lookup_lt_Some in Hb. exact Hb.
Qed.

(** X19.  Every interpolation factor that a call stores is a fraction
    between 0 and 1. *)
Theorem factors_are_fractions (fuel : nat) (g : Z) (st st' : MainComponent) :
  Forall unitFactor (allBars st) ->
  buildTemperedScale pow fuel g st = Ok st' ->
  Forall unitFactor (allBars st').
Proof.
  intros Hall Hbuild.
  destruct (buildTemperedScale_Ok pow _ _ _ _ Hbuild)
    as (js & _ & _ & _ & _ & _ & Hbars & _).
  rewrite Hbars.
  apply (walkBins_unitFactor (length (allBars st)) _ _ _ (length (allBars st))).
  - apply walk0_inv.
  - exact Hall.
Qed.

End Later.

Lemma earlier_entries_are_kept_witness :
  exists st2 : MainComponent,
    buildTemperedScale Approx.pow 300 2 Approx.at44100 = Ok st2 /\
    (forall (p : nat) (x : Q),
       temperedScale Approx.at44100 !! p = Some x ->
       temperedScale st2 !! p = Some x) /\
    (forall (p : nat) (b : Bar),
       allBars Approx.at44100 !! p = Some b -> allBars st2 !! p = Some b).
Proof.
  destruct (build_again Approx.pow 300 2 Approx.fresh Approx.at44100
              Approx.at44100 eq_refl eq_refl built_44100 eq_refl eq_refl
              eq_refl eq_refl
              (build_finite Approx.pow 300 2 Approx.fresh Approx.at44100
                 eq_refl built_44100))
    as (st2 & Hbuild & _).
  exact (ex_intro _ st2
           (conj Hbuild
              (earlier_entries_are_kept Approx.pow 300 2 Approx.at44100 st2
                 Hbuild))).
Defined.

Lemma factors_are_fractions_witness :
  Forall unitFactor (allBars Approx.fresh) /\
  Forall unitFactor (allBars Approx.at44100).
Proof.
  assert (H : Forall unitFactor (allBars Approx.fresh)) by apply Forall_nil_2.
  exact (conj H (factors_are_fractions Approx.pow 300 2 Approx.fresh
                   Approx.at44100 H built_44100)).
Defined.

(** ** Levels and heights on the canvas *)

Lemma jlimit_range (lo hi v : Q) :
  (lo <= hi)%Q -> (lo <= jlimit lo hi v)%Q /\ (jlimit lo hi v <= hi)%Q.
Proof.
  intros Hlh. unfold jlimit.
  destruct (Qltb v lo) eqn:E1.
  - split; [apply Qle_refl | exact Hlh].
  - apply Qltb_ge in E1. destruct (Qltb hi v) eqn:E2.
    + split; [exact Hlh | apply Qle_refl].
    + apply Qltb_ge in E2. split; assumption.
Qed.

Lemma jlimit_mono (lo hi u v : Q) :
  (lo <= hi)%Q -> (u <= v)%Q -> (jlimit lo hi u <= jlimit lo hi v)%Q.
Proof.
  intros Hlh Huv. unfold jlimit.
  destruct (Qltb u lo) eqn:E1, (Qltb v lo) eqn:E2;
    try apply Qltb_lt in E1; try apply Qltb_ge in E1;
    try apply Qltb_lt in E2; try apply Qltb_ge in E2;
    destruct (Qltb hi u) eqn:E3, (Qltb hi v) eqn:E4;
    try apply Qltb_lt in E3; try apply Qltb_ge in E3;
    try apply Qltb_lt in E4; try apply Qltb_ge in E4; lra.
Qed.

Lemma jmap_level (db h : Q) :
  (jmap db mindB maxdB h 0 == h * (- db * (1 # 100)))%Q.
Proof. unfold jmap, mindB, maxdB. field. Qed.

Section Levels.

Variable log10 : Q -> Q.

Lemma levelOf_range (gain h : Q) :
  (0 <= h)%Q -> (0 <= levelOf log10 gain h)%Q /\ (levelOf log10 gain h <= h)%Q.
Proof.
  intros Hh. unfold levelOf. rewrite jmap_level.
  set (db := jlimit mindB maxdB _).
  destruct (jlimit_range mindB maxdB
              (gainToDecibels log10 gain - gainToDecibels log10 (inject_Z fftSize))
              ltac:(discriminate)) as [Hlo Hhi].
  fold db in Hlo, Hhi. unfold mindB, maxdB in Hlo, Hhi.
  assert (H0 : (0 <= - db * (1 # 100))%Q) by lra.
  assert (H1 : (- db * (1 # 100) <= 1)%Q) by lra.
  split; nra.
Qed.

Lemma getLevel_range (data : list Q) (i : Z) (h y : Q) :
  (0 <= h)%Q -> getLevel log10 data i h = Ok y -> (0 <= y)%Q /\ (y <= h)%Q.
Proof.
  intros Hh H. unfold getLevel in H. inv_bind H.
  injection H as <-. apply levelOf_range, Hh.
Qed.

Lemma peakLoop_range (data : list Q) (h : Q) (count : nat) :
  forall (j : Z) (acc y : Q),
  (0 <= h)%Q -> (0 <= acc)%Q /\ (acc <= h)%Q ->
  peakLoop log10 count data h j acc = Ok y -> (0 <= y)%Q /\ (y <= h)%Q.
Proof.
  induction count as [|c IH]; intros j acc y Hh Hacc H; simpl in H.
  - injection H as <-. exact Hacc.
  - inv_bind H. inv_bind H.
    match goal with
    | Hstep : (if Qltb acc ?x then _ else _) = Ok ?a |- _ =>
        apply (IH (j + 1) a y Hh); [|exact H];
        destruct (Qltb acc x);
        [apply (getLevel_range data j h a Hh Hstep)
        | injection Hstep as <-; exact Hacc]
    end.
Qed.

Lemma peakLoop_picks (data : list Q) (h : Q) (count : nat) :
  forall (j : Z) (acc y : Q),
  peakLoop log10 count data h j acc = Ok y ->
  y = acc \/
  exists i : Z, j <= i < j + Z.of_nat count /\ getLevel log10 data i h = Ok y.
Proof.
  induction count as [|c IH]; intros j acc y H; simpl in H.
  - injection H as <-. left. reflexivity.
  - inv_bind H. inv_bind H.
    match goal with
    | Hstep : (if Qltb acc ?x then _ else _) = Ok ?a |- _ =>
        destruct (IH (j + 1) a y H) as [-> | (i & Hi & Hlev)];
        [ destruct (Qltb acc x);
          [ right; exists j; split; [lia | exact Hstep]
          | injection Hstep as <-; left; reflexivity ]
        | right; exists i; split; [lia | exact Hlev] ]
    end.
Qed.

(** X20.  An interpolated bar (no end bin, a factor above 0 and at most 1,
    a primary bin above 0) is drawn at [prev + (own - prev) * factor], where
    [prev] is the level of the bin before its primary bin and [own] the
    level of the primary bin: the height lies between the two levels, the
    factor being the fraction of the way from [prev] to [own]. *)
Theorem interpolated_height_is_between (data : list Q) (h : Q) (bar : Bar)
    (own prev : Q) :
  endIdx bar = 0 -> 0 < dataIdx bar ->
  (0 < factor bar)%Q -> (factor bar <= 1)%Q ->
  getLevel log10 data (dataIdx bar) h = Ok own ->
  getLevel log10 data (dataIdx bar - 1) h = Ok prev ->
  exists y : Q,
    barHeightOf log10 data h bar = Ok y /\
    (y - prev == (own - prev) * factor bar)%Q /\
    (Qmin prev own <= y)%Q /\ (y <= Qmax prev own)%Q.
Proof.
  intros Hend Hidx Hf0 Hf1 Hown Hprev.
  exists (prev + (own - prev) * factor bar)%Q.
  unfold barHeightOf. rewrite Hend. simpl. rewrite Hown. simpl.
  apply Qltb_lt in Hf0 as Hf0b. rewrite Hf0b.
  apply Z.ltb_lt in Hidx as Hidxb. rewrite Hidxb. rewrite Hprev. simpl.
  split; [reflexivity|]. split; [ring|].
  destruct (Qlt_le_dec own prev) as [Hlt|Hle].
  - rewrite (Q.min_r prev own) by lra. rewrite (Q.max_l prev own) by lra.
    split; nra.
  - rewrite (Q.min_l prev own) by lra. rewrite (Q.max_r prev own) by lra.
    split; nra.
Qed.

(** X21.  The height of a bar with an end bin is 0, the value the peak loop
    starts from, or the level of one of the bins from its primary bin to its
    end bin: no other value is ever drawn for it. *)
Theorem range_height_is_zero_or_a_level (data : list Q) (h : Q) (bar : Bar)
    (y : Q) :
  endIdx bar <> 0 ->
  barHeightOf log10 data h bar = Ok y ->
  y = 0%Q \/
  exists j : Z, dataIdx bar <= j <= endIdx bar /\
                getLevel log10 data j h = Ok y.
Proof.
  intros Hend H. unfold barHeightOf in H.
  apply Z.eqb_neq in Hend. rewrite Hend in H.
  destruct (peakLoop_picks _ _ _ _ _ _ H) as [-> | (j & Hj & Hlev)];
    [left; reflexivity|].
  right. exists j. split; [lia | exact Hlev].
Qed.

Lemma barHeightOf_range (data : list Q) (h : Q) (bar : Bar) (y : Q) :
  (0 <= h)%Q -> unitFactor bar ->
  barHeightOf log10 data h bar = Ok y -> (0 <= y)%Q /\ (y <= h)%Q.
Proof.
  intros Hh [Hf0 Hf1] H. unfold barHeightOf in H.
  destruct (endIdx bar =? 0).
  - inv_bind H.
    match goal with
    | Hown : getLevel log10 data (dataIdx bar) h = Ok ?a |- _ =>
        pose proof (getLevel_range _ _ _ _ Hh Hown) as [Ha0 Ha1]
    end.
    destruct (Qltb 0 (factor bar)).
    + inv_bind H. injection H as <-.
      match goal with
      | Hp : (if 0 <? dataIdx bar then _ else _) = Ok ?p |- _ =>
          assert (Hpr : (0 <= p)%Q /\ (p <= h)%Q)
            by (destruct (0 <? dataIdx bar);
                [apply (getLevel_range _ _ _ _ Hh Hp)
                | injection Hp as <-; split; assumption]);
          destruct Hpr as [Hp0 Hp1]
      end.
      split; nra.
    + injection H as <-. split; assumption.
  - apply (peakLoop_range _ _ _ _ _ _ Hh) in H; [exact H|].
    split; [apply Qle_refl | exact Hh].
Qed.

Lemma frameHeights_range (data : list Q) (h : Q) (bs : list Bar) :
  forall hs : list Q,
  (0 <= h)%Q -> Forall unitFactor bs ->
  frameHeights log10 data h bs = Ok hs ->
  length hs = length bs /\ Forall (fun y => (0 <= y)%Q /\ (y <= h)%Q) hs.
Proof.
  induction bs as [|b rest IH]; intros hs Hh Hall H; simpl in H.
  - injection H as <-. split; [reflexivity | apply Forall_nil_2].
  - inv_bind H. inv_bind H. injection H as <-.
    apply Forall_cons in Hall as [Hb Hrest].
    match goal with
    | H1 : barHeightOf log10 data h b = Ok ?a,
      H2 : frameHeights log10 data h rest = Ok ?l |- _ =>
        destruct (IH l Hh Hrest H2) as [Hlen Hin];
        pose proof (barHeightOf_range _ _ _ _ Hh Hb H1) as Hy
    end.
    split; [simpl; f_equal; exact Hlen | apply Forall_cons; split; assumption].
Qed.

End Levels.

Lemma interpolated_height_is_between_witness :
  (levelOf Approx.log10 100 100 < levelOf Approx.log10 4 100)%Q /\
  (0 < factor (Approx.barAt Approx.at44100 19))%Q /\
  (factor (Approx.barAt Approx.at44100 19) <= 1)%Q /\
  exists y : Q,
    barHeightOf Approx.log10 lowTone 100 (Approx.barAt Approx.at44100 19)
      = Ok y /\
    (y - levelOf Approx.log10 4 100
       == (levelOf Approx.log10 100 100 - levelOf Approx.log10 4 100)
          * factor (Approx.barAt Approx.at44100 19))%Q /\
    (Qmin (levelOf Approx.log10 4 100) (levelOf Approx.log10 100 100) <= y)%Q /\
    (y <= Qmax (levelOf Approx.log10 4 100) (levelOf Approx.log10 100 100))%Q.
Proof.
  assert (H0 : (levelOf Approx.log10 100 100 < levelOf Approx.log10 4 100)%Q)
    by (vm_compute; reflexivity).
  assert (H1 : endIdx (Approx.barAt Approx.at44100 19) = 0) by reflexivity.
  assert (H2 : 0 < dataIdx (Approx.barAt Approx.at44100 19)) by reflexivity.
  assert (H3 : (0 < factor (Approx.barAt Approx.at44100 19))%Q) by reflexivity.
  assert (H4 : (factor (Approx.barAt Approx.at44100 19) <= 1)%Q)
    by discriminate.
  assert (H5 : getLevel Approx.log10 lowTone
                 (dataIdx (Approx.barAt Approx.at44100 19)) 100
               = Ok (levelOf Approx.log10 100 100))
    by (vm_compute; reflexivity).
  assert (H6 : getLevel Approx.log10 lowTone
                 (dataIdx (Approx.barAt Approx.at44100 19) - 1) 100
               = Ok (levelOf Approx.log10 4 100))
    by (vm_compute; reflexivity).
  exact (conj H0 (conj H3 (conj H4
           (interpolated_height_is_between Approx.log10 lowTone 100
              (Approx.barAt Approx.at44100 19) _ _ H1 H2 H3 H4 H5 H6)))).
Defined.

Lemma range_height_is_zero_or_a_level_witness :
  endIdx (Approx.barAt Approx.at44100 53) <> 0 /\
  (levelOf Approx.log10 100 100 = 0%Q \/
   exists j : Z,
     dataIdx (Approx.barAt Approx.at44100 53) <= j
       <= endIdx (Approx.barAt Approx.at44100 53) /\
     getLevel Approx.log10 Approx.twoTone j 100
       = Ok (levelOf Approx.log10 100 100)).
Proof.
  assert (H1 : endIdx (Approx.barAt Approx.at44100 53) <> 0) by discriminate.
  assert (H2 : barHeightOf Approx.log10 Approx.twoTone 100
                 (Approx.barAt Approx.at44100 53)
               = Ok (levelOf Approx.log10 100 100))
    by (vm_compute; reflexivity).
  exact (conj H1
           (range_height_is_zero_or_a_level Approx.log10 Approx.twoTone 100
              (Approx.barAt Approx.at44100 53) _ H1 H2)).
Defined.

Lemma gainToDecibels_mono (log10 : Q -> Q) (x y : Q) :
  (forall a b : Q, (0 < a)%Q -> (a <= b)%Q -> (log10 a <= log10 b)%Q) ->
  (x <= y)%Q -> (gainToDecibels log10 x <= gainToDecibels log10 y)%Q.
Proof.
  intros Hmono Hxy. unfold gainToDecibels.
  destruct (Qltb 0 x) eqn:Ex, (Qltb 0 y) eqn:Ey.
  - apply Qltb_lt in Ex. apply Q.max_le_compat_l.
    pose proof (Hmono x y Ex Hxy). lra.
  - apply Qltb_lt in Ex. apply Qltb_ge in Ey. lra.
  - apply Q.le_max_l.
  - apply Qle_refl.
Qed.

Lemma levelOf_full_scale (log10 : Q -> Q) (h : Q) :
  (levelOf log10 (inject_Z fftSize) h == 0)%Q.
Proof.
  unfold levelOf. rewrite jmap_level.
  set (c := gainToDecibels log10 (inject_Z fftSize)).
  unfold jlimit, mindB, maxdB.
  assert (E1 : Qltb (c - c) (-100) = false) by (apply Qltb_ge; lra).
  assert (E2 : Qltb 0 (c - c) = false) by (apply Qltb_ge; lra).
  rewrite E1, E2. ring.
Qed.

Lemma levelOf_antitone (log10 : Q -> Q) (x y h : Q) :
  (forall a b : Q, (0 < a)%Q -> (a <= b)%Q -> (log10 a <= log10 b)%Q) ->
  (0 <= h)%Q -> (x <= y)%Q -> (levelOf log10 y h <= levelOf log10 x h)%Q.
Proof.
  intros Hmono Hh Hxy. unfold levelOf. rewrite !jmap_level.
  pose proof (gainToDecibels_mono log10 x y Hmono Hxy) as Hdb.
  set (c := gainToDecibels log10 (inject_Z fftSize)).
  assert (Hj : (jlimit mindB maxdB (gainToDecibels log10 x - c)
                <= jlimit mindB maxdB (gainToDecibels log10 y - c))%Q)
    by (apply jlimit_mono; [discriminate | lra]).
  nra.
Qed.

Section Canvas.

Variable pow : Q -> Q -> Q.
Variable log10 : Q -> Q.

(** X22.  After a first call at a sample rate that is not negative, with a
    band that starts at 0 Hz or above, a frame can be drawn from any
    contents of the analysis buffer: [drawFrame] computes one height for
    each bar, and each height lies between 0 and the height of the window. *)
Theorem every_bar_is_drawn_on_the_canvas (fuel : nat) (g : Z)
    (st st' st'' : MainComponent) (h : Q) :
  (0 <= h)%Q ->
  (0 <= _sampleRate st)%Q ->
  (0 <= minFreq st)%Q ->
  temperedScale st = [] ->
  allBars st = [] ->
  buildTemperedScale pow fuel g st = Ok st' ->
  allBars st'' = allBars st' ->
  Z.of_nat (length (fftData st'')) = 2 * fftSize ->
  exists hs : list Q,
    drawFrame log10 st'' h = Ok hs /\
    length hs = length (allBars st') /\
    Forall (fun y => (0 <= y)%Q /\ (y <= h)%Q) hs.
Proof.
  intros Hh Hsr Hmin Hts0 Hbars0 Hbuild Hsame Hlen.
  pose proof (build_bar_range pow _ _ _ _ Hsr Hmin Hts0 Hbars0 Hbuild) as Hrange.
  pose proof fftSize_value as HN.
  assert (Hunit : Forall unitFactor (allBars st')).
  { destruct (buildTemperedScale_Ok pow _ _ _ _ Hbuild)
      as (js & _ & _ & _ & _ & _ & Hbars & _).
    rewrite Hbars.
    apply (walkBins_unitFactor (length (allBars st)) _ _ _
             (length (allBars st))); [apply walk0_inv|].
    rewrite Hbars0. apply Forall_nil_2. }
  unfold drawFrame. rewrite Hsame.
  destruct (frameHeights_Ok log10 (fftData st'') h (allBars st')) as [hs Hhs].
  { apply (Forall_impl _ _ _ Hrange). intros b [Hd He]. lia. }
  exists hs. split; [exact Hhs|].
  apply (frameHeights_range log10 _ _ _ _ Hh Hunit Hhs).
Qed.

(** X23.  Where [log10] does not decrease, neither does the bar with the
    magnitude: of two magnitudes the larger one gets the smaller (or the
    same) distance from the top of the window. *)
Theorem louder_bin_is_drawn_higher (data : list Q) (i j : Z) (h x y : Q) :
  (forall a b : Q, (0 < a)%Q -> (a <= b)%Q -> (log10 a <= log10 b)%Q) ->
  (0 <= h)%Q ->
  readFft data i = Ok x -> readFft data j = Ok y -> (x <= y)%Q ->
  exists lx ly : Q,
    getLevel log10 data i h = Ok lx /\ getLevel log10 data j h = Ok ly /\
    (ly <= lx)%Q.
Proof.
  intros Hmono Hh Hx Hy Hxy.
  exists (levelOf log10 x h), (levelOf log10 y h).
  unfold getLevel. rewrite Hx, Hy. simpl.
  split_and!; [reflexivity | reflexivity |].
  apply levelOf_antitone; assumption.
Qed.

(** X24.  A bin whose magnitude is [fftSize] is drawn at the very top of the
    window, whatever [log10] is; where [log10] does not decrease, so is
    every bin with a larger magnitude. *)
Theorem full_scale_is_the_top (data : list Q) (i : Z) (h x : Q) :
  (0 <= h)%Q ->
  readFft data i = Ok x ->
  exists l : Q,
    getLevel log10 data i h = Ok l /\
    (x = inject_Z fftSize -> (l == 0)%Q) /\
    ((forall a b : Q, (0 < a)%Q -> (a <= b)%Q -> (log10 a <= log10 b)%Q) ->
     (inject_Z fftSize <= x)%Q -> (l == 0)%Q).
Proof.
  intros Hh Hx. exists (levelOf log10 x h).
  unfold getLevel. rewrite Hx. simpl.
  assert (Hmore : (forall a b : Q, (0 < a)%Q -> (a <= b)%Q ->
                     (log10 a <= log10 b)%Q) ->
                  (inject_Z fftSize <= x)%Q -> (levelOf log10 x h == 0)%Q).
  { intros Hmono Hge. apply Qle_antisym.
    - rewrite <- (levelOf_full_scale log10 h).
      apply levelOf_antitone; assumption.
    - apply levelOf_range, Hh. }
  split_and!; [reflexivity | | exact Hmore].
  intros ->. apply levelOf_full_scale.
Qed.

End Canvas.

Lemma approx_log10_mono (a b : Q) :
  (0 < a)%Q -> (a <= b)%Q -> (Approx.log10 a <= Approx.log10 b)%Q.
Proof.
  intros _ Hab. unfold Approx.log10.
  apply Qmult_le_compat_r; [|discriminate].
  rewrite <- Zle_Qle. apply Z.log2_le_mono, Qfloor_resp_le, Hab.
Qed.

Lemma every_bar_is_drawn_on_the_canvas_witness :
  (0 <= 100)%Q /\
  (0 <= _sampleRate Approx.fresh)%Q /\
  (0 <= minFreq Approx.fresh)%Q /\
  exists hs : list Q,
    drawFrame Approx.log10 Approx.at44100 100 = Ok hs /\
    length hs = length (allBars Approx.at44100) /\
    Forall (fun y => (0 <= y)%Q /\ (y <= 100)%Q) hs.
Proof.
  assert (H0 : (0 <= 100)%Q) by discriminate.
  assert (H1 : (0 <= _sampleRate Approx.fresh)%Q) by discriminate.
  assert (H2 : (0 <= minFreq Approx.fresh)%Q) by discriminate.
  assert (H3 : Z.of_nat (length (fftData Approx.at44100)) = 2 * fftSize)
    by (vm_compute; reflexivity).
  exact (conj H0 (conj H1 (conj H2
           (every_bar_is_drawn_on_the_canvas Approx.pow Approx.log10 300 2
              Approx.fresh Approx.at44100 Approx.at44100 100 H0 H1 H2
              eq_refl eq_refl built_44100 eq_refl H3)))).
Defined.

Lemma louder_bin_is_drawn_higher_witness :
  (0 <= 100)%Q /\ (4 <= 100)%Q /\
  exists lx ly : Q,
    getLevel Approx.log10 Approx.twoTone 20 100 = Ok lx /\
    getLevel Approx.log10 Approx.twoTone 21 100 = Ok ly /\
    (ly <= lx)%Q.
Proof.
  assert (H0 : (0 <= 100)%Q) by discriminate.
  assert (H1 : (4 <= 100)%Q) by discriminate.
  assert (H2 : readFft Approx.twoTone 20 = Ok 4%Q) by (vm_compute; reflexivity).
  assert (H3 : readFft Approx.twoTone 21 = Ok 100%Q)
    by (vm_compute; reflexivity).
  exact (conj H0 (conj H1
           (louder_bin_is_drawn_higher Approx.log10 Approx.twoTone 20 21 100
              4 100 approx_log10_mono H0 H2 H3 H1))).
Defined.

Lemma full_scale_is_the_top_witness :
  (0 <= 100)%Q /\
  exists l : Q,
    getLevel Approx.log10 [inject_Z fftSize] 0 100 = Ok l /\
    (inject_Z fftSize = inject_Z fftSize -> (l == 0)%Q) /\
    ((forall a b : Q, (0 < a)%Q -> (a <= b)%Q ->
        (Approx.log10 a <= Approx.log10 b)%Q) ->
     (inject_Z fftSize <= inject_Z fftSize)%Q -> (l == 0)%Q).
Proof.
  assert (H0 : (0 <= 100)%Q) by discriminate.
  exact (conj H0
           (full_scale_is_the_top Approx.log10 [inject_Z fftSize] 0 100
              (inject_Z fftSize) H0 eq_refl)).
Defined.
